(** * A point ledger guarded by per-user locks: [PointService]

    Shallow embedding of [src/point/point.service.ts] (the lock-guarded
    service) and of its earlier variant without locks, together with the
    properties of the ledger specification.

    Conventions of the embedding.
    - A JavaScript [number] is a finite rational, [NaN], [Infinity] or
      [-Infinity]; the two zeros of binary64 are one number here (the
      service never divides, nor tells them apart).  The [+] and [-] of
      the service are the binary64 operations: on two binary64 values the
      exact result is rounded to the nearest binary64 value, ties to the
      even significand, and to an infinity on overflow.  An integer of
      magnitude at most [2^53] is a binary64 value, and sums and
      differences of integers that stay within that bound are exact.  On
      a rational that is not a binary64 value, which no JavaScript
      program can hold, the operations are left exact.
    - An [async] method is a tree of operations ([prog]).  Operations on
      the service's own fields run synchronously; operations that return a
      promise that the method awaits are suspension points.
    - [run] executes one call to completion with nothing interleaved;
      [step] is one scheduler turn of a pool of pending calls: it settles
      the awaited operation of one call and runs that call up to its next
      suspension point, as the JavaScript event loop does.
    - [Date.now()] reads a clock kept in the state.  The service cannot
      set it, and the executions below are those during which it reads
      the same value; no property compares the time stamps of records
      made by different reads of the clock. *)

From Stdlib Require Import ZArith QArith Qcanon String List Lia Permutation.
From stdpp Require Import base numbers option list strings gmap.

Local Open Scope Z_scope.

(** ** JavaScript numbers *)

Inductive number : Type :=
| Fin (q : Qc)
| NaN
| PosInf
| NegInf.

(** The number denoted by an integer literal. *)
Definition Int (z : Z) : number := Fin (Qc_of_Z z).

#[global] Instance number_eq_dec : EqDecision number.
Proof. solve_decision. Defined.

Definition number_encode (n : number) : Qc + nat :=
  match n with
  | Fin q => inl q
  | NaN => inr 0%nat
  | PosInf => inr 1%nat
  | NegInf => inr 2%nat
  end.

Definition number_decode (s : Qc + nat) : number :=
  match s with
  | inl q => Fin q
  | inr 0%nat => NaN
  | inr 1%nat => PosInf
  | inr _ => NegInf
  end.

#[global] Instance number_countable : Countable number.
Proof.
  apply (inj_countable' number_encode number_decode).
  intros []; reflexivity.
Defined.

(** [Number.isInteger(n)]: finite, with no fractional part. *)
Definition Number_isInteger (n : number) : bool :=
  match n with
  | Fin q => bool_decide (Qden (this q) = 1%positive)
  | _ => false
  end.

(** [x < y]; any comparison with [NaN] is false. *)
Definition ltb (x y : number) : bool :=
  match x, y with
  | NaN, _ | _, NaN => false
  | Fin a, Fin b => bool_decide (a < b)%Qc
  | NegInf, NegInf => false
  | NegInf, _ => true
  | _, NegInf => false
  | PosInf, _ => false
  | Fin _, PosInf => true
  end.

(** [x <= y]: neither is [NaN] and [y < x] is false. *)
Definition leb (x y : number) : bool :=
  match x, y with
  | NaN, _ | _, NaN => false
  | _, _ => negb (ltb y x)
  end.

(** [x > y] *)
Definition gtb (x y : number) : bool := ltb y x.

(** *** binary64

    A binary64 value is an integer multiple of [2^-1074] whose integer has
    at most 53 significant bits above the smallest unit, and is below
    [2^1024] in magnitude.  The values are handled on that grid: [r]
    stands for [r * 2^-1074]. *)

(** The exponent of the unit in the last place of [x], on the grid. *)
Definition ulp_exp (x : Z) : Z := Z.max 0 (Z.log2 (Z.abs x) - 52).

(** [n / 2^j] rounded to the nearest integer, ties to the even one. *)
Definition rne (n j : Z) : Z :=
  let d := 2 ^ j in
  let f := n / d in
  let r := n mod d in
  if 2 * r <? d then f
  else if d <? 2 * r then f + 1
  else if Z.even f then f else f + 1.

(** Rounding to nearest, ties to even, to 53 significant bits. *)
Definition round53 (x : Z) : Z :=
  Z.sgn x * (rne (Z.abs x) (ulp_exp x) * 2 ^ ulp_exp x).

Definition grid : positive := (2 ^ 1074)%positive.
Definition huge : Z := 2 ^ 2098.

(** The binary64 value [q] on the grid; [None] when [q] is not a binary64
    value. *)
Definition binary64 (q : Qc) : option Z :=
  let d := Zpos (Qden (this q)) in
  if Zpos grid mod d =? 0 then
    let r := Qnum (this q) * (Zpos grid / d) in
    if (round53 r =? r) && (Z.abs r <? huge) then Some r else None
  else None.

(** The number at [r] on the grid; beyond the largest binary64 value the
    result overflows to an infinity. *)
Definition of_grid (r : Z) : number :=
  if huge <=? r then PosInf
  else if r <=? - huge then NegInf
  else Fin (Q2Qc (r # grid)).

(** [x + y]: the exact sum rounded to the nearest binary64 value, ties to
    even, as IEEE 754 addition is.  The numbers of a JavaScript program
    are binary64 values; on the rationals that are not, which no value of
    the program denotes, the sum is left exact. *)
Definition add (x y : number) : number :=
  match x, y with
  | NaN, _ | _, NaN => NaN
  | Fin a, Fin b =>
      match binary64 a, binary64 b with
      | Some ra, Some rb => of_grid (round53 (ra + rb))
      | _, _ => Fin (a + b)%Qc
      end
  | PosInf, NegInf | NegInf, PosInf => NaN
  | PosInf, _ | _, PosInf => PosInf
  | NegInf, _ | _, NegInf => NegInf
  end.

(** [- x] *)
Definition neg (x : number) : number :=
  match x with
  | Fin a => Fin (- a)%Qc
  | NaN => NaN
  | PosInf => NegInf
  | NegInf => PosInf
  end.

(** [x - y] *)
Definition sub (x y : number) : number := add x (neg y).

Arguments add : simpl never.
Arguments sub : simpl never.
Arguments binary64 : simpl never.
Arguments of_grid : simpl never.
Arguments round53 : simpl never.

(** ** Errors

    [new Error(message)]: the message of a template literal is kept as its
    fragments, so that an interpolated number stays a number. *)

Inductive fragment : Type :=
| Text (s : string)
| Interp (n : number).

Record Error : Type := new_Error { message : list fragment }.

#[global] Instance fragment_eq_dec : EqDecision fragment.
Proof. solve_decision. Defined.
#[global] Instance Error_eq_dec : EqDecision Error.
Proof. solve_decision. Defined.

(** ** [point.model]: records of the ledger *)

Record UserPoint : Type :=
  mkUserPoint { id : number; point : number; updateMillis : number }.

Inductive TransactionType : Type := CHARGE | USE.

Record PointHistory : Type :=
  mkPointHistory {
    h_id : number;
    userId : number;
    amount : number;
    type : TransactionType;
    timeMillis : number }.

#[global] Instance UserPoint_eq_dec : EqDecision UserPoint.
Proof. solve_decision. Defined.
#[global] Instance TransactionType_eq_dec : EqDecision TransactionType.
Proof. solve_decision. Defined.
#[global] Instance PointHistory_eq_dec : EqDecision PointHistory.
Proof. solve_decision. Defined.

(** ** Operations of an [async] method *)

(** A [Mutex] object, by identity: its index among the objects created. *)
Definition Mutex : Type := nat.

(** The settlement of a promise (for a synchronous operation: its value,
    or the exception it throws). *)
Inductive settled (X : Type) : Type :=
| fulfilled (x : X)
| rejected (e : Error).
Arguments fulfilled {X} x.
Arguments rejected {X} e.

Inductive op : Type -> Type :=
(* this.locks : Map<number, Mutex> *)
| LocksHas (k : number) : op bool
| LocksSet (k : number) (m : Mutex) : op unit
| LocksGet (k : number) : op (option Mutex)
| NewMutex : op Mutex
| DateNow : op number
(* the lock of a Mutex *)
| Acquire (m : Mutex) : op unit
| Release (m : Mutex) : op unit
(* this.userDb : UserPointTable *)
| SelectById (i : number) : op UserPoint
| InsertOrUpdate (i : number) (p : number) : op UserPoint
(* this.historyDb : PointHistoryTable *)
| SelectAllByUserId (u : number) : op (list PointHistory)
| Insert (u : number) (a : number) (t : TransactionType) (ms : number)
    : op PointHistory.

(** The operations whose result is a promise the caller awaits. *)
Definition is_async {X} (o : op X) : bool :=
  match o with
  | Acquire _ | SelectById _ | InsertOrUpdate _ _
  | SelectAllByUserId _ | Insert _ _ _ _ => true
  | _ => false
  end.

Inductive prog (A : Type) : Type :=
| Ret (a : A)
| Throw (e : Error)
| Vis {X : Type} (o : op X) (k : settled X -> prog A).
Arguments Ret {A} a.
Arguments Throw {A} e.
Arguments Vis {A X} o k.

Fixpoint bind {A B} (p : prog A) (f : A -> prog B) : prog B :=
  match p with
  | Ret a => f a
  | Throw e => Throw e
  | Vis o k => Vis o (fun r => bind (k r) f)
  end.

#[global] Instance prog_ret : MRet prog := @Ret.
#[global] Instance prog_bind : MBind prog := fun A B f p => bind p f.
#[global] Instance prog_fmap : FMap prog :=
  fun A B f p => bind p (fun a => Ret (f a)).

(** [try { p } finally { f }] *)
Fixpoint finally {A} (p : prog A) (f : prog unit) : prog A :=
  match p with
  | Ret a => bind f (fun _ => Ret a)
  | Throw e => bind f (fun _ => Throw e)
  | Vis o k => Vis o (fun r => finally (k r) f)
  end.

(** Performing an operation; a rejection is thrown at the caller. *)
Definition perform {X} (o : op X) : prog X :=
  Vis o (fun r => match r with fulfilled x => Ret x | rejected e => Throw e end).

Abbreviation await := perform (only parsing).

(** [throw new Error(msg)] *)
Definition throw {A} (msg : list fragment) : prog A := Throw (new_Error msg).

#[global] Instance prog_inhabited {A} : Inhabited (prog A) :=
  populate (Throw (new_Error [])).

(** ** The service's collaborators *)

(** [UserPointTable] and [PointHistoryTable] are injected into the service
    (the unit tests inject stubs): an implementation over a state [S].
    Each operation receives the clock and may reject. *)
Record Collaborators (S : Type) : Type :=
  mkCollaborators {
    userDb_selectById : Z -> number -> S -> settled UserPoint * S;
    userDb_insertOrUpdate : Z -> number -> number -> S -> settled UserPoint * S;
    historyDb_selectAllByUserId :
      Z -> number -> S -> settled (list PointHistory) * S;
    historyDb_insert :
      Z -> number -> number -> TransactionType -> number -> S ->
      settled PointHistory * S }.
Arguments userDb_selectById {S} _ _ _ _.
Arguments userDb_insertOrUpdate {S} _ _ _ _ _.
Arguments historyDb_selectAllByUserId {S} _ _ _ _.
Arguments historyDb_insert {S} _ _ _ _ _ _ _.

(** The two tables, as one state. *)
Record Tables : Type :=
  mkTables {
    userTable : gmap number UserPoint;
    historyTable : list PointHistory }.

(** Modelled from the spec: [UserPointTable] (src/database/userpoint.table
    is not among the sources).  [selectById] returns the stored record, or
    a zero-balance default if absent, and never fails for an unknown id;
    [insertOrUpdate] is an upsert: a single replace keyed by the user id. *)
Definition table_selectById (now : Z) (i : number) (t : Tables)
  : settled UserPoint * Tables :=
  (fulfilled (default (mkUserPoint i (Int 0) (Int now)) (userTable t !! i)), t).

Definition table_insertOrUpdate (now : Z) (i p : number) (t : Tables)
  : settled UserPoint * Tables :=
  let userPoint := mkUserPoint i p (Int now) in
  (fulfilled userPoint,
   mkTables (<[i := userPoint]> (userTable t)) (historyTable t)).

(** Modelled from the spec: [PointHistoryTable]
    (src/database/pointhistory.table is not among the sources).  The table
    is append-only and ordered by insertion; a record's identifier is its
    position, hence unique; [selectAllByUserId] returns the user's records
    in that order. *)
Definition table_selectAllByUserId (now : Z) (u : number) (t : Tables)
  : settled (list PointHistory) * Tables :=
  (fulfilled (filter (fun h => userId h = u) (historyTable t)), t).

Definition table_insert (now : Z) (u a : number) (ty : TransactionType)
    (ms : number) (t : Tables) : settled PointHistory * Tables :=
  let history :=
    mkPointHistory (Int (Z.of_nat (length (historyTable t)) + 1)) u a ty ms in
  (fulfilled history, mkTables (userTable t) (historyTable t ++ [history])).

Definition tables : Collaborators Tables :=
  mkCollaborators Tables
    table_selectById table_insertOrUpdate table_selectAllByUserId table_insert.

(** ** The state the calls run in *)

Record World (S : Type) : Type :=
  mkWorld {
    locks : gmap number Mutex;   (* PointService.locks *)
    mutexes : list bool;         (* the Mutex objects created: locked? *)
    db : S;                      (* the collaborators' state *)
    now : Z }.                   (* the clock read by Date.now() *)
Arguments mkWorld {S} _ _ _ _.
Arguments locks {S} _.
Arguments mutexes {S} _.
Arguments db {S} _.
Arguments now {S} _.

Definition locked {S} (m : Mutex) (w : World S) : bool :=
  bool_decide (mutexes w !! m = Some true).

Definition set_mutex {S} (m : Mutex) (b : bool) (w : World S) : World S :=
  mkWorld (locks w) (<[m := b]> (mutexes w)) (db w) (now w).

Definition set_db {S} (d : S) (w : World S) : World S :=
  mkWorld (locks w) (mutexes w) d (now w).

Definition on_db {S X} (f : S -> settled X * S) (w : World S)
  : settled X * World S :=
  let '(r, d) := f (db w) in (r, set_db d w).

Section Semantics.
Context {S : Type} (C : Collaborators S).

(** Modelled from the spec: the lock of a [Mutex] (the async-mutex
    package).  Acquisition does not fail; it waits until the prior
    holder, if any, has released. *)
Definition enabled {X} (o : op X) (w : World S) : bool :=
  match o with
  | Acquire m => negb (locked m w)
  | _ => true
  end.

Definition handle {X} (o : op X) (w : World S) : settled X * World S :=
  match o in op X return settled X * World S with
  | LocksHas k => (fulfilled (bool_decide (is_Some (locks w !! k))), w)
  | LocksSet k m =>
      (fulfilled tt, mkWorld (<[k := m]> (locks w)) (mutexes w) (db w) (now w))
  | LocksGet k => (fulfilled (locks w !! k), w)
  | NewMutex =>
      (fulfilled (length (mutexes w)),
       mkWorld (locks w) (mutexes w ++ [false]) (db w) (now w))
  | DateNow => (fulfilled (Int (now w)), w)
  | Acquire m => (fulfilled tt, set_mutex m true w)
  | Release m => (fulfilled tt, set_mutex m false w)
  | SelectById i => on_db (userDb_selectById C (now w) i) w
  | InsertOrUpdate i p => on_db (userDb_insertOrUpdate C (now w) i p) w
  | SelectAllByUserId u => on_db (historyDb_selectAllByUserId C (now w) u) w
  | Insert u a t ms => on_db (historyDb_insert C (now w) u a t ms) w
  end.

(** The state of the promise of a call; it stays pending when the call
    waits for a lock that is held. *)
Inductive outcome (A : Type) : Type :=
| Fulfilled (a : A)
| Rejected (e : Error)
| Pending.

(** One call, run to completion with nothing interleaved. *)
Fixpoint run {A} (p : prog A) (w : World S) : outcome A * World S :=
  match p with
  | Ret a => (Fulfilled A a, w)
  | Throw e => (Rejected A e, w)
  | Vis o k =>
      if enabled o w then let '(r, w') := handle o w in run (k r) w'
      else (Pending A, w)
  end.

(** The synchronous prefix of a call: up to its next suspension point. *)
Fixpoint advance {A} (p : prog A) (w : World S) : prog A * World S :=
  match p with
  | Vis o k =>
      if is_async o then (p, w)
      else let '(r, w') := handle o w in advance (k r) w'
  | _ => (p, w)
  end.

(** One turn of the event loop on a pool of calls: the awaited operation
    of call [i] settles and the call runs to its next suspension point. *)
Definition turn {A} (i : nat) (c : World S * list (prog A))
  : option (World S * list (prog A)) :=
  let '(w, ts) := c in
  match ts !! i with
  | Some (Vis o k) =>
      if enabled o w then
        let '(r, w1) := handle o w in
        let '(p, w2) := advance (k r) w1 in
        Some (w2, <[i := p]> ts)
      else None
  | _ => None
  end.

(** The event loop gives the next turn to any call that can take one. *)
Definition step {A} (c c' : World S * list (prog A)) : Prop :=
  exists i, turn i c = Some c'.

Definition settled_call {A} (p : prog A) : option (outcome A) :=
  match p with
  | Ret a => Some (Fulfilled A a)
  | Throw e => Some (Rejected A e)
  | Vis _ _ => None
  end.
End Semantics.
Arguments Fulfilled {A} a.
Arguments Rejected {A} e.
Arguments Pending {A}.

(** ** [PointService] *)

Section PointService.
(* private readonly chargeLimit: number = Number(config.get("CHARGE_LIMIT", "100000")) *)
Variable chargeLimit : number.

Definition getMutexForUser (userId : number) : prog (option Mutex) :=
  has ← perform (LocksHas userId);
  (if negb has then
     mutex ← perform NewMutex;
     perform (LocksSet userId mutex)
   else mret tt);;
  perform (LocksGet userId).

(** Modelled from the spec: [Mutex.runExclusive] (the async-mutex package)
    acquires the lock, runs the callback, and releases the lock whether the
    callback returns or throws. *)
Definition runExclusive {A} (mutex : option Mutex) (callback : prog A) : prog A :=
  match mutex with
  | None =>
      throw [Text "Cannot read properties of undefined (reading 'runExclusive')"]
  | Some m =>
      await (Acquire m);;
      finally callback (perform (Release m))
  end.

(** [!Number.isInteger(n) || n <= 0], the guard on every argument. *)
Definition invalid (n : number) : bool :=
  negb (Number_isInteger n) || leb n (Int 0).

Definition getPoint (userId : number) : prog UserPoint :=
  if invalid userId then throw [Text "올바르지 않은 ID 값 입니다."]
  else await (SelectById userId).

Definition getHistories (userId : number) : prog (list PointHistory) :=
  if invalid userId then throw [Text "올바르지 않은 ID 값 입니다."]
  else await (SelectAllByUserId userId).

(** The callback of [chargePoint]; it returns the [updatedPoint] it assigns. *)
Definition charge_section (userId amount : number) : prog number :=
  userPoint ← await (SelectById userId);
  let updatedPoint := add (point userPoint) amount in
  if gtb updatedPoint chargeLimit then
    throw [Text "충전할 수 있는 최대 포인트는 "; Interp chargeLimit; Text " 입니다."]
  else
    await (InsertOrUpdate userId updatedPoint);;
    ms ← perform DateNow;
    await (Insert userId amount CHARGE ms);;
    mret updatedPoint.

Definition chargePoint (userId amount : number) : prog UserPoint :=
  if invalid userId then throw [Text "올바르지 않은 ID 값 입니다."]
  else if invalid amount then
    throw [Text "충전할 포인트는 정수여야 하며 0보다 커야합니다."]
  else
    mutex ← getMutexForUser userId;
    updatedPoint ← runExclusive mutex (charge_section userId amount);
    ms ← perform DateNow;
    mret (mkUserPoint userId updatedPoint ms).

(** The callback of [usePoint]. *)
Definition use_section (userId amount : number) : prog number :=
  userPoint ← await (SelectById userId);
  let updatedPoint := sub (point userPoint) amount in
  if ltb updatedPoint (Int 0) then throw [Text "포인트가 부족합니다."]
  else
    await (InsertOrUpdate userId updatedPoint);;
    ms ← perform DateNow;
    await (Insert userId amount USE ms);;
    mret updatedPoint.

Definition usePoint (userId amount : number) : prog UserPoint :=
  if invalid userId then throw [Text "올바르지 않은 ID 값 입니다."]
  else if invalid amount then
    throw [Text "사용할 포인트는 정수여야 하며 0보다 커야합니다."]
  else
    mutex ← getMutexForUser userId;
    updatedPoint ← runExclusive mutex (use_section userId amount);
    ms ← perform DateNow;
    mret (mkUserPoint userId updatedPoint ms).

End PointService.

(** The earlier variant of the service, without the locks. *)
Module Unguarded.
Section PointService.
Variable chargeLimit : number.

Definition getPoint (userId : number) : prog UserPoint :=
  if invalid userId then throw [Text "올바르지 않은 ID 값 입니다."]
  else await (SelectById userId).

Definition getHistories (userId : number) : prog (list PointHistory) :=
  if invalid userId then throw [Text "올바르지 않은 ID 값 입니다."]
  else await (SelectAllByUserId userId).

Definition chargePoint (userId amount : number) : prog UserPoint :=
  if invalid userId then throw [Text "올바르지 않은 ID 값 입니다."]
  else if invalid amount then
    throw [Text "충전할 포인트는 정수여야 하며 0보다 커야합니다."]
  else
    userPoint ← await (SelectById userId);
    let updatedPoint := add (point userPoint) amount in
    if gtb updatedPoint chargeLimit then
      throw [Text "충전할 수 있는 최대 포인트는 "; Interp chargeLimit; Text " 입니다."]
    else
      await (InsertOrUpdate userId updatedPoint);;
      ms ← perform DateNow;
      await (Insert userId amount CHARGE ms);;
      ms' ← perform DateNow;
      mret (mkUserPoint userId updatedPoint ms').

Definition usePoint (userId amount : number) : prog UserPoint :=
  if invalid userId then throw [Text "올바르지 않은 ID 값 입니다."]
  else if invalid amount then
    throw [Text "사용할 포인트는 정수여야 하며 0보다 커야합니다."]
  else
    userPoint ← await (SelectById userId);
    let updatedPoint := sub (point userPoint) amount in
    if ltb updatedPoint (Int 0) then throw [Text "포인트가 부족합니다."]
    else
      await (InsertOrUpdate userId updatedPoint);;
      ms ← perform DateNow;
      await (Insert userId amount USE ms);;
      ms' ← perform DateNow;
      mret (mkUserPoint userId updatedPoint ms').

End PointService.
End Unguarded.

(** ** Requests to the service *)

Inductive request : Type :=
| GetPoint (userId : number)
| GetHistories (userId : number)
| ChargePoint (userId amount : number)
| UsePoint (userId amount : number).

Inductive response : Type :=
| Point (p : UserPoint)
| Histories (l : list PointHistory).

Definition call (chargeLimit : number) (r : request) : prog response :=
  match r with
  | GetPoint u => Point <$> getPoint u
  | GetHistories u => Histories <$> getHistories u
  | ChargePoint u a => Point <$> chargePoint chargeLimit u a
  | UsePoint u a => Point <$> usePoint u a
  end.

Definition call_unguarded (chargeLimit : number) (r : request) : prog response :=
  match r with
  | GetPoint u => Point <$> Unguarded.getPoint u
  | GetHistories u => Histories <$> Unguarded.getHistories u
  | ChargePoint u a => Point <$> Unguarded.chargePoint chargeLimit u a
  | UsePoint u a => Point <$> Unguarded.usePoint u a
  end.

(** Requests made one after the other, each awaited before the next. *)
Fixpoint run_seq {S} (C : Collaborators S) (chargeLimit : number)
    (rs : list request) (w : World S) : list (outcome response) * World S :=
  match rs with
  | [] => ([], w)
  | r :: rs' =>
      let '(o, w1) := run C (call chargeLimit r) w in
      let '(os, w2) := run_seq C chargeLimit rs' w1 in
      (o :: os, w2)
  end.

(** ** Vocabulary of the specification *)

Definition positive_integer (n : number) : Prop :=
  exists z : Z, 0 < z /\ n = Int z.

(** The error kinds, by the messages the service throws. *)
Definition InvalidArgument (e : Error) : Prop :=
  e = new_Error [Text "올바르지 않은 ID 값 입니다."]
  \/ e = new_Error [Text "충전할 포인트는 정수여야 하며 0보다 커야합니다."]
  \/ e = new_Error [Text "사용할 포인트는 정수여야 하며 0보다 커야합니다."].

Definition LimitExceeded (chargeLimit : number) : Error :=
  new_Error [Text "충전할 수 있는 최대 포인트는 "; Interp chargeLimit; Text " 입니다."].

Definition InsufficientPoint : Error := new_Error [Text "포인트가 부족합니다."].

(** The balance of a user: the point [selectById] reports. *)
Definition balance (u : number) (t : Tables) : number :=
  from_option point (Int 0) (userTable t !! u).

(** The lock of user [u] is not held. *)
Definition free {S} (u : number) (w : World S) : Prop :=
  forall m, locks w !! u = Some m -> locked m w = false.

(** No lock is held, and the registry refers to objects that exist. *)
Definition quiet {S} (w : World S) : Prop :=
  (forall k m, locks w !! k = Some m -> (m < length (mutexes w))%nat)
  /\ (forall m, locked m w = false).

(** [0 <= v] and [v <= chargeLimit] *)
Definition in_range (chargeLimit v : number) : bool :=
  leb (Int 0) v && leb v chargeLimit.

(** A call is in its critical section when it awaits one of the tables. *)
Definition in_critical_section {A} (p : prog A) : bool :=
  match p with
  | Vis (SelectById _) _ | Vis (InsertOrUpdate _ _) _
  | Vis (SelectAllByUserId _) _ | Vis (Insert _ _ _ _) _ => true
  | _ => false
  end.

Definition is_settled {A} (p : prog A) : bool :=
  match p with Vis _ _ => false | _ => true end.

(** A history-table whose [insert] behaves as [ins]. *)
Definition with_history_insert
    (ins : Z -> number -> number -> TransactionType -> number -> Tables ->
           settled PointHistory * Tables) : Collaborators Tables :=
  mkCollaborators Tables
    table_selectById table_insertOrUpdate table_selectAllByUserId ins.

(** ** Calls that use only the tables and the clock *)

Definition lockless_op {X} (o : op X) : bool :=
  match o with
  | DateNow | SelectById _ | InsertOrUpdate _ _
  | SelectAllByUserId _ | Insert _ _ _ _ => true
  | _ => false
  end.

Fixpoint lockless {A} (p : prog A) : Prop :=
  match p with
  | Vis o k => lockless_op o = true /\ forall r, lockless (k r)
  | _ => True
  end.

(** What a lockless call does to the collaborators' state [d] at time [n]. *)
Definition exec {S A} (C : Collaborators S) (p : prog A) (d : S) (n : Z)
  : outcome A * S :=
  let '(o, w) := run C p (mkWorld ∅ [] d n) in (o, db w).

(** The state after [getMutexForUser u]. *)
Definition registered {S} (u : number) (w : World S) : World S :=
  match locks w !! u with
  | Some _ => w
  | None =>
      mkWorld (<[u := length (mutexes w)]> (locks w)) (mutexes w ++ [false])
        (db w) (now w)
  end.

(** The promise of a method that returns the record built from the
    [updatedPoint] of its callback. *)
Definition returned (u : number) (n : Z) (o : outcome number) : outcome UserPoint :=
  match o with
  | Fulfilled v => Fulfilled (mkUserPoint u v (Int n))
  | Rejected e => Rejected e
  | Pending => Pending
  end.

Definition outcome_map {A B} (f : A -> B) (o : outcome A) : outcome B :=
  match o with
  | Fulfilled a => Fulfilled (f a)
  | Rejected e => Rejected e
  | Pending => Pending
  end.

(** The Mutex object that [getMutexForUser u] returns. *)
Definition mutex_for {S} (u : number) (w : World S) : Mutex :=
  default (length (mutexes w)) (locks w !! u).

(** The tables after a committed charge or use of [a] that leaves [v]. *)
Definition committed (u a v : number) (ty : TransactionType) (n : Z)
    (t : Tables) : Tables :=
  mkTables
    (<[u := mkUserPoint u v (Int n)]> (userTable t))
    (historyTable t ++
       [mkPointHistory (Int (Z.of_nat (length (historyTable t)) + 1)) u a ty (Int n)]).

(** The service when it is constructed, over empty tables. *)
Definition initial : World Tables := mkWorld ∅ [] (mkTables ∅ []) 0.

(** No lock is held. *)
Definition idle {S} (w : World S) : Prop := forall m, locked m w = false.

(** A call that throws [e] before it performs any operation: whatever the
    collaborators and the state, it is rejected and the state is untouched. *)
Definition fails_at_once {A} (p : prog A) (e : Error) : Prop :=
  p = Throw e /\
  forall S (C : Collaborators S) (w : World S), run C p w = (Rejected e, w).

(** ** Program points of a guarded call *)

(** After the callback: [return { id: userId, point: updatedPoint,
    updateMillis: Date.now() }]. *)
Definition tail (u v : number) : prog UserPoint :=
  ms ← perform DateNow;
  mret (mkUserPoint u v ms).

(** A call of [chargePoint] or [usePoint] that waits for the lock [m]. *)
Definition guarded (m : Mutex) (callback : prog number) (u : number)
  : prog response :=
  Point <$> (v ← runExclusive (Some m) callback; tail u v).

(** The same call holding the lock, [b] being what is left of its callback. *)
Definition holding (m : Mutex) (b : prog number) (u : number) : prog response :=
  Point <$> (v ← finally b (perform (Release m)); tail u v).

(** A call is parked when it is settled or at a suspension point. *)
Definition parked {A} (p : prog A) : bool :=
  match p with
  | Vis o _ => is_async o
  | _ => true
  end.

(** Calls that do not touch the registry [this.locks]. *)
Definition registry_op {X} (o : op X) : bool :=
  match o with
  | LocksHas _ | LocksSet _ _ | LocksGet _ | NewMutex => true
  | _ => false
  end.

Fixpoint registry_free {A} (p : prog A) : Prop :=
  match p with
  | Vis o k => registry_op o = false /\ forall r, registry_free (k r)
  | _ => True
  end.

(** The callback of a request, and the validity of its arguments. *)
Definition section_of (chargeLimit : number) (r : request) : prog number :=
  match r with
  | ChargePoint u a => charge_section chargeLimit u a
  | UsePoint u a => use_section u a
  | _ => Ret NaN
  end.

Definition valid (r : request) : bool :=
  match r with
  | GetPoint u | GetHistories u => negb (invalid u)
  | ChargePoint u a | UsePoint u a => negb (invalid u) && negb (invalid a)
  end.

(** [r] is a [chargePoint] or a [usePoint] of user [u]. *)
Definition mutation_of (u : number) (r : request) : Prop :=
  exists a, r = ChargePoint u a \/ r = UsePoint u a.

#[global] Instance request_inhabited : Inhabited request := populate (GetPoint NaN).

(** The requests at the positions [order]. *)
Definition pick (reqs : list request) (order : list nat) : list request :=
  (fun i => reqs !!! i) <$> order.

(** ** The invariant of a pool of calls on one user

    [order] lists the calls that have left their critical section, in the
    order in which they entered it; [hold] is the call inside its critical
    section, if any.  The calls of [order] are settled as the same requests
    made one after the other settle; the call inside has left to do on the
    tables what its whole callback does after those; every other call has
    not started or waits for the user's lock. *)
Record serial_inv {S} (C : Collaborators S) (L u : number)
    (reqs : list request) (w0 : World S) (order : list nat)
    (hold : option nat) (w : World S) (ts : list (prog response)) : Prop :=
  mk_serial_inv {
    inv_len : length ts = length reqs;
    inv_now : now w = now w0;
    inv_wf : forall k m, locks w !! k = Some m -> (m < length (mutexes w))%nat;
    inv_nodup : NoDup order;
    inv_hold : forall h, hold = Some h -> (h ∉ order) /\ (h < length reqs)%nat;
    inv_done :
      Forall2
        (fun i o =>
           (i < length reqs)%nat /\ valid (reqs !!! i) = true /\
           exists p, ts !! i = Some p /\ settled_call p = Some o)
        order (fst (run_seq C L (pick reqs order) w0));
    inv_free :
      hold = None ->
      db w = db (snd (run_seq C L (pick reqs order) w0)) /\ free u w;
    inv_rest :
      forall i r, reqs !! i = Some r -> i ∉ order ->
      if decide (hold = Some i) then
        valid r = true /\
        exists m b,
          ts !! i = Some (holding m b u) /\ locks w !! u = Some m
          /\ locked m w = true
          /\ lockless b /\ parked b = true /\ is_settled b = false
          /\ exec C b (db w) (now w)
             = exec C (section_of L r)
                 (db (snd (run_seq C L (pick reqs order) w0))) (now w)
      else
        ts !! i = Some (call L r)
        \/ (valid r = true /\
            exists m, ts !! i = Some (guarded m (section_of L r) u)
                      /\ locks w !! u = Some m) }.

(** The calls of a pool that are not settled yet. *)
Definition unsettled {A} (ts : list (prog A)) : nat :=
  length (filter (fun p => is_settled p = false) ts).

(** ** Calls that keep a user's balance in range

    A call is range-safe for user [u] when every balance it writes for [u]
    is in range, provided every balance it has read for [u] was. *)
Definition writes_in_range (L u : number) {X} (o : op X) : Prop :=
  match o with
  | InsertOrUpdate i v => i = u -> in_range L v = true
  | _ => True
  end.

Definition reads_in_range (L u : number) {X} (o : op X) : settled X -> Prop :=
  match o in op X return settled X -> Prop with
  | SelectById i =>
      fun r =>
        match r with
        | fulfilled up => i = u -> in_range L (point up) = true
        | rejected _ => True
        end
  | _ => fun _ => True
  end.

Fixpoint range_safe (L u : number) {A} (p : prog A) : Prop :=
  match p with
  | Vis o k =>
      writes_in_range L u o
      /\ forall r, reads_in_range L u o r -> range_safe L u (k r)
  | _ => True
  end.

(** What is in the promise of a call. *)
Definition outcome_of {A} (p : prog A) : outcome A :=
  match p with
  | Ret a => Fulfilled a
  | Throw e => Rejected e
  | Vis _ _ => Pending
  end.

Definition is_fulfilled {A} (o : outcome A) : bool :=
  match o with Fulfilled _ => true | _ => false end.

Definition is_rejected_with {A} (e : Error) (o : outcome A) : bool :=
  match o with Rejected e' => bool_decide (e' = e) | _ => false end.

(** The turns of the calls [sched], one after the other. *)
Fixpoint schedule {S A} (C : Collaborators S) (sched : list nat)
    (c : World S * list (prog A)) : option (World S * list (prog A)) :=
  match sched with
  | [] => Some c
  | i :: sched' =>
      match turn C i c with
      | Some c' => schedule C sched' c'
      | None => None
      end
  end.

(** A call of the pool either has not started or has left the registry
    behind: the only operations on [this.locks] are in the first turn. *)
Definition past_registry (L : number) (p : prog response) : Prop :=
  registry_free p
  \/ exists u r, mutation_of u r /\ valid r = true /\ p = call L r.

(** ** Vocabulary of the further properties *)

Definition user_of (r : request) : number :=
  match r with
  | GetPoint u | GetHistories u | ChargePoint u _ | UsePoint u _ => u
  end.

(** [r] only reads: [getPoint] or [getHistories]. *)
Definition is_read (r : request) : bool :=
  match r with
  | GetPoint _ | GetHistories _ => true
  | _ => false
  end.

(** The history records of user [u], in insertion order. *)
Definition histories_of (u : number) (t : Tables) : list PointHistory :=
  filter (fun h => userId h = u) (historyTable t).

(** The balance that replaying a history gives user [u]: every [CHARGE]
    of [u] added, every [USE] of [u] subtracted, in order, from 0, with
    the [+] and [-] of the service. *)
Definition replay (u : number) (h : list PointHistory) : number :=
  fold_left
    (fun acc r =>
       if decide (userId r = u) then
         match type r with
         | CHARGE => add acc (amount r)
         | USE => sub acc (amount r)
         end
       else acc)
    h (Int 0).

(** The balance of [u] is what its history says. *)
Definition consistent (u : number) (t : Tables) : Prop :=
  balance u t = replay u (historyTable t).

(** Distinct user ids have distinct Mutex objects. *)
Definition registry_injective {S} (w : World S) : Prop :=
  forall u1 u2 m, locks w !! u1 = Some m -> locks w !! u2 = Some m -> u1 = u2.

(** Every Mutex of the registry is one that was created. *)
Definition registry_bounded {S} (w : World S) : Prop :=
  forall k m, locks w !! k = Some m -> (m < length (mutexes w))%nat.

(** ** Pools of calls of any methods and users *)

(** Where a call of a pool stands. *)
Inductive stage : Type :=
| Fresh                  (* it has not had a turn *)
| Waiting (m : Mutex)    (* it waits for the lock [m] *)
| Holding (m : Mutex)    (* it holds the lock [m] *)
| Done.                  (* it is settled *)

Definition at_stage {S} (L : number) (w : World S) (r : request) (s : stage)
    (p : prog response) : Prop :=
  match s with
  | Fresh => p = call L r
  | Waiting m =>
      is_read r = false /\ valid r = true /\ locks w !! user_of r = Some m
      /\ p = guarded m (section_of L r) (user_of r)
  | Holding m =>
      is_read r = false /\ valid r = true /\ locks w !! user_of r = Some m
      /\ exists b, p = holding m b (user_of r)
                   /\ lockless b /\ parked b = true /\ is_settled b = false
  | Done => is_settled p = true
  end.

(** A Mutex is locked exactly when one call holds it, and then only one. *)
Definition locks_agree {S} (w : World S) (ss : list stage) : Prop :=
  (forall m, locked m w = true -> exists i, ss !! i = Some (Holding m))
  /\ (forall i m, ss !! i = Some (Holding m) -> locked m w = true)
  /\ (forall i j m,
        ss !! i = Some (Holding m) -> ss !! j = Some (Holding m) -> i = j).

Record pool_inv {S} (L : number) (reqs : list request) (w : World S)
    (ts : list (prog response)) (ss : list stage) : Prop :=
  mkPoolInv {
    pool_len : length ts = length reqs;
    pool_stages : length ss = length reqs;
    pool_bounded : registry_bounded w;
    pool_at :
      forall i r s p,
        reqs !! i = Some r -> ss !! i = Some s -> ts !! i = Some p ->
        at_stage L w r s p;
    pool_agree : locks_agree w ss }.

(** * Properties *)

(** ** Numbers *)

Lemma Number_isInteger_Int z : Number_isInteger (Int z) = true.
Proof. reflexivity. Qed.

Lemma Number_isInteger_inv n :
  Number_isInteger n = true -> exists z, n = Int z.
Proof.
  destruct n as [q| | |]; simpl; try discriminate.
  intros H%bool_decide_eq_true. exists (Qnum (this q)).
  unfold Int. f_equal. apply Qc_is_canon. simpl.
  destruct q as [[n d] Hc]; simpl in *. subst d. reflexivity.
Qed.

Lemma ltb_Int a b : ltb (Int a) (Int b) = bool_decide (a < b).
Proof.
  unfold ltb, Int. apply bool_decide_ext. symmetry. apply Z2Qc_inj_lt.
Qed.

Lemma leb_Int a b : leb (Int a) (Int b) = bool_decide (a <= b).
Proof.
  unfold leb, Int. fold (Int a) (Int b). rewrite ltb_Int.
  rewrite <- bool_decide_not. apply bool_decide_ext. lia.
Qed.

Lemma invalid_Int z : invalid (Int z) = bool_decide (z <= 0).
Proof. unfold invalid. now rewrite Number_isInteger_Int, leb_Int. Qed.

Lemma invalid_false n : invalid n = false <-> positive_integer n.
Proof.
  split.
  - unfold invalid. intros [Hi Hl]%orb_false_elim.
    apply negb_false_iff, Number_isInteger_inv in Hi as [z ->].
    rewrite leb_Int in Hl. apply bool_decide_eq_false in Hl.
    exists z. split; [lia | reflexivity].
  - intros (z & Hz & ->). rewrite invalid_Int.
    apply bool_decide_eq_false. lia.
Qed.

Lemma invalid_true n : invalid n = true <-> ~ positive_integer n.
Proof.
  rewrite <- invalid_false. destruct (invalid n); split; congruence.
Qed.

Lemma leb_gtb x y : leb x y = true -> gtb x y = false.
Proof.
  unfold gtb. destruct x, y; simpl; try discriminate; try reflexivity;
    apply negb_true_iff.
Qed.

Lemma gtb_leb x y : x <> NaN -> y <> NaN -> gtb x y = false -> leb x y = true.
Proof.
  unfold gtb. destruct x, y; simpl; try congruence; intros _ _ ->; reflexivity.
Qed.

Lemma leb_not_NaN_l x y : leb x y = true -> x <> NaN.
Proof. destruct x; simpl; congruence. Qed.

Lemma ltb_false_leb x y : x <> NaN -> y <> NaN -> ltb x y = false -> leb y x = true.
Proof. intros Hx Hy H. apply gtb_leb; assumption. Qed.

(** *** Rounding to binary64 *)

Lemma rne_bounds n j : 0 <= j -> n / 2 ^ j <= rne n j <= n / 2 ^ j + 1.
Proof.
  intros Hj. unfold rne. cbv zeta.
  destruct (2 * (n mod 2 ^ j) <? 2 ^ j); [lia|].
  destruct (2 ^ j <? 2 * (n mod 2 ^ j)); [lia|].
  destruct (Z.even (n / 2 ^ j)); lia.
Qed.

Lemma rne_mono n n' j : 0 <= j -> n <= n' -> rne n j <= rne n' j.
Proof.
  intros Hj Hn.
  assert (Hd : 0 < 2 ^ j) by (apply Z.pow_pos_nonneg; lia).
  pose proof (Z.div_le_mono n n' (2 ^ j) Hd Hn) as Hf.
  destruct (Z.eq_dec (n / 2 ^ j) (n' / 2 ^ j)) as [Heq|Hne].
  - pose proof (Z.div_mod n (2 ^ j) ltac:(lia)) as E.
    pose proof (Z.div_mod n' (2 ^ j) ltac:(lia)) as E'.
    assert (Hr : n mod 2 ^ j <= n' mod 2 ^ j) by (rewrite Heq in E; lia).
    unfold rne. cbv zeta. rewrite <- Heq.
    destruct (Z.ltb_spec (2 * (n mod 2 ^ j)) (2 ^ j)),
      (Z.ltb_spec (2 * (n' mod 2 ^ j)) (2 ^ j)),
      (Z.ltb_spec (2 ^ j) (2 * (n mod 2 ^ j))),
      (Z.ltb_spec (2 ^ j) (2 * (n' mod 2 ^ j)));
      destruct (Z.even (n / 2 ^ j)); lia.
  - pose proof (rne_bounds n j Hj). pose proof (rne_bounds n' j Hj). lia.
Qed.

Lemma rne_exact n j : 0 <= j -> n mod 2 ^ j = 0 -> rne n j * 2 ^ j = n.
Proof.
  intros Hj Hr.
  assert (Hd : 0 < 2 ^ j) by (apply Z.pow_pos_nonneg; lia).
  unfold rne. cbv zeta. rewrite Hr.
  destruct (Z.ltb_spec (2 * 0) (2 ^ j)); [|lia].
  pose proof (Z.div_mod n (2 ^ j) ltac:(lia)). lia.
Qed.

Lemma ulp_exp_nonneg x : 0 <= ulp_exp x.
Proof. unfold ulp_exp. lia. Qed.

Lemma ulp_exp_mono x y : 0 <= x <= y -> ulp_exp x <= ulp_exp y.
Proof.
  intros H. unfold ulp_exp. rewrite !Z.abs_eq by lia.
  pose proof (Z.log2_le_mono x y ltac:(lia)). lia.
Qed.

Lemma round53_nonneg_eq x :
  0 <= x -> round53 x = rne x (ulp_exp x) * 2 ^ ulp_exp x.
Proof.
  intros Hx. unfold round53. rewrite Z.abs_eq by lia.
  destruct (Z.eq_dec x 0) as [->|Hne].
  - reflexivity.
  - rewrite Z.sgn_pos by lia. lia.
Qed.

Lemma round53_opp x : round53 (- x) = - round53 x.
Proof.
  unfold round53, ulp_exp. rewrite Z.sgn_opp, Z.abs_opp. lia.
Qed.

Lemma round53_nonneg x : 0 <= x -> 0 <= round53 x.
Proof.
  intros Hx. rewrite round53_nonneg_eq by exact Hx.
  pose proof (ulp_exp_nonneg x) as Hj.
  pose proof (rne_bounds x (ulp_exp x) Hj).
  assert (0 < 2 ^ ulp_exp x) by (apply Z.pow_pos_nonneg; lia).
  assert (0 <= x / 2 ^ ulp_exp x) by (apply Z.div_pos; lia).
  nia.
Qed.

(** Below its unit in the last place a positive number has at most 53
    bits, and at least 53 when the unit is not the smallest one. *)
Lemma round53_upper x :
  0 <= x -> round53 x <= 2 ^ (ulp_exp x + 53).
Proof.
  intros Hx. rewrite round53_nonneg_eq by exact Hx.
  pose proof (ulp_exp_nonneg x) as Hj.
  set (j := ulp_exp x) in *.
  assert (Hd : 0 < 2 ^ j) by (apply Z.pow_pos_nonneg; lia).
  rewrite Z.pow_add_r by lia.
  assert (Hx53 : x < 2 ^ j * 2 ^ 53).
  { destruct (Z.eq_dec x 0) as [->|Hne]; [nia|].
    pose proof (Z.log2_spec x ltac:(lia)) as [_ Hlt].
    assert (Z.succ (Z.log2 x) <= j + 53).
    { unfold j, ulp_exp. rewrite Z.abs_eq by lia. lia. }
    pose proof (Z.pow_le_mono_r 2 _ _ ltac:(lia) H) as Hp.
    rewrite Z.pow_add_r in Hp by lia. lia. }
  assert (Hf : x / 2 ^ j < 2 ^ 53).
  { apply Z.div_lt_upper_bound; lia. }
  pose proof (rne_bounds x j Hj). nia.
Qed.

Lemma round53_lower x :
  0 <= x -> 0 < ulp_exp x -> 2 ^ (ulp_exp x + 52) <= round53 x.
Proof.
  intros Hx Hpos. rewrite round53_nonneg_eq by exact Hx.
  set (j := ulp_exp x) in *.
  assert (Hd : 0 < 2 ^ j) by (apply Z.pow_pos_nonneg; lia).
  assert (Hj : j = Z.log2 x - 52).
  { unfold j, ulp_exp in *. rewrite Z.abs_eq in * by lia. lia. }
  assert (Hx0 : 0 < x).
  { destruct (Z.eq_dec x 0) as [->|]; [|lia]. simpl in Hj. lia. }
  pose proof (Z.log2_spec x Hx0) as [Hle _].
  replace (Z.log2 x) with (j + 52) in Hle by lia.
  rewrite Z.pow_add_r in * by lia.
  assert (Hf : 2 ^ 52 <= x / 2 ^ j).
  { apply Z.div_le_lower_bound; lia. }
  pose proof (rne_bounds x j ltac:(lia)). nia.
Qed.

Lemma round53_mono_nonneg x y : 0 <= x <= y -> round53 x <= round53 y.
Proof.
  intros Hxy.
  pose proof (ulp_exp_mono x y Hxy) as Hj.
  pose proof (ulp_exp_nonneg x) as Hjx.
  destruct (Z.eq_dec (ulp_exp x) (ulp_exp y)) as [Heq|Hne].
  - rewrite !round53_nonneg_eq by lia. rewrite <- Heq.
    assert (0 < 2 ^ ulp_exp x) by (apply Z.pow_pos_nonneg; lia).
    pose proof (rne_mono x y (ulp_exp x) Hjx ltac:(lia)). nia.
  - pose proof (round53_upper x ltac:(lia)) as Hu.
    pose proof (round53_lower y ltac:(lia) ltac:(lia)) as Hl.
    assert (ulp_exp x + 53 <= ulp_exp y + 52) by lia.
    pose proof (Z.pow_le_mono_r 2 _ _ ltac:(lia) H). lia.
Qed.

Lemma round53_mono x y : x <= y -> round53 x <= round53 y.
Proof.
  intros Hxy. destruct (Z.le_gt_cases 0 x) as [Hx|Hx].
  - apply round53_mono_nonneg. lia.
  - destruct (Z.le_gt_cases 0 y) as [Hy|Hy].
    + pose proof (round53_nonneg y Hy).
      pose proof (round53_nonneg (- x) ltac:(lia)) as Hn.
      rewrite round53_opp in Hn. lia.
    + pose proof (round53_mono_nonneg (- y) (- x) ltac:(lia)) as Hn.
      rewrite !round53_opp in Hn. lia.
Qed.

(** An integer of at most 53 bits, scaled by a power of two, is its own
    rounding. *)
Lemma round53_scaled z k :
  0 <= k -> Z.abs z < 2 ^ 53 -> round53 (z * 2 ^ k) = z * 2 ^ k.
Proof.
  intros Hk Hz.
  assert (Hgen : forall z, 0 <= z < 2 ^ 53 -> round53 (z * 2 ^ k) = z * 2 ^ k).
  { clear z Hz. intros z Hz.
    assert (Hp : 0 < 2 ^ k) by (apply Z.pow_pos_nonneg; lia).
    rewrite round53_nonneg_eq by nia.
    destruct (Z.eq_dec z 0) as [->|Hne]; [reflexivity|].
    apply rne_exact; [apply ulp_exp_nonneg|].
    unfold ulp_exp. rewrite Z.abs_eq by nia.
    rewrite Z.log2_mul_pow2 by lia.
    assert (Hl : Z.log2 z < 53) by (apply Z.log2_lt_pow2; lia).
    pose proof (Z.log2_nonneg z).
    destruct (Z.max_spec 0 (k + Z.log2 z - 52)) as [[Hm ->]|[Hm ->]].
    - replace (2 ^ k)
        with (2 ^ (k - (k + Z.log2 z - 52)) * 2 ^ (k + Z.log2 z - 52))
        by (rewrite <- Z.pow_add_r by lia; f_equal; lia).
      rewrite Z.mul_assoc. apply Z.mod_mul.
      apply Z.pow_nonzero; lia.
    - rewrite Z.pow_0_r. apply Z.mod_1_r. }
  destruct (Z.le_gt_cases 0 z) as [H0|H0].
  - apply Hgen. lia.
  - replace (z * 2 ^ k) with (- ((- z) * 2 ^ k)) by lia.
    rewrite round53_opp, Hgen by lia. reflexivity.
Qed.

(** *** Numbers on the grid *)

Lemma grid_eq : Z.pos grid = 2 ^ 1074.
Proof. reflexivity. Qed.

Lemma huge_eq : huge = 2 ^ 1024 * Z.pos grid.
Proof. reflexivity. Qed.

Lemma of_grid_not_NaN r : of_grid r <> NaN.
Proof.
  unfold of_grid. destruct (huge <=? r); [discriminate|].
  destruct (r <=? - huge); discriminate.
Qed.

Lemma Q2Qc_lt (x y : Q) : (Q2Qc x < Q2Qc y)%Qc <-> (x < y)%Q.
Proof. unfold Qclt. simpl. now rewrite !Qred_correct. Qed.

Lemma grid_lt r r' : (r # grid < r' # grid)%Q <-> r < r'.
Proof.
  unfold Qlt. simpl. split; intros H.
  - apply Z.mul_lt_mono_pos_r in H; [exact H | reflexivity].
  - apply Z.mul_lt_mono_pos_r; [reflexivity | exact H].
Qed.

Lemma of_grid_ltb r r' :
  ltb (of_grid r) (of_grid r') = true -> r < r'.
Proof.
  assert (Hh : 0 < huge) by reflexivity.
  unfold of_grid.
  destruct (Z.leb_spec huge r), (Z.leb_spec r (- huge)),
    (Z.leb_spec huge r'), (Z.leb_spec r' (- huge));
    simpl; try discriminate; try lia.
  intros Hlt%bool_decide_eq_true.
  apply (proj1 (Q2Qc_lt _ _)) in Hlt. exact (proj1 (grid_lt _ _) Hlt).
Qed.

(** The grid is ordered as the numbers are. *)
Lemma of_grid_leb r r' : r <= r' -> leb (of_grid r) (of_grid r') = true.
Proof.
  intros Hle. destruct (leb (of_grid r) (of_grid r')) eqn:E; [reflexivity|].
  assert (Hlt : ltb (of_grid r') (of_grid r) = true).
  { pose proof (of_grid_not_NaN r). pose proof (of_grid_not_NaN r').
    unfold leb in E.
    destruct (of_grid r), (of_grid r'); try congruence;
      now apply negb_false_iff in E. }
  apply of_grid_ltb in Hlt. lia.
Qed.

Lemma of_grid_Int z :
  Z.abs (z * Z.pos grid) < huge -> of_grid (z * Z.pos grid) = Int z.
Proof.
  intros Hz. unfold of_grid.
  destruct (Z.leb_spec huge (z * Z.pos grid)); [lia|].
  destruct (Z.leb_spec (z * Z.pos grid) (- huge)); [lia|].
  unfold Int. f_equal. apply Qc_is_canon. simpl. rewrite Qred_correct.
  unfold Qeq. simpl. lia.
Qed.

Lemma binary64_spec q r :
  binary64 q = Some r ->
  of_grid r = Fin q /\ round53 r = r /\ Z.abs r < huge.
Proof.
  unfold binary64. cbv zeta.
  destruct (Z.eqb_spec (Z.pos grid mod Z.pos (Qden (this q))) 0) as [Hm|];
    [|discriminate].
  destruct (Z.eqb_spec (round53 (Qnum (this q) * (Z.pos grid / Z.pos (Qden (this q)))))
              (Qnum (this q) * (Z.pos grid / Z.pos (Qden (this q)))))
    as [Hr|]; [|discriminate].
  destruct (Z.ltb_spec (Z.abs (Qnum (this q) * (Z.pos grid / Z.pos (Qden (this q)))))
              huge) as [Hh|]; [|discriminate].
  simpl. intros [= <-]. split; [|split; assumption].
  unfold of_grid.
  destruct (Z.leb_spec huge (Qnum (this q) * (Z.pos grid / Z.pos (Qden (this q)))));
    [lia|].
  destruct (Z.leb_spec (Qnum (this q) * (Z.pos grid / Z.pos (Qden (this q))))
              (- huge)); [lia|].
  f_equal. apply Qc_is_canon. simpl. rewrite Qred_correct.
  unfold Qeq. simpl.
  pose proof (Z.div_mod (Z.pos grid) (Z.pos (Qden (this q))) ltac:(lia)) as E.
  rewrite Hm in E. rewrite E at 2. lia.
Qed.

Lemma binary64_Int_inv z r :
  binary64 (Qc_of_Z z) = Some r -> r = z * Z.pos grid.
Proof.
  unfold binary64. cbv zeta.
  change (this (Qc_of_Z z)) with (inject_Z z). simpl Qden. simpl Qnum.
  rewrite Z.div_1_r.
  destruct (_ =? 0); [|discriminate].
  destruct (_ && _); [|discriminate]. now intros [= <-].
Qed.

Lemma round53_safe z :
  Z.abs z <= 2 ^ 53 -> round53 (z * Z.pos grid) = z * Z.pos grid.
Proof.
  intros Hz. rewrite grid_eq.
  destruct (Z.eq_dec (Z.abs z) (2 ^ 53)) as [He|Hne].
  - destruct (Z.abs_spec z) as [[_ E]|[_ E]]; rewrite E in He.
    + rewrite He, <- Z.pow_add_r by lia.
      rewrite <- (Z.mul_1_l (2 ^ (53 + 1074))).
      apply round53_scaled; [lia | reflexivity].
    + replace z with (- 2 ^ 53) by lia.
      replace (- 2 ^ 53 * 2 ^ 1074) with (- (1 * 2 ^ (53 + 1074)))
        by (rewrite Z.pow_add_r by lia; lia).
      rewrite round53_opp. f_equal.
  - apply round53_scaled; lia.
Qed.

Lemma safe_below_huge z : Z.abs z <= 2 ^ 53 -> Z.abs (z * Z.pos grid) < huge.
Proof.
  intros Hz. rewrite huge_eq, Z.abs_mul, (Z.abs_eq (Z.pos grid)) by lia.
  apply Z.mul_lt_mono_pos_r; [reflexivity|].
  assert (2 ^ 53 < 2 ^ 1024) by (apply Z.pow_lt_mono_r; lia). lia.
Qed.

(** The integers up to [2^53] in magnitude are binary64 values. *)
Lemma binary64_Int z :
  Z.abs z <= 2 ^ 53 -> binary64 (Qc_of_Z z) = Some (z * Z.pos grid).
Proof.
  intros Hz. unfold binary64. cbv zeta.
  change (this (Qc_of_Z z)) with (inject_Z z). simpl Qden. simpl Qnum.
  rewrite Z.mod_1_r, Z.div_1_r. simpl (0 =? 0).
  rewrite (round53_safe z Hz), Z.eqb_refl.
  destruct (Z.ltb_spec (Z.abs (z * Z.pos grid)) huge) as [|Hge]; [reflexivity|].
  pose proof (safe_below_huge z Hz). lia.
Qed.

Lemma binary64_opp q :
  binary64 (- q)%Qc = match binary64 q with Some r => Some (- r) | None => None end.
Proof.
  unfold binary64. cbv zeta.
  assert (E : this (- q)%Qc = Qopp (this q)).
  { simpl. rewrite Qred_opp. now rewrite (canon q). }
  rewrite E. simpl Qden. simpl Qnum.
  destruct (_ =? 0); [|reflexivity].
  rewrite Z.mul_opp_l, round53_opp, Z.abs_opp.
  replace (- round53 _ =? - _) with
    (round53 (Qnum (this q) * (Z.pos grid / Z.pos (Qden (this q))))
     =? Qnum (this q) * (Z.pos grid / Z.pos (Qden (this q)))).
  - now destruct (_ && _).
  - destruct (Z.eqb_spec (round53 (Qnum (this q) * (Z.pos grid / Z.pos (Qden (this q)))))
                (Qnum (this q) * (Z.pos grid / Z.pos (Qden (this q)))));
      symmetry; [apply Z.eqb_eq | apply Z.eqb_neq]; lia.
Qed.

Lemma leb_trans x y z : leb x y = true -> leb y z = true -> leb x z = true.
Proof.
  destruct x as [a| | |], y as [b| | |], z as [c| | |]; simpl;
    try discriminate; try reflexivity.
  intros H1%negb_true_iff%bool_decide_eq_false
         H2%negb_true_iff%bool_decide_eq_false.
  apply negb_true_iff, bool_decide_eq_false.
  apply Qcle_not_lt. apply Qcnot_lt_le in H1, H2.
  eapply Qcle_trans; eauto.
Qed.

Lemma of_grid_0 : of_grid 0 = Int 0.
Proof. exact (of_grid_Int 0 eq_refl). Qed.

Lemma of_grid_neg r : r < 0 -> ltb (of_grid r) (Int 0) = true.
Proof.
  intros Hr. rewrite <- of_grid_0.
  destruct (ltb (of_grid r) (of_grid 0)) eqn:E; [reflexivity|].
  assert (Hle : leb (of_grid 0) (of_grid r) = true).
  { pose proof (of_grid_not_NaN r). pose proof (of_grid_not_NaN 0).
    unfold leb. destruct (of_grid 0), (of_grid r); try congruence;
      now rewrite E. }
  exfalso. unfold of_grid in Hle.
  assert (Hh : 0 < huge) by reflexivity.
  destruct (Z.leb_spec huge 0); [lia|].
  destruct (Z.leb_spec 0 (- huge)); [lia|].
  destruct (Z.leb_spec huge r); [lia|].
  destruct (Z.leb_spec r (- huge)); [discriminate Hle|].
  simpl in Hle. apply negb_true_iff, bool_decide_eq_false in Hle.
  apply Hle. apply Q2Qc_lt, grid_lt. exact Hr.
Qed.

Lemma of_grid_leb_inv r r' :
  Z.abs r < huge -> Z.abs r' < huge ->
  leb (of_grid r) (of_grid r') = true -> r <= r'.
Proof.
  intros Hr Hr'. unfold of_grid.
  destruct (Z.leb_spec huge r); [lia|].
  destruct (Z.leb_spec r (- huge)); [lia|].
  destruct (Z.leb_spec huge r'); [lia|].
  destruct (Z.leb_spec r' (- huge)); [lia|].
  simpl. intros Hle%negb_true_iff%bool_decide_eq_false.
  destruct (Z.le_gt_cases r r') as [|Hgt]; [assumption|].
  exfalso. apply Hle. apply Q2Qc_lt, grid_lt. lia.
Qed.

(** The operands of a rounded sum, on the grid. *)
Lemma binary64_neg_Int a r :
  binary64 (- Qc_of_Z a)%Qc = Some r -> r = - (a * Z.pos grid).
Proof.
  rewrite binary64_opp.
  destruct (binary64 (Qc_of_Z a)) as [ra|] eqn:Ea; [|discriminate].
  apply binary64_Int_inv in Ea as ->. now intros [= <-].
Qed.

Lemma add_Int_NaN x a : add x (Int a) = NaN -> x = NaN.
Proof.
  destruct x as [b| | |]; unfold add, Int; try congruence.
  destruct (binary64 b), (binary64 (Qc_of_Z a)); try discriminate.
  intros H. now apply of_grid_not_NaN in H.
Qed.

Lemma sub_Int_NaN x a : sub x (Int a) = NaN -> x = NaN.
Proof.
  destruct x as [b| | |]; unfold sub, neg, add, Int; try congruence.
  destruct (binary64 b), (binary64 (- Qc_of_Z a)%Qc); try discriminate.
  intros H. now apply of_grid_not_NaN in H.
Qed.

(** In the range of the safe integers the sum and the difference of
    integers are exact. *)
Lemma add_Int a b : Z.abs (a + b) <= 2 ^ 53 -> add (Int a) (Int b) = Int (a + b).
Proof.
  intros Hs. unfold add, Int.
  destruct (binary64 (Qc_of_Z a)) as [ra|] eqn:Ea;
    [|now rewrite Z2Qc_inj_add].
  destruct (binary64 (Qc_of_Z b)) as [rb|] eqn:Eb;
    [|now rewrite Z2Qc_inj_add].
  apply binary64_Int_inv in Ea as ->. apply binary64_Int_inv in Eb as ->.
  rewrite <- Z.mul_add_distr_r, (round53_safe _ Hs).
  apply of_grid_Int, safe_below_huge, Hs.
Qed.

Lemma sub_Int a b : Z.abs (a - b) <= 2 ^ 53 -> sub (Int a) (Int b) = Int (a - b).
Proof.
  intros Hs. unfold sub, neg, add, Int.
  destruct (binary64 (Qc_of_Z a)) as [ra|] eqn:Ea;
    [|now rewrite Z2Qc_inj_sub].
  destruct (binary64 (- Qc_of_Z b)%Qc) as [rb|] eqn:Eb;
    [|now rewrite Z2Qc_inj_sub].
  apply binary64_Int_inv in Ea as ->. apply binary64_neg_Int in Eb as ->.
  replace (a * Z.pos grid + - (b * Z.pos grid)) with ((a - b) * Z.pos grid)
    by lia.
  rewrite (round53_safe _ Hs). apply of_grid_Int, safe_below_huge, Hs.
Qed.

(** [a <= B] makes [B - a] non-negative, [a > B] makes it negative. *)
Lemma leb_sub_nonneg B a :
  leb (Int a) B = true -> ltb (sub B (Int a)) (Int 0) = false.
Proof.
  destruct B as [b| | |]; try discriminate; [|reflexivity].
  intros Hle. unfold sub, neg, add, Int. fold (Int 0).
  destruct (binary64 b) as [rb|] eqn:Eb;
    [destruct (binary64 (- Qc_of_Z a)%Qc) as [ra|] eqn:Ea|].
  - apply (leb_gtb (Int 0)). rewrite <- of_grid_0. apply of_grid_leb.
    apply round53_nonneg.
    pose proof Ea as Ea'. apply binary64_neg_Int in Ea' as ->.
    rewrite binary64_opp in Ea.
    destruct (binary64 (Qc_of_Z a)) as [ra|] eqn:Ea2; [|discriminate].
    pose proof Ea2 as Ea3. apply binary64_Int_inv in Ea3 as ->.
    destruct (binary64_spec _ _ Eb) as (Hb & _ & Hbh).
    destruct (binary64_spec _ _ Ea2) as (Ha & _ & Hah).
    unfold Int in Hle. rewrite <- Hb, <- Ha in Hle.
    apply of_grid_leb_inv in Hle; [lia | assumption..].
  - simpl in *. apply negb_true_iff, bool_decide_eq_false in Hle.
    apply bool_decide_eq_false. intros Hlt. apply Hle.
    apply (Qcplus_lt_mono_r _ _ (- Qc_of_Z a)%Qc).
    rewrite Qcplus_opp_r. exact Hlt.
  - simpl in *. apply negb_true_iff, bool_decide_eq_false in Hle.
    apply bool_decide_eq_false. intros Hlt. apply Hle.
    apply (Qcplus_lt_mono_r _ _ (- Qc_of_Z a)%Qc).
    rewrite Qcplus_opp_r. exact Hlt.
Qed.

Lemma gtb_sub_neg B a :
  gtb (Int a) B = true -> ltb (sub B (Int a)) (Int 0) = true.
Proof.
  unfold gtb. destruct B as [b| | |]; try discriminate; [|reflexivity].
  intros Hlt. unfold sub, neg, add, Int. fold (Int 0).
  destruct (binary64 b) as [rb|] eqn:Eb;
    [destruct (binary64 (- Qc_of_Z a)%Qc) as [ra|] eqn:Ea|].
  - apply of_grid_neg.
    pose proof Ea as Ea'. apply binary64_neg_Int in Ea' as ->.
    rewrite binary64_opp in Ea.
    destruct (binary64 (Qc_of_Z a)) as [ra|] eqn:Ea2; [|discriminate].
    pose proof Ea2 as Ea3. apply binary64_Int_inv in Ea3 as ->.
    destruct (binary64_spec _ _ Eb) as (Hb & _ & _).
    destruct (binary64_spec _ _ Ea2) as (Ha & _ & _).
    unfold Int in Hlt. rewrite <- Hb, <- Ha in Hlt.
    apply of_grid_ltb in Hlt.
    pose proof (round53_mono (rb + - (a * Z.pos grid)) (- (1)) ltac:(lia)) as Hm.
    change (round53 (- (1))) with (- (1)) in Hm. lia.
  - simpl in *. apply bool_decide_eq_true in Hlt. apply bool_decide_eq_true.
    apply (Qcplus_lt_mono_r _ _ (- Qc_of_Z a)%Qc) in Hlt.
    rewrite Qcplus_opp_r in Hlt. exact Hlt.
  - simpl in *. apply bool_decide_eq_true in Hlt. apply bool_decide_eq_true.
    apply (Qcplus_lt_mono_r _ _ (- Qc_of_Z a)%Qc) in Hlt.
    rewrite Qcplus_opp_r in Hlt. exact Hlt.
Qed.

(** Adding a positive integer keeps a number non-negative. *)
Lemma add_nonneg B a :
  0 < a -> leb (Int 0) B = true -> leb (Int 0) (add B (Int a)) = true.
Proof.
  intros Ha. destruct B as [b| | |]; try discriminate; [|reflexivity].
  intros Hle. unfold add, Int. fold (Int 0).
  destruct (binary64 b) as [rb|] eqn:Eb;
    [destruct (binary64 (Qc_of_Z a)) as [ra|] eqn:Ea|].
  - rewrite <- of_grid_0. apply of_grid_leb, round53_nonneg.
    pose proof Ea as Ea'. apply binary64_Int_inv in Ea' as ->.
    destruct (binary64_spec _ _ Eb) as (Hb & _ & Hbh).
    rewrite <- Hb, <- of_grid_0 in Hle.
    apply of_grid_leb_inv in Hle; [nia | reflexivity | assumption].
  - simpl in *. apply negb_true_iff, bool_decide_eq_false in Hle.
    apply negb_true_iff, bool_decide_eq_false. intros Hlt. apply Hle.
    apply Qclt_nge. intros Hb. apply Qclt_nge in Hlt. apply Hlt.
    rewrite <- (Qcplus_0_r (Qc_of_Z 0)).
    apply Qcplus_le_compat; [exact Hb|].
    rewrite <- Z2Qc_inj_0. apply (proj1 (Z2Qc_inj_le _ _)). lia.
  - simpl in *. apply negb_true_iff, bool_decide_eq_false in Hle.
    apply negb_true_iff, bool_decide_eq_false. intros Hlt. apply Hle.
    apply Qclt_nge. intros Hb. apply Qclt_nge in Hlt. apply Hlt.
    rewrite <- (Qcplus_0_r (Qc_of_Z 0)).
    apply Qcplus_le_compat; [exact Hb|].
    rewrite <- Z2Qc_inj_0. apply (proj1 (Z2Qc_inj_le _ _)). lia.
Qed.

(** Subtracting a positive integer keeps a number below a bound. *)
Lemma sub_le B a L :
  0 < a -> leb B L = true -> sub B (Int a) <> NaN -> leb (sub B (Int a)) L = true.
Proof.
  intros Ha. destruct B as [b| | |]; try discriminate.
  - intros Hle _. unfold sub, neg, add, Int.
    assert (Hexact : leb (Fin (b + - Qc_of_Z a)%Qc) L = true).
    { destruct L as [l| | |]; simpl in *; try discriminate; try reflexivity.
      apply negb_true_iff, bool_decide_eq_false in Hle.
      apply negb_true_iff, bool_decide_eq_false. intros Hlt. apply Hle.
      eapply Qclt_le_trans; [exact Hlt|].
      rewrite <- (Qcplus_0_r b) at 2.
      apply Qcplus_le_compat; [reflexivity|].
      rewrite <- Z2Qc_inj_0, <- Z2Qc_inj_opp.
      apply (proj1 (Z2Qc_inj_le _ _)). lia. }
    destruct (binary64 b) as [rb|] eqn:Eb; [|exact Hexact].
    destruct (binary64 (- Qc_of_Z a)%Qc) as [ra|] eqn:Ea; [|exact Hexact].
    apply binary64_neg_Int in Ea as ->.
    destruct (binary64_spec _ _ Eb) as (Hb & Hrb & _).
    apply (leb_trans _ (Fin b)); [|exact Hle].
    rewrite <- Hb. apply of_grid_leb. rewrite <- Hrb at 2.
    apply round53_mono. nia.
  - intros Hle _. exact Hle.
  - intros Hle _. exact Hle.
Qed.

(** ** Running programs *)

Ltac unfold_monad :=
  unfold mbind, prog_bind, mret, prog_ret, fmap, prog_fmap, throw, perform in *.

Section Running.
Context {S : Type} (C : Collaborators S).

Lemma run_bind {A B} (p : prog A) (f : A -> prog B) w :
  run C (bind p f) w =
  match run C p w with
  | (Fulfilled a, w') => run C (f a) w'
  | (Rejected e, w') => (Rejected e, w')
  | (Pending, w') => (Pending, w')
  end.
Proof.
  revert w. induction p as [a|e|X o k IH]; intros w; simpl; try reflexivity.
  destruct (enabled o w); [|reflexivity].
  destruct (handle C o w) as [r w']. apply IH.
Qed.

Lemma run_finally {A} (p : prog A) (f : prog unit) w :
  run C (finally p f) w =
  match run C p w with
  | (Fulfilled a, w') => run C (bind f (fun _ => Ret a)) w'
  | (Rejected e, w') => run C (bind f (fun _ => Throw e)) w'
  | (Pending, w') => (Pending, w')
  end.
Proof.
  revert w. induction p as [a|e|X o k IH]; intros w; simpl; try reflexivity.
  destruct (enabled o w); [|reflexivity].
  destruct (handle C o w) as [r w']. apply IH.
Qed.

Lemma set_db_db (w : World S) : set_db (db w) w = w.
Proof. destruct w; reflexivity. Qed.

Lemma lockless_handle {X} (o : op X) (w : World S) :
  lockless_op o = true ->
  enabled o w = true /\
  handle C o w =
    (fst (handle C o (mkWorld ∅ [] (db w) (now w))),
     set_db (db (snd (handle C o (mkWorld ∅ [] (db w) (now w)))) ) w).
Proof.
  destruct o; simpl; try discriminate; intros _; split; try reflexivity;
    try (unfold on_db; simpl;
         match goal with |- context [let '(_, _) := ?e in _] => destruct e end;
         reflexivity).
  now rewrite set_db_db.
Qed.

(** A lockless call sees and changes only the collaborators' state. *)
Lemma run_lockless {A} (p : prog A) (w : World S) :
  lockless p ->
  run C p w = (fst (exec C p (db w) (now w)), set_db (snd (exec C p (db w) (now w))) w).
Proof.
  unfold exec. revert w. induction p as [a|e|X o k IH]; intros w Hp; simpl.
  - now rewrite set_db_db.
  - now rewrite set_db_db.
  - destruct Hp as [Ho Hk].
    destruct (lockless_handle o w Ho) as [-> ->].
    destruct (lockless_handle o (mkWorld ∅ [] (db w) (now w)) Ho) as [-> _].
    simpl. destruct (handle C o (mkWorld ∅ [] (db w) (now w))) as [r w1] eqn:E.
    simpl. rewrite (IH r _ (Hk r)). rewrite (IH r w1 (Hk r)). simpl.
    assert (Hn : now w1 = now w).
    { destruct o; simpl in *; try discriminate; unfold on_db in E; simpl in E;
        try (match type of E with (let '(_, _) := ?e in _) = _ => destruct e end);
        inversion E; reflexivity. }
    rewrite Hn.
    destruct (run C (k r) (mkWorld ∅ [] (db w1) (now w))) as [o' w2]. simpl.
    reflexivity.
Qed.

End Running.

(** ** One call at a time *)

Section Sequential.
Context {S : Type} (C : Collaborators S).

Lemma lockless_not_pending {A} (p : prog A) (w : World S) :
  lockless p -> fst (run C p w) <> Pending.
Proof.
  revert w. induction p as [a|e|X o k IH]; intros w Hp; simpl; try discriminate.
  destruct Hp as [Ho Hk]. destruct (lockless_handle C o w Ho) as [-> _].
  destruct (handle C o w) as [r w']. apply IH, Hk.
Qed.

Lemma exec_not_pending {A} (p : prog A) d n :
  lockless p -> fst (exec C p d n) <> Pending.
Proof.
  intros Hp. unfold exec.
  pose proof (lockless_not_pending p (mkWorld ∅ [] d n) Hp) as H.
  destruct (run C p (mkWorld ∅ [] d n)). exact H.
Qed.

Lemma run_getMutexForUser u (w : World S) :
  run C (getMutexForUser u) w = (Fulfilled (Some (mutex_for u w)), registered u w).
Proof.
  unfold getMutexForUser, mutex_for, registered. unfold_monad. simpl.
  destruct (locks w !! u) as [m|] eqn:E; simpl.
  - rewrite E. reflexivity.
  - rewrite lookup_insert_eq. reflexivity.
Qed.

Lemma locks_registered u (w : World S) :
  locks (registered u w) !! u = Some (mutex_for u w).
Proof.
  unfold registered, mutex_for. destruct (locks w !! u) eqn:E; simpl.
  - exact E.
  - apply lookup_insert_eq.
Qed.

Lemma free_registered u (w : World S) :
  free u w -> locked (mutex_for u w) (registered u w) = false.
Proof.
  unfold free, registered, mutex_for. intros Hf.
  destruct (locks w !! u) as [m|] eqn:E; simpl.
  - now apply Hf.
  - unfold locked. simpl. apply bool_decide_eq_false.
    rewrite lookup_app_r, Nat.sub_diag by lia. simpl. congruence.
Qed.

Lemma unlock_lock m (l : list bool) :
  l !! m <> Some true -> <[m := false]> (<[m := true]> l) = l.
Proof.
  intros H. rewrite list_insert_insert_eq.
  destruct (l !! m) as [[]|] eqn:E; try congruence.
  - now apply list_insert_id.
  - apply list_insert_ge. now apply lookup_ge_None.
Qed.

(** A lockless callback under [runExclusive], the lock being free: the
    callback's effect, and the lock is free again. *)
Lemma run_runExclusive {A} m (callback : prog A) (w : World S) :
  lockless callback -> locked m w = false ->
  run C (runExclusive (Some m) callback) w =
  (fst (exec C callback (db w) (now w)),
   set_db (snd (exec C callback (db w) (now w))) w).
Proof.
  intros Hc Hm. unfold runExclusive. unfold_monad. simpl. rewrite Hm. simpl.
  rewrite run_finally, run_lockless by exact Hc. simpl.
  pose proof (exec_not_pending callback (db w) (now w) Hc) as Hnp.
  apply bool_decide_eq_false in Hm.
  destruct (exec C callback (db w) (now w)) as [[a|e|] d]; simpl in *;
    try congruence; unfold set_mutex, set_db; simpl;
    rewrite unlock_lock by exact Hm; reflexivity.
Qed.

Lemma lockless_charge_section L u a : lockless (charge_section L u a).
Proof.
  unfold charge_section. unfold_monad. simpl. split; [reflexivity|].
  intros [up|e]; simpl; [|exact I].
  destruct (gtb _ _); simpl; [exact I|].
  split; [reflexivity|]. intros [?|?]; simpl; [|exact I].
  split; [reflexivity|]. intros [?|?]; simpl; [|exact I].
  split; [reflexivity|]. intros [?|?]; simpl; exact I.
Qed.

Lemma lockless_use_section u a : lockless (use_section u a).
Proof.
  unfold use_section. unfold_monad. simpl. split; [reflexivity|].
  intros [up|e]; simpl; [|exact I].
  destruct (ltb _ _); simpl; [exact I|].
  split; [reflexivity|]. intros [?|?]; simpl; [|exact I].
  split; [reflexivity|]. intros [?|?]; simpl; [|exact I].
  split; [reflexivity|]. intros [?|?]; simpl; exact I.
Qed.

Lemma db_registered u (w : World S) : db (registered u w) = db w.
Proof. unfold registered. now destruct (locks w !! u). Qed.

Lemma now_registered u (w : World S) : now (registered u w) = now w.
Proof. unfold registered. now destruct (locks w !! u). Qed.

(** [chargePoint] on valid arguments, the user's lock being free: the
    callback's effect on the tables, behind the registration of the lock. *)
Lemma run_chargePoint L u a (w : World S) :
  invalid u = false -> invalid a = false -> free u w ->
  run C (chargePoint L u a) w =
  (returned u (now w) (fst (exec C (charge_section L u a) (db w) (now w))),
   set_db (snd (exec C (charge_section L u a) (db w) (now w))) (registered u w)).
Proof.
  intros Hu Ha Hf. unfold chargePoint. rewrite Hu, Ha. unfold_monad.
  rewrite run_bind, run_getMutexForUser, run_bind.
  rewrite run_runExclusive
    by (try apply lockless_charge_section; now apply free_registered).
  rewrite db_registered, now_registered. simpl.
  destruct (exec C (charge_section L u a) (db w) (now w)) as [[v|e|] d];
    simpl; try reflexivity.
  now rewrite now_registered.
Qed.

Lemma run_usePoint u a (w : World S) :
  invalid u = false -> invalid a = false -> free u w ->
  run C (usePoint u a) w =
  (returned u (now w) (fst (exec C (use_section u a) (db w) (now w))),
   set_db (snd (exec C (use_section u a) (db w) (now w))) (registered u w)).
Proof.
  intros Hu Ha Hf. unfold usePoint. rewrite Hu, Ha. unfold_monad.
  rewrite run_bind, run_getMutexForUser, run_bind.
  rewrite run_runExclusive
    by (try apply lockless_use_section; now apply free_registered).
  rewrite db_registered, now_registered. simpl.
  destruct (exec C (use_section u a) (db w) (now w)) as [[v|e|] d];
    simpl; try reflexivity.
  now rewrite now_registered.
Qed.

End Sequential.

(** The callbacks on the tables of the specification. *)

Lemma point_selected u n t :
  point (default (mkUserPoint u (Int 0) (Int n)) (userTable t !! u)) = balance u t.
Proof. unfold balance. now destruct (userTable t !! u). Qed.

Lemma exec_charge_section L u a t n :
  exec tables (charge_section L u a) t n =
  if gtb (add (balance u t) a) L then (Rejected (LimitExceeded L), t)
  else (Fulfilled (add (balance u t) a),
        committed u a (add (balance u t) a) CHARGE n t).
Proof.
  unfold exec, charge_section. unfold_monad. simpl.
  rewrite point_selected.
  destruct (gtb (add (balance u t) a) L); reflexivity.
Qed.

Lemma exec_use_section u a t n :
  exec tables (use_section u a) t n =
  if ltb (sub (balance u t) a) (Int 0) then (Rejected InsufficientPoint, t)
  else (Fulfilled (sub (balance u t) a),
        committed u a (sub (balance u t) a) USE n t).
Proof.
  unfold exec, use_section. unfold_monad. simpl.
  rewrite point_selected.
  destruct (ltb (sub (balance u t) a) (Int 0)); reflexivity.
Qed.

Lemma balance_committed u a v ty n t : balance u (committed u a v ty n t) = v.
Proof. unfold balance, committed. simpl. now rewrite lookup_insert_eq. Qed.

Lemma balance_committed_ne u u' a v ty n t :
  u <> u' -> balance u' (committed u a v ty n t) = balance u' t.
Proof.
  intros H. unfold balance, committed. simpl. now rewrite lookup_insert_ne.
Qed.

Section Blocked.
Context {S : Type} (C : Collaborators S).

Lemma free_iff u (w : World S) :
  free u w <-> locked (mutex_for u w) (registered u w) = false.
Proof.
  split; [apply free_registered|].
  unfold free, mutex_for, registered. intros H m Hm.
  destruct (locks w !! u) as [m'|]; [|discriminate].
  injection Hm as ->. exact H.
Qed.

Lemma run_runExclusive_locked {A} m (callback : prog A) (w : World S) :
  locked m w = true -> run C (runExclusive (Some m) callback) w = (Pending, w).
Proof.
  intros Hm. unfold runExclusive. unfold_monad. simpl. now rewrite Hm.
Qed.

Lemma run_chargePoint_blocked L u a (w : World S) :
  invalid u = false -> invalid a = false -> ~ free u w ->
  run C (chargePoint L u a) w = (Pending, registered u w).
Proof.
  intros Hu Ha Hf. unfold chargePoint. rewrite Hu, Ha. unfold_monad.
  rewrite run_bind, run_getMutexForUser, run_bind.
  rewrite run_runExclusive_locked; [reflexivity|].
  rewrite free_iff in Hf. now destruct (locked _ _).
Qed.

Lemma run_usePoint_blocked u a (w : World S) :
  invalid u = false -> invalid a = false -> ~ free u w ->
  run C (usePoint u a) w = (Pending, registered u w).
Proof.
  intros Hu Ha Hf. unfold usePoint. rewrite Hu, Ha. unfold_monad.
  rewrite run_bind, run_getMutexForUser, run_bind.
  rewrite run_runExclusive_locked; [reflexivity|].
  rewrite free_iff in Hf. now destruct (locked _ _).
Qed.

Lemma free_dec u (w : World S) : free u w \/ ~ free u w.
Proof.
  rewrite free_iff. destruct (locked _ _); [right|left]; congruence.
Qed.

End Blocked.

Lemma free_initial u : free u initial.
Proof. intros m H. discriminate H. Qed.

Lemma invalid_pos z : 0 < z -> invalid (Int z) = false.
Proof. intros Hz. rewrite invalid_Int. apply bool_decide_eq_false. lia. Qed.

(** ** The claims on single calls *)

(** C1: for positive integers [userId] and [amount], the user's lock being
    free, if the sum of the balance [B] and [amount], as binary64 addition
    gives it, is [<= chargeLimit], then [chargePoint] is fulfilled with
    [{id: userId, point: that sum}]; the user table is the old one with the
    single entry of [userId] replaced by that balance, and the history
    table is the old one followed by exactly one [CHARGE] record of that
    user and amount.  The sum is [B + amount] itself when [B] is an integer
    and [B + amount] is at most [2^53] in magnitude. *)
Theorem chargePoint_within_limit L (u a : Z) (w : World Tables) :
  0 < u -> 0 < a -> free (Int u) w ->
  leb (add (balance (Int u) (db w)) (Int a)) L = true ->
  let B' := add (balance (Int u) (db w)) (Int a) in
  let w' := snd (run tables (chargePoint L (Int u) (Int a)) w) in
  (exists ms, fst (run tables (chargePoint L (Int u) (Int a)) w)
              = Fulfilled (mkUserPoint (Int u) B' ms))
  /\ (exists ms, userTable (db w')
                 = <[Int u := mkUserPoint (Int u) B' ms]> (userTable (db w)))
  /\ (exists h, historyTable (db w') = historyTable (db w) ++ [h]
        /\ type h = CHARGE /\ userId h = Int u /\ amount h = Int a)
  /\ balance (Int u) (db w') = B'
  /\ (forall b, balance (Int u) (db w) = Int b -> Z.abs (b + a) <= 2 ^ 53 ->
        B' = Int (b + a)).
Proof.
  intros Hu Ha Hf Hle B' w'. subst B' w'.
  rewrite run_chargePoint by auto using invalid_pos.
  rewrite exec_charge_section, (leb_gtb _ _ Hle). simpl.
  split; [eexists; reflexivity|]. split; [eexists; reflexivity|].
  split; [|split].
  - eexists. split; [reflexivity|]. repeat split.
  - apply balance_committed.
  - intros b Hb Hs. rewrite Hb. now apply add_Int.
Qed.

Lemma chargePoint_within_limit_witness :
  (exists ms,
      fst (run tables (chargePoint (Int 1000) (Int 1) (Int 500)) initial)
      = Fulfilled
          (mkUserPoint (Int 1) (add (balance (Int 1) (db initial)) (Int 500)) ms))
  /\ add (balance (Int 1) (db initial)) (Int 500) = Int 500.
Proof.
  pose proof (chargePoint_within_limit (Int 1000) 1 500 initial) as H.
  destruct H as (H1 & _ & _ & _ & H5).
  - lia.
  - lia.
  - apply free_initial.
  - vm_compute. reflexivity.
  - split; [exact H1 | apply (H5 0); [reflexivity | vm_compute; discriminate]].
Defined.

(** At a balance of [2^53] a charge of 1 under a limit of [10^16] is
    within the limit and fulfilled, but the balance returned and written
    is [2^53], not [2^53 + 1]: binary64 has no such value. *)
Lemma chargePoint_within_limit_counterexample :
  let w := set_db (mkTables {[Int 1 := mkUserPoint (Int 1) (Int (2 ^ 53)) (Int 0)]} [])
             initial in
  let res := run tables (chargePoint (Int (10 ^ 16)) (Int 1) (Int 1)) w in
  balance (Int 1) (db w) = Int (2 ^ 53)
  /\ 2 ^ 53 + 1 <= 10 ^ 16
  /\ fst res = Fulfilled (mkUserPoint (Int 1) (Int (2 ^ 53)) (Int 0))
  /\ balance (Int 1) (db (snd res)) = Int (2 ^ 53)
  /\ Int (2 ^ 53) <> Int (2 ^ 53 + 1).
Proof.
  intros w res. subst res.
  assert (Hb : balance (Int 1) (db w) = Int (2 ^ 53)) by reflexivity.
  assert (Hs : add (Int (2 ^ 53)) (Int 1) = Int (2 ^ 53))
    by (apply (bool_decide_unpack _); vm_compute; exact I).
  rewrite run_chargePoint
    by (try reflexivity; intros m Hm; discriminate Hm).
  rewrite exec_charge_section, Hb, Hs.
  assert (gtb (Int (2 ^ 53)) (Int (10 ^ 16)) = false) as ->
    by (vm_compute; reflexivity).
  split; [reflexivity|]. split; [lia|]. split; [reflexivity|].
  split; [apply balance_committed|]. intros [= H].
Qed.

(** C2: for positive integers [userId] and [amount], the user's lock being
    free, if the sum of the balance [B] and [amount], as binary64 addition
    gives it (it is [B + amount] itself up to [2^53]), is
    [> chargeLimit], then [chargePoint] is rejected with the limit error,
    whose message interpolates the configured limit, and the tables are
    left as they were: no balance written, no history appended, the
    balance still [B]. *)
Theorem chargePoint_over_limit L (u a : Z) (w : World Tables) :
  0 < u -> 0 < a -> free (Int u) w ->
  gtb (add (balance (Int u) (db w)) (Int a)) L = true ->
  let w' := snd (run tables (chargePoint L (Int u) (Int a)) w) in
  fst (run tables (chargePoint L (Int u) (Int a)) w) = Rejected (LimitExceeded L)
  /\ In (Interp L) (message (LimitExceeded L))
  /\ db w' = db w
  /\ balance (Int u) (db w') = balance (Int u) (db w).
Proof.
  intros Hu Ha Hf Hgt w'. subst w'.
  rewrite run_chargePoint by auto using invalid_pos.
  rewrite exec_charge_section, Hgt. simpl.
  repeat split. right. left. reflexivity.
Qed.

Lemma chargePoint_over_limit_witness :
  fst (run tables (chargePoint (Int 1000) (Int 1) (Int 1001)) initial)
    = Rejected (LimitExceeded (Int 1000))
  /\ db (snd (run tables (chargePoint (Int 1000) (Int 1) (Int 1001)) initial))
     = db initial.
Proof.
  pose proof (chargePoint_over_limit (Int 1000) 1 1001 initial) as H.
  destruct H as (H1 & _ & H3 & _).
  - lia.
  - lia.
  - apply free_initial.
  - vm_compute. reflexivity.
  - split; [exact H1 | exact H3].
Defined.

(** At a balance of [2^53] under a limit of [2^53], a charge of 1 exceeds
    the limit as integers go, but the sum computed is [2^53]: the charge is
    fulfilled and recorded. *)
Lemma chargePoint_over_limit_counterexample :
  let w := set_db (mkTables {[Int 1 := mkUserPoint (Int 1) (Int (2 ^ 53)) (Int 0)]} [])
             initial in
  let res := run tables (chargePoint (Int (2 ^ 53)) (Int 1) (Int 1)) w in
  balance (Int 1) (db w) = Int (2 ^ 53)
  /\ 2 ^ 53 + 1 > 2 ^ 53
  /\ fst res = Fulfilled (mkUserPoint (Int 1) (Int (2 ^ 53)) (Int 0))
  /\ length (historyTable (db (snd res))) = 1%nat.
Proof.
  intros w res. subst res.
  assert (Hb : balance (Int 1) (db w) = Int (2 ^ 53)) by reflexivity.
  assert (Hs : add (Int (2 ^ 53)) (Int 1) = Int (2 ^ 53))
    by (apply (bool_decide_unpack _); vm_compute; exact I).
  rewrite run_chargePoint
    by (try reflexivity; intros m Hm; discriminate Hm).
  rewrite exec_charge_section, Hb, Hs.
  assert (gtb (Int (2 ^ 53)) (Int (2 ^ 53)) = false) as ->
    by (vm_compute; reflexivity).
  split; [reflexivity|]. split; [lia|]. split; reflexivity.
Qed.

(** C3: for positive integers [userId] and [amount], the user's lock being
    free, if the balance [B] has [amount <= B] then [usePoint] is fulfilled
    with [{id: userId, point: B - amount}], the difference being the one
    binary64 subtraction gives; the user table is the old one with the
    entry of [userId] replaced by that balance, and the history table is
    the old one followed by exactly one [USE] record of that user and
    amount.  The difference is [B - amount] itself when [B] is an integer
    and [B - amount] is at most [2^53]. *)
Theorem usePoint_sufficient (u a : Z) (w : World Tables) :
  0 < u -> 0 < a -> free (Int u) w ->
  leb (Int a) (balance (Int u) (db w)) = true ->
  let B' := sub (balance (Int u) (db w)) (Int a) in
  let w' := snd (run tables (usePoint (Int u) (Int a)) w) in
  (exists ms, fst (run tables (usePoint (Int u) (Int a)) w)
              = Fulfilled (mkUserPoint (Int u) B' ms))
  /\ (exists ms, userTable (db w')
                 = <[Int u := mkUserPoint (Int u) B' ms]> (userTable (db w)))
  /\ (exists h, historyTable (db w') = historyTable (db w) ++ [h]
        /\ type h = USE /\ userId h = Int u /\ amount h = Int a)
  /\ balance (Int u) (db w') = B'
  /\ (forall b, balance (Int u) (db w) = Int b -> Z.abs (b - a) <= 2 ^ 53 ->
        B' = Int (b - a)).
Proof.
  intros Hu Ha Hf Hle B' w'. subst B' w'.
  rewrite run_usePoint by auto using invalid_pos.
  rewrite exec_use_section, (leb_sub_nonneg _ _ Hle). simpl.
  split; [eexists; reflexivity|]. split; [eexists; reflexivity|].
  split; [|split].
  - eexists. split; [reflexivity|]. repeat split.
  - apply balance_committed.
  - intros b Hb Hs. rewrite Hb. now apply sub_Int.
Qed.

(** A user with a balance of 100. *)
Lemma usePoint_sufficient_witness :
  let w := mkWorld ∅ [] (committed (Int 1) (Int 100) (Int 100) CHARGE 0 (db initial)) 0 in
  (exists ms,
      fst (run tables (usePoint (Int 1) (Int 100)) w)
      = Fulfilled (mkUserPoint (Int 1) (sub (balance (Int 1) (db w)) (Int 100)) ms))
  /\ sub (balance (Int 1) (db w)) (Int 100) = Int 0.
Proof.
  intros w.
  pose proof (usePoint_sufficient 1 100 w) as H.
  destruct H as (H1 & _ & _ & _ & H5).
  - lia.
  - lia.
  - intros m Hm. discriminate Hm.
  - vm_compute. reflexivity.
  - split; [exact H1 | apply (H5 100)].
    + unfold w. simpl. apply balance_committed.
    + vm_compute. discriminate.
Defined.

(** At a balance of [2^53 + 2] a use of 1 is fulfilled, but the balance
    returned and written is [2^53], not [2^53 + 1]: binary64 has no such
    value, and the tie goes to the even neighbour. *)
Lemma usePoint_sufficient_counterexample :
  let w := set_db (mkTables {[Int 1 := mkUserPoint (Int 1) (Int (2 ^ 53 + 2)) (Int 0)]} [])
             initial in
  let res := run tables (usePoint (Int 1) (Int 1)) w in
  balance (Int 1) (db w) = Int (2 ^ 53 + 2)
  /\ 1 <= 2 ^ 53 + 2
  /\ fst res = Fulfilled (mkUserPoint (Int 1) (Int (2 ^ 53)) (Int 0))
  /\ balance (Int 1) (db (snd res)) = Int (2 ^ 53)
  /\ Int (2 ^ 53) <> Int (2 ^ 53 + 2 - 1).
Proof.
  intros w res. subst res.
  assert (Hb : balance (Int 1) (db w) = Int (2 ^ 53 + 2)) by reflexivity.
  assert (Hs : sub (Int (2 ^ 53 + 2)) (Int 1) = Int (2 ^ 53))
    by (apply (bool_decide_unpack _); vm_compute; exact I).
  rewrite run_usePoint
    by (try reflexivity; intros m Hm; discriminate Hm).
  rewrite exec_use_section, Hb, Hs.
  assert (ltb (Int (2 ^ 53)) (Int 0) = false) as ->
    by (vm_compute; reflexivity).
  split; [reflexivity|]. split; [lia|]. split; [reflexivity|].
  split; [apply balance_committed|]. intros [= H].
Qed.

(** C4: for positive integers [userId] and [amount], the user's lock being
    free, if the balance [B] has [amount > B] then [usePoint] is rejected
    with the insufficient-point error and the tables are left as they were:
    the balance is still [B] and no history record is appended. *)
Theorem usePoint_insufficient (u a : Z) (w : World Tables) :
  0 < u -> 0 < a -> free (Int u) w ->
  gtb (Int a) (balance (Int u) (db w)) = true ->
  let w' := snd (run tables (usePoint (Int u) (Int a)) w) in
  fst (run tables (usePoint (Int u) (Int a)) w) = Rejected InsufficientPoint
  /\ db w' = db w
  /\ balance (Int u) (db w') = balance (Int u) (db w)
  /\ historyTable (db w') = historyTable (db w).
Proof.
  intros Hu Ha Hf Hgt w'. subst w'.
  rewrite run_usePoint by auto using invalid_pos.
  rewrite exec_use_section, (gtb_sub_neg _ _ Hgt). simpl.
  repeat split.
Qed.

Lemma usePoint_insufficient_witness :
  fst (run tables (usePoint (Int 1) (Int 101)) initial) = Rejected InsufficientPoint
  /\ db (snd (run tables (usePoint (Int 1) (Int 101)) initial)) = db initial.
Proof.
  pose proof (usePoint_insufficient 1 101 initial) as H.
  destruct H as (H1 & H2 & _).
  - lia.
  - lia.
  - apply free_initial.
  - vm_compute. reflexivity.
  - split; [exact H1 | exact H2].
Defined.

Lemma Throw_fails_at_once {A} (e : Error) : fails_at_once (@Throw A e) e.
Proof. split; reflexivity. Qed.

(** C5: a [userId] that is not a positive integer makes [getPoint],
    [getHistories], [chargePoint] and [usePoint] fail with an
    invalid-argument error, and an [amount] that is not a positive integer
    makes [chargePoint] and [usePoint] fail with one; the call is then the
    thrown error alone: it performs no operation at all (no lock
    registered or acquired, no table read or written), so whatever the
    collaborators and the state, running it leaves the state untouched. *)
Theorem invalid_arguments_rejected L (userId amount : number) :
  ~ positive_integer userId -> ~ positive_integer amount ->
  (exists e, InvalidArgument e
     /\ fails_at_once (getPoint userId) e
     /\ fails_at_once (getHistories userId) e
     /\ forall a, fails_at_once (chargePoint L userId a) e
               /\ fails_at_once (usePoint userId a) e)
  /\ (forall u, exists e1 e2, InvalidArgument e1 /\ InvalidArgument e2
        /\ fails_at_once (chargePoint L u amount) e1
        /\ fails_at_once (usePoint u amount) e2).
Proof.
  intros Hu%invalid_true Ha%invalid_true. split.
  - exists (new_Error [Text "올바르지 않은 ID 값 입니다."]).
    unfold getPoint, getHistories, chargePoint, usePoint. rewrite Hu.
    repeat split; try (left; reflexivity).
  - intros u. unfold chargePoint, usePoint. rewrite Ha.
    destruct (invalid u).
    + exists (new_Error [Text "올바르지 않은 ID 값 입니다."]),
        (new_Error [Text "올바르지 않은 ID 값 입니다."]).
      repeat split; left; reflexivity.
    + exists (new_Error [Text "충전할 포인트는 정수여야 하며 0보다 커야합니다."]),
        (new_Error [Text "사용할 포인트는 정수여야 하며 0보다 커야합니다."]).
      repeat split; [right; left | right; right]; reflexivity.
Qed.

Lemma not_positive_integer_NaN : ~ positive_integer NaN.
Proof. intros (z & _ & H). discriminate H. Qed.

Lemma not_positive_integer_half : ~ positive_integer (Fin (Q2Qc (3 # 2))).
Proof. apply invalid_true. vm_compute. reflexivity. Qed.

Lemma invalid_arguments_rejected_witness :
  run tables (getPoint NaN) initial
    = (Rejected (new_Error [Text "올바르지 않은 ID 값 입니다."]), initial)
  /\ run tables (chargePoint (Int 1000) (Int 1) (Fin (Q2Qc (3 # 2)))) initial
    = (Rejected (new_Error [Text "충전할 포인트는 정수여야 하며 0보다 커야합니다."]),
       initial).
Proof.
  destruct (invalid_arguments_rejected (Int 1000) NaN (Fin (Q2Qc (3 # 2)))
              not_positive_integer_NaN not_positive_integer_half)
    as [(e & _ & [Hg1 Hg2] & _) Hamount].
  destruct (Hamount (Int 1)) as (e1 & e2 & _ & _ & [Hc1 Hc2] & _).
  split.
  - rewrite Hg2. f_equal. f_equal.
    unfold getPoint in Hg1. simpl in Hg1. injection Hg1 as <-. reflexivity.
  - rewrite Hc2. f_equal. f_equal.
    unfold chargePoint in Hc1. vm_compute in Hc1. injection Hc1 as <-.
    reflexivity.
Defined.

(** ** The balance invariant *)

Arguments leb : simpl never.
Arguments ltb : simpl never.
Arguments gtb : simpl never.
Arguments add : simpl never.
Arguments sub : simpl never.

Lemma run_chargePoint_tables L u a (w : World Tables) :
  invalid u = false -> invalid a = false ->
  run tables (chargePoint L u a) w =
  if locked (mutex_for u w) (registered u w) then (Pending, registered u w)
  else if gtb (add (balance u (db w)) a) L
  then (Rejected (LimitExceeded L), registered u w)
  else (Fulfilled (mkUserPoint u (add (balance u (db w)) a) (Int (now w))),
        set_db (committed u a (add (balance u (db w)) a) CHARGE (now w) (db w))
          (registered u w)).
Proof.
  intros Hu Ha. destruct (locked _ _) eqn:Hl.
  - apply run_chargePoint_blocked; auto. rewrite free_iff. congruence.
  - rewrite run_chargePoint by (auto; now apply free_iff).
    rewrite exec_charge_section. destruct (gtb _ _); simpl; [|reflexivity].
    now rewrite <- (db_registered u w), set_db_db.
Qed.

Lemma run_usePoint_tables u a (w : World Tables) :
  invalid u = false -> invalid a = false ->
  run tables (usePoint u a) w =
  if locked (mutex_for u w) (registered u w) then (Pending, registered u w)
  else if ltb (sub (balance u (db w)) a) (Int 0)
  then (Rejected InsufficientPoint, registered u w)
  else (Fulfilled (mkUserPoint u (sub (balance u (db w)) a) (Int (now w))),
        set_db (committed u a (sub (balance u (db w)) a) USE (now w) (db w))
          (registered u w)).
Proof.
  intros Hu Ha. destruct (locked _ _) eqn:Hl.
  - apply run_usePoint_blocked; auto. rewrite free_iff. congruence.
  - rewrite run_usePoint by (auto; now apply free_iff).
    rewrite exec_use_section. destruct (ltb _ _); simpl; [|reflexivity].
    now rewrite <- (db_registered u w), set_db_db.
Qed.

Lemma nonneg_not_NaN B : leb (Int 0) B = true -> B <> NaN.
Proof. unfold leb, Int. destruct B; congruence. Qed.

Lemma Int_not_NaN z : Int z <> NaN.
Proof. discriminate. Qed.

(** C6: from a state in which a user's stored point is [>= 0], after any
    call of [getPoint], [getHistories], [chargePoint] or [usePoint],
    fulfilled or rejected or still waiting for a lock, that user's stored
    point is still [>= 0]; and right after a fulfilled [chargePoint] of
    that user it is [<= chargeLimit], the configured limit being a number
    (not [NaN]). *)
Theorem balance_invariant L (user : number) (r : request) (w : World Tables) :
  leb (Int 0) (balance user (db w)) = true ->
  let result := run tables (call L r) w in
  leb (Int 0) (balance user (db (snd result))) = true
  /\ (L <> NaN -> forall a p,
        r = ChargePoint user a -> fst result = Fulfilled (Point p) ->
        leb (balance user (db (snd result))) L = true).
Proof.
  intros H result. subst result.
  destruct r as [u|u|u a|u a]; simpl; unfold_monad; rewrite run_bind.
  - unfold getPoint. destruct (invalid u); simpl;
      (split; [exact H | intros _ ? ? ?; discriminate]).
  - unfold getHistories. destruct (invalid u); simpl;
      (split; [exact H | intros _ ? ? ?; discriminate]).
  - destruct (invalid u) eqn:Hu;
      [unfold chargePoint; rewrite Hu; simpl;
       split; [exact H | intros _ ? ? _ ?; discriminate]|].
    destruct (invalid a) eqn:Ha;
      [unfold chargePoint; rewrite Hu, Ha; simpl;
       split; [exact H | intros _ ? ? _ ?; discriminate]|].
    rewrite run_chargePoint_tables by assumption.
    apply invalid_false in Ha as (z & Hz & ->).
    destruct (locked _ _); simpl;
      [rewrite db_registered; split; [exact H | intros _ ? ? _ ?; discriminate]|].
    destruct (gtb _ _) eqn:Hgt; simpl;
      [rewrite db_registered; split; [exact H | intros _ ? ? _ ?; discriminate]|].
    destruct (decide (u = user)) as [->|Hne].
    + rewrite balance_committed. split; [now apply add_nonneg|].
      intros HL _ _ _ _. apply gtb_leb; [|exact HL|exact Hgt].
      intros HN%add_Int_NaN. now apply nonneg_not_NaN in H.
    + rewrite balance_committed_ne by exact Hne.
      split; [exact H|]. intros _ ? ? [= ? _] _. congruence.
  - destruct (invalid u) eqn:Hu;
      [unfold usePoint; rewrite Hu; simpl;
       split; [exact H | intros _ ? ? ?; discriminate]|].
    destruct (invalid a) eqn:Ha;
      [unfold usePoint; rewrite Hu, Ha; simpl;
       split; [exact H | intros _ ? ? ?; discriminate]|].
    rewrite run_usePoint_tables by assumption.
    apply invalid_false in Ha as (z & Hz & ->).
    destruct (locked _ _); simpl;
      [rewrite db_registered; split; [exact H | intros _ ? ? ?; discriminate]|].
    destruct (ltb _ _) eqn:Hlt; simpl;
      [rewrite db_registered; split; [exact H | intros _ ? ? ?; discriminate]|].
    split; [|intros _ ? ? ?; discriminate].
    destruct (decide (u = user)) as [->|Hne].
    + rewrite balance_committed.
      apply ltb_false_leb; [|apply Int_not_NaN|exact Hlt].
      intros HN%sub_Int_NaN. now apply nonneg_not_NaN in H.
    + now rewrite balance_committed_ne by exact Hne.
Qed.

Lemma balance_invariant_witness :
  let result := run tables (call (Int 1000) (ChargePoint (Int 1) (Int 500))) initial in
  leb (Int 0) (balance (Int 1) (db (snd result))) = true
  /\ leb (balance (Int 1) (db (snd result))) (Int 1000) = true.
Proof.
  pose proof (balance_invariant (Int 1000) (Int 1)
                (ChargePoint (Int 1) (Int 500)) initial) as H.
  destruct H as [H1 H2].
  - vm_compute. reflexivity.
  - split; [exact H1|].
    apply (H2 (Int_not_NaN 1000) (Int 500)
             (mkUserPoint (Int 1) (add (Int 0) (Int 500)) (Int 0))).
    + reflexivity.
    + vm_compute. reflexivity.
Defined.

(** ** The variant without locks *)

(** Symbolic execution through the collaborators' answers. *)
Ltac answer :=
  match goal with
  | |- context [userDb_selectById ?C ?n ?i ?d] =>
      destruct (userDb_selectById C n i d) as [[?|?] ?]
  | |- context [userDb_insertOrUpdate ?C ?n ?i ?p ?d] =>
      destruct (userDb_insertOrUpdate C n i p d) as [[?|?] ?]
  | |- context [historyDb_selectAllByUserId ?C ?n ?i ?d] =>
      destruct (historyDb_selectAllByUserId C n i d) as [[?|?] ?]
  | |- context [historyDb_insert ?C ?n ?i ?a ?t ?ms ?d] =>
      destruct (historyDb_insert C n i a t ms d) as [[?|?] ?]
  | |- context [if gtb ?x ?y then _ else _] => destruct (gtb x y)
  | |- context [if ltb ?x ?y then _ else _] => destruct (ltb x y)
  end; simpl; unfold on_db; simpl.

Section Variants.
Context {S : Type} (C : Collaborators S).

Lemma run_unguarded_chargePoint L u a (w : World S) :
  invalid u = false -> invalid a = false ->
  run C (Unguarded.chargePoint L u a) w =
  (returned u (now w) (fst (exec C (charge_section L u a) (db w) (now w))),
   set_db (snd (exec C (charge_section L u a) (db w) (now w))) w).
Proof.
  intros Hu Ha. unfold Unguarded.chargePoint, exec, charge_section.
  rewrite Hu, Ha. unfold_monad. simpl. unfold on_db. simpl.
  repeat answer; reflexivity.
Qed.

Lemma run_unguarded_usePoint u a (w : World S) :
  invalid u = false -> invalid a = false ->
  run C (Unguarded.usePoint u a) w =
  (returned u (now w) (fst (exec C (use_section u a) (db w) (now w))),
   set_db (snd (exec C (use_section u a) (db w) (now w))) w).
Proof.
  intros Hu Ha. unfold Unguarded.usePoint, exec, use_section.
  rewrite Hu, Ha. unfold_monad. simpl. unfold on_db. simpl.
  repeat answer; reflexivity.
Qed.

Lemma idle_free u (w : World S) : idle w -> free u w.
Proof. intros H m _. apply H. Qed.

(** C9: a single call of [getPoint], [getHistories], [chargePoint] or
    [usePoint], run alone from a state in which no lock is held, has the
    same outcome (the same returned value or the same error) and leaves
    the same collaborators' state (store and history) in the lock-guarded
    service and in the variant without locks, whatever the collaborators
    and the limit. *)
Theorem guarded_unguarded_equivalent L (r : request) (w : World S) :
  idle w ->
  fst (run C (call L r) w) = fst (run C (call_unguarded L r) w)
  /\ db (snd (run C (call L r) w)) = db (snd (run C (call_unguarded L r) w)).
Proof.
  intros Hi. destruct r as [u|u|u a|u a]; simpl.
  - split; reflexivity.
  - split; reflexivity.
  - unfold_monad. rewrite !run_bind.
    destruct (invalid u) eqn:Hu;
      [unfold chargePoint, Unguarded.chargePoint; rewrite Hu; split; reflexivity|].
    destruct (invalid a) eqn:Ha;
      [unfold chargePoint, Unguarded.chargePoint; rewrite Hu, Ha;
       split; reflexivity|].
    rewrite run_chargePoint, run_unguarded_chargePoint
      by auto using idle_free.
    destruct (returned _ _ _); split; reflexivity.
  - unfold_monad. rewrite !run_bind.
    destruct (invalid u) eqn:Hu;
      [unfold usePoint, Unguarded.usePoint; rewrite Hu; split; reflexivity|].
    destruct (invalid a) eqn:Ha;
      [unfold usePoint, Unguarded.usePoint; rewrite Hu, Ha; split; reflexivity|].
    rewrite run_usePoint, run_unguarded_usePoint by auto using idle_free.
    destruct (returned _ _ _); split; reflexivity.
Qed.

End Variants.

Lemma idle_initial : idle initial.
Proof. intros m. reflexivity. Qed.

Lemma guarded_unguarded_equivalent_witness :
  fst (run tables (call (Int 1000) (ChargePoint (Int 1) (Int 500))) initial)
    = fst (run tables (call_unguarded (Int 1000) (ChargePoint (Int 1) (Int 500))) initial)
  /\ db (snd (run tables (call (Int 1000) (ChargePoint (Int 1) (Int 500))) initial))
    = db (snd (run tables (call_unguarded (Int 1000) (ChargePoint (Int 1) (Int 500))) initial)).
Proof.
  apply (guarded_unguarded_equivalent tables (Int 1000)
           (ChargePoint (Int 1) (Int 500)) initial).
  exact idle_initial.
Defined.

(** ** A history table that rejects *)

Lemma exec_charge_section_rejecting ins e L u a t n :
  (forall n u' a' ty ms t', ins n u' a' ty ms t' = (rejected e, t')) ->
  exec (with_history_insert ins) (charge_section L u a) t n =
  if gtb (add (balance u t) a) L then (Rejected (LimitExceeded L), t)
  else (Rejected e,
        mkTables (<[u := mkUserPoint u (add (balance u t) a) (Int n)]> (userTable t))
          (historyTable t)).
Proof.
  intros Hins. unfold exec, charge_section. unfold_monad. simpl.
  rewrite point_selected.
  destruct (gtb (add (balance u t) a) L); [reflexivity|].
  simpl. unfold on_db. simpl. rewrite Hins. reflexivity.
Qed.

Lemma exec_use_section_rejecting ins e u a t n :
  (forall n u' a' ty ms t', ins n u' a' ty ms t' = (rejected e, t')) ->
  exec (with_history_insert ins) (use_section u a) t n =
  if ltb (sub (balance u t) a) (Int 0) then (Rejected InsufficientPoint, t)
  else (Rejected e,
        mkTables (<[u := mkUserPoint u (sub (balance u t) a) (Int n)]> (userTable t))
          (historyTable t)).
Proof.
  intros Hins. unfold exec, use_section. unfold_monad. simpl.
  rewrite point_selected.
  destruct (ltb (sub (balance u t) a) (Int 0)); [reflexivity|].
  simpl. unfold on_db. simpl. rewrite Hins. reflexivity.
Qed.

Lemma free_after {S} u (d : S) (w : World S) :
  free u w -> free u (set_db d (registered u w)).
Proof.
  intros Hf m Hm. simpl in Hm. rewrite locks_registered in Hm.
  injection Hm as <-. apply (free_registered u w Hf).
Qed.

(** C10: inside the critical section the balance is written before the
    history record is appended.  With a history table whose [insert]
    rejects, [chargePoint] (respectively [usePoint]) on valid arguments
    within the limit (respectively within the balance) is rejected with
    that error although the user's balance is now the new value, the sum
    (respectively the difference) that binary64 arithmetic gives; no
    history record is appended, and the lock is released; the rejections
    by the limit and by an insufficient balance still leave the tables as
    they were.  For an integer balance [B] the new value is [B + amount]
    (respectively [B - amount]) and differs from [B] when it is at most
    [2^53] in magnitude. *)
Theorem history_failure_keeps_write L (u a : Z) ins e (w : World Tables) :
  0 < u -> 0 < a -> free (Int u) w ->
  (forall n u' a' ty ms t, ins n u' a' ty ms t = (rejected e, t)) ->
  let B := balance (Int u) (db w) in
  let charged := run (with_history_insert ins) (chargePoint L (Int u) (Int a)) w in
  let used := run (with_history_insert ins) (usePoint (Int u) (Int a)) w in
  (gtb (add B (Int a)) L = false ->
     fst charged = Rejected e
     /\ balance (Int u) (db (snd charged)) = add B (Int a)
     /\ historyTable (db (snd charged)) = historyTable (db w)
     /\ free (Int u) (snd charged))
  /\ (ltb (sub B (Int a)) (Int 0) = false ->
     fst used = Rejected e
     /\ balance (Int u) (db (snd used)) = sub B (Int a)
     /\ historyTable (db (snd used)) = historyTable (db w)
     /\ free (Int u) (snd used))
  /\ (gtb (add B (Int a)) L = true ->
     fst charged = Rejected (LimitExceeded L) /\ db (snd charged) = db w)
  /\ (ltb (sub B (Int a)) (Int 0) = true ->
     fst used = Rejected InsufficientPoint /\ db (snd used) = db w)
  /\ (forall b, B = Int b ->
        (Z.abs (b + a) <= 2 ^ 53 ->
           add B (Int a) = Int (b + a) /\ add B (Int a) <> B)
        /\ (Z.abs (b - a) <= 2 ^ 53 ->
              sub B (Int a) = Int (b - a) /\ sub B (Int a) <> B)).
Proof.
  intros Hu Ha Hf Hins B charged used. subst charged used.
  rewrite run_chargePoint, run_usePoint by auto using invalid_pos.
  rewrite (exec_charge_section_rejecting ins e) by exact Hins.
  rewrite (exec_use_section_rejecting ins e) by exact Hins.
  fold B. split; [|split; [|split; [|split]]].
  - intros H. rewrite H. repeat split.
    + simpl. unfold balance. simpl. now rewrite lookup_insert_eq.
    + simpl. now apply free_after.
  - intros H. rewrite H. repeat split.
    + simpl. unfold balance. simpl. now rewrite lookup_insert_eq.
    + simpl. now apply free_after.
  - intros H. rewrite H. split; reflexivity.
  - intros H. rewrite H. split; reflexivity.
  - intros b Hb. rewrite Hb. split; intros Hs.
    + rewrite add_Int by exact Hs. split; [reflexivity|].
      intros [= Heq]. lia.
    + rewrite sub_Int by exact Hs. split; [reflexivity|].
      intros [= Heq]. lia.
Qed.

Lemma history_failure_keeps_write_witness :
  let ins := fun (_ : Z) (_ _ : number) (_ : TransactionType) (_ : number)
               (t : Tables) =>
               (@rejected PointHistory (new_Error [Text "insert failed"]), t) in
  let charged :=
    run (with_history_insert ins) (chargePoint (Int 1000) (Int 1) (Int 500)) initial in
  fst charged = Rejected (new_Error [Text "insert failed"])
  /\ balance (Int 1) (db (snd charged)) = add (balance (Int 1) (db initial)) (Int 500)
  /\ add (balance (Int 1) (db initial)) (Int 500) <> balance (Int 1) (db initial).
Proof.
  intros ins charged.
  pose proof (history_failure_keeps_write (Int 1000) 1 500 ins
                (new_Error [Text "insert failed"]) initial) as H.
  destruct H as (H1 & _ & _ & _ & H5).
  - lia.
  - lia.
  - apply free_initial.
  - intros. reflexivity.
  - destruct H1 as (Ha & Hb & _).
    + vm_compute. reflexivity.
    + split; [exact Ha|]. split; [exact Hb|].
      destruct (H5 0 eq_refl) as [H6 _]. apply H6. vm_compute. discriminate.
Defined.

(** At a balance of [2^53], a charge of 1 whose history insert rejects is
    rejected after its balance write, and the balance written is [2^53]:
    it is neither [2^53 + 1] nor different from the balance before. *)
Lemma history_failure_keeps_write_counterexample :
  let ins := fun (_ : Z) (_ _ : number) (_ : TransactionType) (_ : number)
               (t : Tables) =>
               (@rejected PointHistory (new_Error [Text "insert failed"]), t) in
  let w := set_db (mkTables {[Int 1 := mkUserPoint (Int 1) (Int (2 ^ 53)) (Int 0)]} [])
             initial in
  let charged :=
    run (with_history_insert ins) (chargePoint (Int (10 ^ 16)) (Int 1) (Int 1)) w in
  balance (Int 1) (db w) = Int (2 ^ 53)
  /\ 2 ^ 53 + 1 <= 10 ^ 16
  /\ fst charged = Rejected (new_Error [Text "insert failed"])
  /\ balance (Int 1) (db (snd charged)) = Int (2 ^ 53)
  /\ Int (2 ^ 53) <> Int (2 ^ 53 + 1).
Proof.
  intros ins w charged. subst charged.
  assert (Hb : balance (Int 1) (db w) = Int (2 ^ 53)) by reflexivity.
  assert (Hs : add (Int (2 ^ 53)) (Int 1) = Int (2 ^ 53))
    by (apply (bool_decide_unpack _); vm_compute; exact I).
  rewrite run_chargePoint
    by (try reflexivity; intros m Hm; discriminate Hm).
  rewrite (exec_charge_section_rejecting ins (new_Error [Text "insert failed"]))
    by reflexivity.
  rewrite Hb, Hs.
  assert (gtb (Int (2 ^ 53)) (Int (10 ^ 16)) = false) as ->
    by (vm_compute; reflexivity).
  split; [reflexivity|]. split; [lia|]. split; [reflexivity|]. split.
  - simpl. unfold balance. simpl. now rewrite lookup_insert_eq.
  - intros [= H].
Qed.

(** ** Turns of the event loop *)

Section Turns.
Context {S : Type} (C : Collaborators S).

Lemma enabled_sync {X} (o : op X) (w : World S) :
  is_async o = false -> enabled o w = true.
Proof. destruct o; simpl; congruence. Qed.

(** The turn of a call whose next operation is synchronous (a call just
    made) is its synchronous prefix. *)
Lemma turn_sync {A X} i (o : op X) k (w : World S) (ts : list (prog A)) :
  ts !! i = Some (Vis o k) -> is_async o = false ->
  turn C i (w, ts) =
  Some (snd (advance C (Vis o k) w), <[i := fst (advance C (Vis o k) w)]> ts).
Proof.
  intros Hi Ho. unfold turn. rewrite Hi, (enabled_sync o w Ho). simpl.
  rewrite Ho. destruct (handle C o w) as [r w1].
  destruct (advance C (k r) w1) as [p w2]. reflexivity.
Qed.

Lemma turn_async {A X} i (o : op X) k (w : World S) (ts : list (prog A)) :
  ts !! i = Some (Vis o k) -> enabled o w = true ->
  turn C i (w, ts) =
  Some (snd (advance C (k (fst (handle C o w))) (snd (handle C o w))),
        <[i := fst (advance C (k (fst (handle C o w))) (snd (handle C o w)))]> ts).
Proof.
  intros Hi Ho. unfold turn. rewrite Hi, Ho.
  destruct (handle C o w) as [r w1]. simpl.
  destruct (advance C (k r) w1) as [p w2]. reflexivity.
Qed.

Lemma turn_settled {A} i (w : World S) (ts : list (prog A)) p :
  ts !! i = Some p -> is_settled p = true -> turn C i (w, ts) = None.
Proof. intros Hi Hp. unfold turn. rewrite Hi. now destruct p. Qed.

Lemma lockless_sync {X} (o : op X) (w : World S) :
  lockless_op o = true -> is_async o = false ->
  exists x, handle C o w = (fulfilled x, w).
Proof.
  destruct o; simpl; try discriminate. intros _ _. eexists. reflexivity.
Qed.

Lemma lockless_frame {X} (o : op X) (w : World S) :
  lockless_op o = true ->
  locks (snd (handle C o w)) = locks w
  /\ mutexes (snd (handle C o w)) = mutexes w
  /\ now (snd (handle C o w)) = now w.
Proof.
  intros Ho. destruct (lockless_handle C o w Ho) as [_ ->]. simpl. auto.
Qed.

(** The synchronous prefix of a lockless call reads the clock at most. *)
Lemma advance_lockless {A} (p : prog A) (w : World S) :
  lockless p ->
  snd (advance C p w) = w
  /\ lockless (fst (advance C p w))
  /\ parked (fst (advance C p w)) = true
  /\ run C (fst (advance C p w)) w = run C p w.
Proof.
  induction p as [a|e|X o k IH]; intros Hp; simpl; auto.
  destruct Hp as [Ho Hk]. destruct (is_async o) eqn:Ha; simpl.
  - rewrite Ha. repeat split; auto.
  - destruct (lockless_sync o w Ho Ha) as [x Hx]. rewrite Hx.
    rewrite (enabled_sync o w Ha). apply IH, Hk.
Qed.

(** The turn that follows in a call that holds the lock [m]: the call
    stays in its callback, or leaves it, releases the lock and settles. *)
Lemma advance_holding m (b : prog number) u (w : World S) :
  lockless b ->
  advance C (holding m b u) w =
  match fst (advance C b w) with
  | Vis o k => (holding m (Vis o k) u, w)
  | Ret v => (Ret (Point (mkUserPoint u v (Int (now w)))), set_mutex m false w)
  | Throw e => (Throw e, set_mutex m false w)
  end.
Proof.
  induction b as [v|e|X o k IH]; intros Hb; simpl; try reflexivity.
  destruct Hb as [Ho Hk]. destruct (is_async o) eqn:Ha; [reflexivity|].
  destruct (lockless_sync o w Ho Ha) as [x ->]. apply IH, Hk.
Qed.

Lemma advance_parked {A} (p : prog A) (w : World S) :
  parked p = true -> advance C p w = (p, w).
Proof. destruct p; simpl; try reflexivity. now intros ->. Qed.

(** The first turn of a valid [chargePoint] or [usePoint] registers the
    user's lock and leaves the call waiting for it. *)
Lemma advance_call L u r (w : World S) :
  mutation_of u r -> valid r = true ->
  advance C (call L r) w =
  (guarded (mutex_for u w) (section_of L r) u, registered u w).
Proof.
  intros [a [-> | ->]] [Hu Ha]%andb_true_iff;
    apply negb_true_iff in Hu; apply negb_true_iff in Ha; simpl call;
    [unfold chargePoint | unfold usePoint]; rewrite Hu, Ha;
    unfold guarded, mutex_for, registered, getMutexForUser; unfold_monad; simpl;
    (destruct (locks w !! u) as [m|] eqn:E; simpl;
     [rewrite E | rewrite lookup_insert_eq]; reflexivity).
Qed.

Lemma call_invalid L u r :
  mutation_of u r -> valid r = false -> exists e, call L r = Throw e.
Proof.
  intros [a [-> | ->]] Hv; simpl in *; unfold chargePoint, usePoint;
    destruct (invalid u); simpl in *; try (eexists; reflexivity);
    destruct (invalid a); simpl in *; try discriminate; eexists; reflexivity.
Qed.

Lemma run_call L u r (w : World S) :
  mutation_of u r -> valid r = true -> free u w ->
  run C (call L r) w =
  (outcome_map Point
     (returned u (now w) (fst (exec C (section_of L r) (db w) (now w)))),
   set_db (snd (exec C (section_of L r) (db w) (now w))) (registered u w)).
Proof.
  intros [a [-> | ->]] [Hu Ha]%andb_true_iff Hf;
    apply negb_true_iff in Hu; apply negb_true_iff in Ha; simpl call;
    unfold_monad; rewrite run_bind;
    [rewrite run_chargePoint by assumption
    |rewrite run_usePoint by assumption];
    simpl; destruct (returned _ _ _); reflexivity.
Qed.

Lemma lockless_section_of L r : lockless (section_of L r).
Proof.
  destruct r; simpl; try exact I.
  - apply lockless_charge_section.
  - apply lockless_use_section.
Qed.

Lemma parked_section_of L u r :
  mutation_of u r ->
  parked (section_of L r) = true /\ is_settled (section_of L r) = false.
Proof. intros [a [-> | ->]]; split; reflexivity. Qed.

Lemma registered_id u m (w : World S) :
  locks w !! u = Some m -> registered u w = w /\ mutex_for u w = m.
Proof.
  intros H. unfold registered, mutex_for.
  destruct (locks w !! u); [|discriminate]. injection H as ->. now split.
Qed.

Lemma registered_wf u (w : World S) :
  (forall k m, locks w !! k = Some m -> (m < length (mutexes w))%nat) ->
  forall k m, locks (registered u w) !! k = Some m ->
              (m < length (mutexes (registered u w)))%nat.
Proof.
  intros Hwf k m. unfold registered.
  destruct (locks w !! u) eqn:E; [apply Hwf|]. simpl.
  rewrite length_app. simpl. rewrite lookup_insert.
  case_decide; [intros [= <-]; lia|]. intros Hk%Hwf. lia.
Qed.

Lemma registered_idle u (w : World S) : idle w -> idle (registered u w).
Proof.
  intros Hi m. unfold registered. destruct (locks w !! u); [apply Hi|].
  unfold locked. simpl. apply bool_decide_eq_false.
  specialize (Hi m). apply bool_decide_eq_false in Hi.
  intros [H|[_ H]]%lookup_app_Some; [contradiction|].
  destruct (m - length (mutexes w))%nat as [|[|]]; simpl in H; congruence.
Qed.

Lemma free_registered' u (w : World S) : free u w -> free u (registered u w).
Proof.
  intros Hf m Hm. rewrite locks_registered in Hm.
  injection Hm as <-. now apply free_registered.
Qed.

End Turns.

(** ** Requests one after the other *)

Section Serial.
Context {S : Type} (C : Collaborators S) (L : number).

Lemma run_seq_app rs1 rs2 (w : World S) :
  run_seq C L (rs1 ++ rs2) w =
  (fst (run_seq C L rs1 w) ++ fst (run_seq C L rs2 (snd (run_seq C L rs1 w))),
   snd (run_seq C L rs2 (snd (run_seq C L rs1 w)))).
Proof.
  revert w. induction rs1 as [|r rs1 IH]; intros w; simpl.
  - now destruct (run_seq C L rs2 w).
  - destruct (run C (call L r) w) as [o w1]. rewrite IH.
    destruct (run_seq C L rs1 w1) as [os w2]. simpl.
    now destruct (run_seq C L rs2 w2).
Qed.

Lemma set_db_idle d (w : World S) : idle w -> idle (set_db d w).
Proof. intros H m. apply H. Qed.

(** A call made when no lock is held leaves no lock held, and the clock
    as it was. *)
Lemma run_call_idle r (w : World S) :
  idle w ->
  idle (snd (run C (call L r) w)) /\ now (snd (run C (call L r) w)) = now w.
Proof.
  intros Hi. destruct r as [u|u|u a|u a]; simpl; unfold_monad; rewrite run_bind.
  - unfold getPoint. destruct (invalid u); simpl; [now split|].
    unfold on_db. destruct (userDb_selectById C (now w) u (db w)) as [[?|?] ?];
      simpl; split; auto using set_db_idle.
  - unfold getHistories. destruct (invalid u); simpl; [now split|].
    unfold on_db.
    destruct (historyDb_selectAllByUserId C (now w) u (db w)) as [[?|?] ?];
      simpl; split; auto using set_db_idle.
  - destruct (invalid u) eqn:Hu;
      [unfold chargePoint; rewrite Hu; simpl; now split|].
    destruct (invalid a) eqn:Ha;
      [unfold chargePoint; rewrite Hu, Ha; simpl; now split|].
    rewrite run_chargePoint by auto using idle_free.
    destruct (returned _ _ _); simpl;
      (split; [apply set_db_idle, registered_idle, Hi | apply now_registered]).
  - destruct (invalid u) eqn:Hu;
      [unfold usePoint; rewrite Hu; simpl; now split|].
    destruct (invalid a) eqn:Ha;
      [unfold usePoint; rewrite Hu, Ha; simpl; now split|].
    rewrite run_usePoint by auto using idle_free.
    destruct (returned _ _ _); simpl;
      (split; [apply set_db_idle, registered_idle, Hi | apply now_registered]).
Qed.

Lemma run_seq_idle rs (w : World S) :
  idle w ->
  idle (snd (run_seq C L rs w)) /\ now (snd (run_seq C L rs w)) = now w.
Proof.
  revert w. induction rs as [|r rs IH]; intros w Hi; simpl; [now split|].
  destruct (run_call_idle r w Hi) as [Hi1 Hn1].
  destruct (run C (call L r) w) as [o w1]. simpl in *.
  destruct (IH w1 Hi1) as [Hi2 Hn2].
  destruct (run_seq C L rs w1) as [os w2]. simpl in *. split; congruence.
Qed.

(** One operation of a lockless callback, seen from the tables. *)
Lemma exec_step {A X} (o : op X) (k : settled X -> prog A) (w : World S) :
  lockless_op o = true -> (forall r, lockless (k r)) ->
  exec C (Vis o k) (db w) (now w) =
  exec C (k (fst (handle C o w))) (db (snd (handle C o w)))
    (now (snd (handle C o w))).
Proof.
  intros Ho Hk. unfold exec at 1. simpl.
  destruct (lockless_handle C o (mkWorld ∅ [] (db w) (now w)) Ho) as [-> _].
  destruct (lockless_handle C o w Ho) as [_ ->]. simpl.
  destruct (handle C o (mkWorld ∅ [] (db w) (now w))) as [r w1] eqn:E. simpl.
  rewrite run_lockless by apply Hk. simpl.
  pose proof (lockless_frame C o (mkWorld ∅ [] (db w) (now w)) Ho) as (_ & _ & Hn).
  rewrite E in Hn. simpl in Hn. rewrite Hn.
  now destruct (exec C (k r) (db w1) (now w)).
Qed.

Lemma exec_advance {A} (p : prog A) (w : World S) :
  lockless p ->
  exec C (fst (advance C p w)) (db w) (now w) = exec C p (db w) (now w).
Proof.
  intros Hp.
  pose proof (advance_lockless C p w Hp) as (_ & Hl & _ & Hr).
  pose proof (run_lockless C _ w Hl) as H1.
  pose proof (run_lockless C _ w Hp) as H2.
  rewrite Hr, H2 in H1. injection H1 as H1 H1'.
  apply injective_projections; congruence.
Qed.

End Serial.

(** ** Concurrent calls on one user *)

Section Pool.
Context {S : Type} (C : Collaborators S) (L u : number).
Context (reqs : list request) (w0 : World S).
Hypothesis Hreqs : Forall (mutation_of u) reqs.
Hypothesis Hquiet : quiet w0.

Lemma quiet_idle : idle w0.
Proof. exact (proj2 Hquiet). Qed.

Lemma mutation_at i r : reqs !! i = Some r -> mutation_of u r.
Proof. intros H. eapply Forall_lookup_1; eauto. Qed.

Lemma serial_idle order :
  idle (snd (run_seq C L (pick reqs order) w0))
  /\ now (snd (run_seq C L (pick reqs order) w0)) = now w0.
Proof. apply run_seq_idle, quiet_idle. Qed.

Lemma inv_init : serial_inv C L u reqs w0 [] None w0 (call L <$> reqs).
Proof.
  split; simpl.
  - apply length_fmap.
  - reflexivity.
  - exact (proj1 Hquiet).
  - constructor.
  - discriminate.
  - constructor.
  - intros _. split; [reflexivity|]. apply idle_free, quiet_idle.
  - intros i r Hr _.
    left. rewrite list_lookup_fmap, Hr. reflexivity.
Qed.

Lemma done_insert (ts : list (prog response)) order outs i
    (p : prog response) :
  i ∉ order ->
  Forall2
    (fun j o =>
       (j < length reqs)%nat /\ valid (reqs !!! j) = true /\
       exists q, ts !! j = Some q /\ settled_call q = Some o) order outs ->
  Forall2
    (fun j o =>
       (j < length reqs)%nat /\ valid (reqs !!! j) = true /\
       exists q, <[i := p]> ts !! j = Some q /\ settled_call q = Some o)
    order outs.
Proof.
  intros Hi H. induction H as [|j o order outs (Hj & Hv & q & Hq & Ho) _ IH].
  - constructor.
  - apply not_elem_of_cons in Hi as [Hne Hi]. constructor; [|now apply IH].
    split; [exact Hj|]. split; [exact Hv|]. exists q.
    now rewrite list_lookup_insert_ne.
Qed.

(** The first turn of a call: it registers the lock and waits for it. *)
Lemma inv_step_fresh order hold w ts i r :
  serial_inv C L u reqs w0 order hold w ts ->
  reqs !! i = Some r -> i ∉ order -> hold <> Some i ->
  ts !! i = Some (call L r) -> valid r = true ->
  serial_inv C L u reqs w0 order hold (registered u w)
    (<[i := guarded (mutex_for u w) (section_of L r) u]> ts).
Proof.
  intros [Hlen Hnow Hwf Hnd Hhold Hdone Hfree Hrest] Hr Hi Hh Hti Hv.
  assert (Hkeep : forall m, locks w !! u = Some m -> registered u w = w).
  { intros m Hm. exact (proj1 (registered_id u m w Hm)). }
  split.
  - now rewrite length_insert.
  - now rewrite now_registered.
  - now apply registered_wf.
  - exact Hnd.
  - exact Hhold.
  - now apply done_insert.
  - intros Hn. destruct (Hfree Hn) as [Hdb Hf]. rewrite db_registered.
    split; [exact Hdb|]. now apply free_registered'.
  - intros j rj Hrj Hj. specialize (Hrest j rj Hrj Hj).
    destruct (decide (j = i)) as [->|Hne].
    + case_decide; [contradiction|]. right.
      assert (rj = r) as -> by congruence.
      split; [exact Hv|]. exists (mutex_for u w). split.
      * apply list_lookup_insert_eq. apply lookup_lt_Some in Hti. lia.
      * apply locks_registered.
    + rewrite list_lookup_insert_ne by congruence.
      case_decide.
      * destruct Hrest as (Hvj & m & b & Htj & Hm & Hl & Hrest).
        rewrite (Hkeep m Hm). split; [exact Hvj|]. now exists m, b.
      * destruct Hrest as [Htj|(Hvj & m & Htj & Hm)]; [now left|right].
        rewrite (Hkeep m Hm). split; [exact Hvj|]. now exists m.
Qed.

(** The turn of a waiting call when the lock is free: it enters its
    critical section. *)
Lemma inv_step_acquire order hold w ts i r m :
  serial_inv C L u reqs w0 order hold w ts ->
  reqs !! i = Some r -> i ∉ order -> hold <> Some i -> valid r = true ->
  ts !! i = Some (guarded m (section_of L r) u) ->
  locks w !! u = Some m -> locked m w = false ->
  serial_inv C L u reqs w0 order (Some i) (set_mutex m true w)
    (<[i := holding m (section_of L r) u]> ts).
Proof.
  intros [Hlen Hnow Hwf Hnd Hhold Hdone Hfree Hrest] Hr Hi Hh Hv Hti Hm Hl.
  destruct hold as [h|].
  { exfalso. destruct (Hhold h eq_refl) as [Hho Hhl].
    destruct (lookup_lt_is_Some_2 reqs h Hhl) as [rh Hrh].
    specialize (Hrest h rh Hrh Hho). rewrite decide_True in Hrest by reflexivity.
    destruct Hrest as (_ & m' & b & _ & Hm' & Hl' & _). congruence. }
  destruct (Hfree eq_refl) as [Hdb Hf].
  split.
  - now rewrite length_insert.
  - exact Hnow.
  - intros k m' Hk. simpl. rewrite length_insert. now apply (Hwf k).
  - exact Hnd.
  - intros h [= <-]. split; [exact Hi|]. now apply lookup_lt_Some in Hr.
  - now apply done_insert.
  - discriminate.
  - intros j rj Hrj Hj. specialize (Hrest j rj Hrj Hj).
    rewrite decide_False in Hrest by discriminate.
    destruct (decide (j = i)) as [->|Hne].
    + rewrite decide_True by reflexivity.
      assert (rj = r) as -> by congruence.
      split; [exact Hv|]. exists m, (section_of L r).
      destruct (parked_section_of L u r (mutation_at i r Hr)) as [Hp Hs].
      repeat split.
      * apply list_lookup_insert_eq. apply lookup_lt_Some in Hti. lia.
      * exact Hm.
      * unfold locked. simpl. apply bool_decide_eq_true.
        apply list_lookup_insert_eq. now apply (Hwf u).
      * apply lockless_section_of.
      * exact Hp.
      * exact Hs.
      * simpl. now rewrite Hdb.
    + rewrite decide_False by congruence.
      rewrite list_lookup_insert_ne by congruence. exact Hrest.
Qed.

(** A turn inside the critical section that stays inside. *)
Lemma inv_stay order w ts i r m (b' : prog number) w1 :
  serial_inv C L u reqs w0 order (Some i) w ts ->
  reqs !! i = Some r -> locks w !! u = Some m -> locked m w = true ->
  locks w1 = locks w -> mutexes w1 = mutexes w -> now w1 = now w ->
  lockless b' -> parked b' = true -> is_settled b' = false ->
  exec C b' (db w1) (now w1)
  = exec C (section_of L r)
      (db (snd (run_seq C L (pick reqs order) w0))) (now w) ->
  serial_inv C L u reqs w0 order (Some i) w1 (<[i := holding m b' u]> ts).
Proof.
  intros [Hlen Hnow Hwf Hnd Hhold Hdone Hfree Hrest] Hr Hm Hl
    Hlocks Hmut Hnow1 Hlb Hp Hs Hexec.
  destruct (Hhold i eq_refl) as [Hi Hil].
  split.
  - now rewrite length_insert.
  - congruence.
  - rewrite Hlocks, Hmut. exact Hwf.
  - exact Hnd.
  - exact Hhold.
  - now apply done_insert.
  - discriminate.
  - intros j rj Hrj Hj. specialize (Hrest j rj Hrj Hj).
    destruct (decide (j = i)) as [->|Hne].
    + rewrite decide_True in * by reflexivity.
      assert (rj = r) as -> by congruence.
      destruct Hrest as (Hv & _). split; [exact Hv|]. exists m, b'.
      repeat split; try assumption.
      * apply list_lookup_insert_eq. lia.
      * congruence.
      * unfold locked in *. now rewrite Hmut.
      * now rewrite Hnow1 in *.
    + rewrite decide_False in * by congruence.
      rewrite list_lookup_insert_ne by congruence.
      now rewrite Hlocks.
Qed.

(** The turn that leaves the critical section: the call is settled as the
    request made after those of [order] settles. *)
Lemma inv_leave order w ts i r m (o : outcome number) (p : prog response) w1 :
  serial_inv C L u reqs w0 order (Some i) w ts ->
  reqs !! i = Some r -> valid r = true -> locks w !! u = Some m ->
  locks w1 = locks w -> mutexes w1 = mutexes w -> now w1 = now w ->
  exec C (section_of L r)
    (db (snd (run_seq C L (pick reqs order) w0))) (now w) = (o, db w1) ->
  settled_call p = Some (outcome_map Point (returned u (now w) o)) ->
  serial_inv C L u reqs w0 (order ++ [i]) None (set_mutex m false w1)
    (<[i := p]> ts).
Proof.
  intros [Hlen Hnow Hwf Hnd Hhold Hdone Hfree Hrest] Hr Hv Hm
    Hlocks Hmut Hnow1 Hexec Hp.
  destruct (Hhold i eq_refl) as [Hi Hil].
  destruct (serial_idle order) as [Hidle Hnows].
  assert (Hseq :
    run_seq C L (pick reqs (order ++ [i])) w0 =
    (fst (run_seq C L (pick reqs order) w0)
       ++ [outcome_map Point (returned u (now w) o)],
     set_db (db w1) (registered u (snd (run_seq C L (pick reqs order) w0))))).
  { unfold pick. rewrite fmap_app. fold (pick reqs order). rewrite run_seq_app.
    simpl. rewrite (list_lookup_total_correct _ _ _ Hr).
    rewrite (run_call C L u r) by eauto using mutation_at, idle_free.
    rewrite Hnows, <- Hnow, Hexec. reflexivity. }
  split.
  - now rewrite length_insert.
  - simpl. congruence.
  - intros k m' Hk. simpl in *. rewrite length_insert, Hmut.
    apply (Hwf k). now rewrite <- Hlocks.
  - apply NoDup_app. split; [exact Hnd|]. split; [|apply NoDup_singleton].
    intros x Hx ->%list_elem_of_singleton. contradiction.
  - discriminate.
  - rewrite Hseq. simpl. apply Forall2_app.
    + now apply done_insert.
    + constructor; [|constructor]. split; [exact Hil|].
      rewrite (list_lookup_total_correct _ _ _ Hr). split; [exact Hv|].
      exists p. split; [|exact Hp]. apply list_lookup_insert_eq. lia.
  - intros _. rewrite Hseq. simpl. split; [reflexivity|].
    intros m' Hm'. simpl in Hm'. rewrite Hlocks in Hm'.
    assert (m' = m) as -> by congruence.
    unfold locked. simpl. apply bool_decide_eq_false.
    destruct (decide (m < length (mutexes w1))%nat).
    + rewrite list_lookup_insert_eq by assumption. congruence.
    + rewrite lookup_ge_None_2 by (rewrite length_insert; lia). congruence.
  - intros j rj Hrj [Hj Hne]%not_elem_of_app.
    apply not_elem_of_cons in Hne as [Hne _].
    specialize (Hrest j rj Hrj Hj).
    rewrite decide_False in Hrest by congruence.
    rewrite decide_False by discriminate.
    rewrite list_lookup_insert_ne by congruence.
    simpl. now rewrite Hlocks.
Qed.

Lemma holding_Vis m {X} (o : op X) k :
  holding m (Vis o k) u = Vis o (fun r => holding m (k r) u).
Proof. reflexivity. Qed.

Lemma turn_guarded (ts : list (prog response)) i m callback (w : World S) :
  ts !! i = Some (guarded m callback u) ->
  turn C i (w, ts) =
  if locked m w then None
  else Some (snd (advance C (holding m callback u) (set_mutex m true w)),
             <[i := fst (advance C (holding m callback u) (set_mutex m true w))]> ts).
Proof.
  intros Hi. unfold turn. rewrite Hi. unfold guarded, runExclusive.
  unfold_monad. simpl. destruct (locked m w); simpl; [reflexivity|].
  match goal with
  | |- (let '(_, _) := ?e in _) = _ =>
      change e with (advance C (holding m callback u) (set_mutex m true w))
  end.
  now destruct (advance C (holding m callback u) (set_mutex m true w)).
Qed.

Lemma turn_fresh (ts : list (prog response)) i r (w : World S) :
  ts !! i = Some (call L r) -> mutation_of u r -> valid r = true ->
  turn C i (w, ts) =
  Some (registered u w, <[i := guarded (mutex_for u w) (section_of L r) u]> ts).
Proof.
  intros Hi Hr Hv. pose proof (advance_call C L u r w Hr Hv) as Ha.
  unfold turn. rewrite Hi. clear Hi.
  destruct Hr as [a [-> | ->]]; apply andb_true_iff in Hv as [Hu Hva];
    apply negb_true_iff in Hu; apply negb_true_iff in Hva;
    simpl call in *; [unfold chargePoint in * | unfold usePoint in *];
    rewrite Hu, Hva in *; unfold getMutexForUser in *; unfold_monad;
    simpl in *; destruct (advance _ _ w) as [p w2];
    injection Ha as -> ->; reflexivity.
Qed.

(** Every turn of the pool keeps the invariant. *)
Lemma inv_step order hold w ts i c' :
  serial_inv C L u reqs w0 order hold w ts ->
  turn C i (w, ts) = Some c' ->
  exists order' hold', serial_inv C L u reqs w0 order' hold' (fst c') (snd c').
Proof.
  intros Inv Ht.
  destruct (ts !! i) as [p|] eqn:Hti;
    [|unfold turn in Ht; rewrite Hti in Ht; discriminate].
  assert (Hil : (i < length reqs)%nat).
  { rewrite <- (inv_len _ _ _ _ _ _ _ _ _ Inv). now apply lookup_lt_Some in Hti. }
  destruct (lookup_lt_is_Some_2 reqs i Hil) as [r Hr].
  destruct (decide (i ∈ order)) as [Hin|Hnin].
  { exfalso. apply list_elem_of_lookup in Hin as [j Hj].
    destruct (Forall2_lookup_l _ _ _ _ _ (inv_done _ _ _ _ _ _ _ _ _ Inv) Hj)
      as (o & _ & _ & _ & q & Hq & Ho).
    rewrite (turn_settled C i w ts q Hq) in Ht; [discriminate|].
    now destruct q. }
  pose proof (inv_rest _ _ _ _ _ _ _ _ _ Inv i r Hr Hnin) as Hrest.
  destruct (decide (hold = Some i)) as [->|Hh].
  - destruct Hrest as (Hv & m & b & Htb & Hm & Hl & Hlb & Hp & Hs & Hexec).
    destruct b as [?|?|X o k]; try discriminate Hs.
    destruct Hlb as [Ho Hk]. simpl in Hp.
    rewrite holding_Vis in Htb.
    rewrite (turn_async C i o _ w ts Htb) in Ht
      by apply (lockless_handle C o w Ho).
    injection Ht as <-. simpl.
    destruct (lockless_frame C o w Ho) as (Hlocks & Hmut & Hnow1).
    rewrite (exec_step C o k w Ho Hk) in Hexec.
    rewrite <- (exec_advance C _ _ (Hk (fst (handle C o w)))) in Hexec.
    rewrite advance_holding by apply Hk.
    destruct (advance_lockless C _ (snd (handle C o w)) (Hk (fst (handle C o w))))
      as (_ & Hlb' & Hp' & _).
    destruct (fst (advance C (k (fst (handle C o w))) (snd (handle C o w))))
      as [v|e|X' o' k'] eqn:Eb; simpl.
    + exists (order ++ [i]), None.
      eapply inv_leave with (o := Fulfilled v); eauto.
      simpl. now rewrite Hnow1.
    + exists (order ++ [i]), None.
      eapply inv_leave with (o := Rejected e); eauto.
    + exists order, (Some i). eapply inv_stay; eauto.
  - destruct Hrest as [Hfresh | (Hv & m & Hg & Hm)].
    + assert (p = call L r) as -> by congruence.
      destruct (valid r) eqn:Hv.
      * rewrite (turn_fresh ts i r w Hti (mutation_at i r Hr) Hv) in Ht.
        injection Ht as <-. exists order, hold. simpl.
        now apply inv_step_fresh.
      * destruct (call_invalid L u r (mutation_at i r Hr) Hv) as [e He].
        rewrite He in Hti. now rewrite (turn_settled C i w ts _ Hti) in Ht.
    + rewrite (turn_guarded ts i m _ w Hg) in Ht.
      destruct (locked m w) eqn:Hl; [discriminate|]. injection Ht as <-.
      rewrite advance_holding by apply lockless_section_of.
      destruct (parked_section_of L u r (mutation_at i r Hr)) as [Hp Hs].
      rewrite advance_parked by exact Hp. simpl.
      exists order, (Some i).
      pose proof (inv_step_acquire order hold w ts i r m Inv Hr Hnin Hh Hv Hg Hm Hl)
        as Hacq.
      destruct (section_of L r); try discriminate Hs. exact Hacq.
Qed.

Lemma inv_reach w ts :
  rtc (step C) (w0, call L <$> reqs) (w, ts) ->
  exists order hold, serial_inv C L u reqs w0 order hold w ts.
Proof.
  intros H.
  apply (rtc_ind_r
           (fun c => exists order hold,
                serial_inv C L u reqs w0 order hold (fst c) (snd c))
           (w0, call L <$> reqs)) in H; [exact H| |].
  - exists [], None. apply inv_init.
  - intros [w1 ts1] c2 _ [i Hi] (order & hold & Inv). simpl in Inv.
    eapply inv_step; eauto.
Qed.

Lemma in_critical_section_call r :
  mutation_of u r -> in_critical_section (call L r) = false.
Proof.
  intros [a [-> | ->]]; simpl; unfold chargePoint, usePoint;
    destruct (invalid u); try reflexivity; destruct (invalid a); reflexivity.
Qed.

(** Only the call registered as inside awaits a table. *)
Lemma inv_inside order hold w ts i p :
  serial_inv C L u reqs w0 order hold w ts ->
  ts !! i = Some p -> in_critical_section p = true -> hold = Some i.
Proof.
  intros Inv Hti Hp.
  assert (Hil : (i < length reqs)%nat).
  { rewrite <- (inv_len _ _ _ _ _ _ _ _ _ Inv). now apply lookup_lt_Some in Hti. }
  destruct (lookup_lt_is_Some_2 reqs i Hil) as [r Hr].
  destruct (decide (i ∈ order)) as [Hin|Hnin].
  { exfalso. apply list_elem_of_lookup in Hin as [j Hj].
    destruct (Forall2_lookup_l _ _ _ _ _ (inv_done _ _ _ _ _ _ _ _ _ Inv) Hj)
      as (o & _ & _ & _ & q & Hq & Ho).
    assert (q = p) as -> by congruence. now destruct p. }
  pose proof (inv_rest _ _ _ _ _ _ _ _ _ Inv i r Hr Hnin) as Hrest.
  destruct (decide (hold = Some i)) as [->|Hh]; [reflexivity|]. exfalso.
  destruct Hrest as [Hfresh | (Hv & m & Hg & Hm)].
  - assert (p = call L r) as -> by congruence.
    now rewrite (in_critical_section_call r (mutation_at i r Hr)) in Hp.
  - assert (p = guarded m (section_of L r) u) as -> by congruence.
    discriminate Hp.
Qed.

Lemma run_settled {A} (p : prog A) o (w : World S) :
  settled_call p = Some o -> run C p w = (o, w).
Proof. destruct p; simpl; intros [= <-]; reflexivity. Qed.

Lemma is_settled_call {A} (p : prog A) :
  is_settled p = true -> exists o, settled_call p = Some o.
Proof. destruct p; simpl; try discriminate; eauto. Qed.

(** Settled calls that never entered the critical section were rejected
    at once; made one after the other, they change nothing. *)
Lemma run_seq_outside order w ts l (ws : World S) :
  serial_inv C L u reqs w0 order None w ts ->
  Forall (fun p => is_settled p = true) ts ->
  Forall (fun i => (i ∉ order) /\ (i < length reqs)%nat) l ->
  snd (run_seq C L (pick reqs l) ws) = ws
  /\ Forall2 (fun i o => exists p, ts !! i = Some p /\ settled_call p = Some o)
       l (fst (run_seq C L (pick reqs l) ws)).
Proof.
  intros Inv Hall Hl. induction Hl as [|i l [Hi Hil] _ IH]; simpl.
  - split; constructor.
  - destruct (lookup_lt_is_Some_2 reqs i Hil) as [r Hr].
    rewrite (list_lookup_total_correct _ _ _ Hr).
    pose proof (inv_rest _ _ _ _ _ _ _ _ _ Inv i r Hr Hi) as Hrest.
    simpl in Hrest.
    assert (Hp : exists o, ts !! i = Some (call L r)
                           /\ settled_call (call L r) = Some o).
    { destruct Hrest as [Hf | (_ & m & Hg & _)].
      - pose proof (Forall_lookup_1 _ _ _ _ Hall Hf) as Hs.
        destruct (is_settled_call _ Hs) as [o Ho]. eauto.
      - pose proof (Forall_lookup_1 _ _ _ _ Hall Hg) as Hs. discriminate Hs. }
    destruct Hp as (o & Hf & Ho).
    rewrite (run_settled _ o ws Ho).
    destruct IH as [IH1 IH2].
    destruct (run_seq C L (pick reqs l) ws) as [os w2]. simpl in *.
    split; [exact IH1|]. constructor; [eauto | exact IH2].
Qed.

Lemma order_complete (order : list nat) n :
  NoDup order -> Forall (fun i => (i < n)%nat) order ->
  order ++ filter (fun i => i ∉ order) (seq 0 n) ≡ₚ seq 0 n.
Proof.
  intros Hnd Hlt.
  rewrite <- (filter_app_complement (fun i => i ∈ order) (seq 0 n)) at 2.
  apply Permutation_app_tail. apply NoDup_Permutation.
  - exact Hnd.
  - apply NoDup_filter, NoDup_seq.
  - intros i. rewrite list_elem_of_filter, elem_of_seq. split.
    + intros Hi. split; [exact Hi|].
      pose proof (proj1 (Forall_forall _ _) Hlt i Hi). simpl in *. lia.
    + now intros [Hi _].
Qed.

(** Serializability: once every call is settled, the calls are settled,
    and the tables are left, as by the same requests made one after the
    other in some order. *)
Lemma serializable w ts :
  rtc (step C) (w0, call L <$> reqs) (w, ts) ->
  Forall (fun p => is_settled p = true) ts ->
  exists order,
    order ≡ₚ seq 0 (length reqs)
    /\ db (snd (run_seq C L (pick reqs order) w0)) = db w
    /\ Forall2 (fun i o => exists p, ts !! i = Some p /\ settled_call p = Some o)
         order (fst (run_seq C L (pick reqs order) w0)).
Proof.
  intros Hreach Hall. destruct (inv_reach w ts Hreach) as (order & hold & Inv).
  assert (hold = None) as ->.
  { destruct hold as [h|]; [exfalso|reflexivity].
    destruct (inv_hold _ _ _ _ _ _ _ _ _ Inv h eq_refl) as [Hho Hhl].
    destruct (lookup_lt_is_Some_2 reqs h Hhl) as [rh Hrh].
    pose proof (inv_rest _ _ _ _ _ _ _ _ _ Inv h rh Hrh Hho) as Hrest.
    rewrite decide_True in Hrest by reflexivity.
    destruct Hrest as (_ & m & b & Htb & _ & _ & _ & _ & Hs & _).
    pose proof (Forall_lookup_1 _ _ _ _ Hall Htb) as Hsb.
    destruct b; discriminate. }
  set (rest := filter (fun i => i ∉ order) (seq 0 (length reqs))).
  pose proof (inv_done _ _ _ _ _ _ _ _ _ Inv) as Hdone.
  assert (Hlt : Forall (fun i => (i < length reqs)%nat) order).
  { apply Forall_forall. intros i [j Hj]%list_elem_of_lookup.
    now destruct (Forall2_lookup_l _ _ _ _ _ Hdone Hj) as (o & _ & ? & _). }
  assert (Hrest : Forall (fun i => (i ∉ order) /\ (i < length reqs)%nat) rest).
  { apply Forall_forall. intros i [Hi Hs]%list_elem_of_filter.
    apply elem_of_seq in Hs. split; [exact Hi | lia]. }
  destruct (run_seq_outside order w ts rest
              (snd (run_seq C L (pick reqs order) w0)) Inv Hall Hrest)
    as [Hws Houts].
  exists (order ++ rest). split; [|split].
  - apply order_complete; [exact (inv_nodup _ _ _ _ _ _ _ _ _ Inv) | exact Hlt].
  - unfold pick. rewrite fmap_app. fold (pick reqs order) (pick reqs rest).
    rewrite run_seq_app. simpl. rewrite Hws.
    symmetry. apply (inv_free _ _ _ _ _ _ _ _ _ Inv eq_refl).
  - unfold pick. rewrite fmap_app. fold (pick reqs order) (pick reqs rest).
    rewrite run_seq_app. simpl. apply Forall2_app; [|exact Houts].
    eapply Forall2_impl; [exact Hdone|]. intros i o (_ & _ & H). exact H.
Qed.

(** *** The pool can always run to completion *)

Lemma holder_finishes m (b : prog number) :
  lockless b ->
  forall (w : World S) (ts : list (prog response)) i,
    (i < length ts)%nat ->
    exists w' p',
      rtc (step C)
        (snd (advance C (holding m b u) w),
         <[i := fst (advance C (holding m b u) w)]> ts)
        (w', <[i := p']> ts)
      /\ is_settled p' = true.
Proof.
  induction b as [v|e|X o k IH]; intros Hb w ts i Hi.
  - eexists _, _. split; [apply rtc_refl | reflexivity].
  - eexists _, _. split; [apply rtc_refl | reflexivity].
  - destruct Hb as [Ho Hk]. rewrite holding_Vis.
    destruct (is_async o) eqn:Ha.
    + simpl. rewrite Ha. simpl.
      destruct (IH (fst (handle C o w)) (Hk _) (snd (handle C o w)) ts i Hi)
        as (w' & p' & Hrtc & Hp').
      exists w', p'. split; [|exact Hp'].
      eapply rtc_l; [|exact Hrtc]. exists i.
      rewrite (turn_async C i o (fun r => holding m (k r) u) w).
      * now rewrite list_insert_insert_eq.
      * apply list_lookup_insert_eq. exact Hi.
      * apply (lockless_handle C o w Ho).
    + simpl. rewrite Ha. destruct (lockless_sync C o w Ho Ha) as [x Hx].
      rewrite Hx. specialize (IH (fulfilled x) (Hk _) w ts i Hi).
      exact IH.
Qed.

Lemma unsettled_insert {A} (ts : list (prog A)) i p p' :
  ts !! i = Some p -> is_settled p = false -> is_settled p' = true ->
  (unsettled (<[i := p']> ts) < unsettled ts)%nat.
Proof.
  unfold unsettled. revert i. induction ts as [|q ts IH]; intros i Hi Hp Hp'.
  - discriminate.
  - destruct i as [|i]; simpl in *.
    + injection Hi as ->. rewrite !filter_cons.
      rewrite decide_False by congruence. rewrite decide_True by exact Hp.
      simpl. lia.
    + specialize (IH i Hi Hp Hp'). rewrite !filter_cons.
      destruct (decide (is_settled q = false)); simpl; lia.
Qed.

Lemma unsettled_0 {A} (ts : list (prog A)) :
  unsettled ts = 0%nat -> Forall (fun p => is_settled p = true) ts.
Proof.
  unfold unsettled. induction ts as [|q ts IH]; [constructor|].
  rewrite filter_cons. destruct (decide (is_settled q = false)) as [|Hq];
    simpl; [discriminate|].
  intros H. constructor; [|now apply IH]. now destruct (is_settled q).
Qed.

Lemma unsettled_pos {A} (ts : list (prog A)) :
  unsettled ts <> 0%nat ->
  exists i p, ts !! i = Some p /\ is_settled p = false.
Proof.
  unfold unsettled. intros H.
  destruct (filter (fun p => is_settled p = false) ts) as [|p l] eqn:E;
    [contradiction|].
  assert (Hp : p ∈ filter (fun p => is_settled p = false) ts)
    by (rewrite E; left).
  apply list_elem_of_filter in Hp as [Hp [i Hi]%list_elem_of_lookup].
  eauto.
Qed.

(** From a state of the invariant with an unsettled call, some unsettled
    call can be run until it is settled. *)
Lemma inv_finish_one order hold w ts i p :
  serial_inv C L u reqs w0 order hold w ts ->
  ts !! i = Some p -> is_settled p = false ->
  exists j q w' p',
    ts !! j = Some q /\ is_settled q = false
    /\ rtc (step C) (w, ts) (w', <[j := p']> ts) /\ is_settled p' = true.
Proof.
  intros Inv Hti Hp.
  assert (Hholder : forall order w ts h,
    serial_inv C L u reqs w0 order (Some h) w ts ->
    exists q w' p',
      ts !! h = Some q /\ is_settled q = false
      /\ rtc (step C) (w, ts) (w', <[h := p']> ts) /\ is_settled p' = true).
  { clear. intros order w ts h Inv.
    destruct (inv_hold _ _ _ _ _ _ _ _ _ Inv h eq_refl) as [Hho Hhl].
    destruct (lookup_lt_is_Some_2 reqs h Hhl) as [rh Hrh].
    pose proof (inv_rest _ _ _ _ _ _ _ _ _ Inv h rh Hrh Hho) as Hrest.
    rewrite decide_True in Hrest by reflexivity.
    destruct Hrest as (_ & m & b & Htb & _ & _ & Hlb & Hpb & Hs & _).
    assert (Hlt : (h < length ts)%nat) by now apply lookup_lt_Some in Htb.
    destruct (holder_finishes m b Hlb w ts h Hlt) as (w' & p' & Hrtc & Hp').
    assert (Hadv : advance C (holding m b u) w = (holding m b u, w)).
    { apply advance_parked. now destruct b. }
    rewrite Hadv in Hrtc. simpl in Hrtc.
    rewrite (list_insert_id _ _ _ Htb) in Hrtc.
    exists (holding m b u), w', p'. repeat split; auto. now destruct b. }
  destruct hold as [h|].
  { destruct (Hholder order w ts h Inv) as (q & w' & p' & H). exists h. eauto. }
  assert (Hil : (i < length reqs)%nat).
  { rewrite <- (inv_len _ _ _ _ _ _ _ _ _ Inv). now apply lookup_lt_Some in Hti. }
  destruct (lookup_lt_is_Some_2 reqs i Hil) as [r Hr].
  assert (Hnin : i ∉ order).
  { intros [j Hj]%list_elem_of_lookup.
    destruct (Forall2_lookup_l _ _ _ _ _ (inv_done _ _ _ _ _ _ _ _ _ Inv) Hj)
      as (o & _ & _ & _ & q & Hq & Ho).
    assert (q = p) as -> by congruence. now destruct p. }
  assert (Hwait : forall w ts m,
    serial_inv C L u reqs w0 order None w ts ->
    ts !! i = Some (guarded m (section_of L r) u) -> valid r = true ->
    locks w !! u = Some m ->
    exists w' p',
      rtc (step C) (w, ts) (w', <[i := p']> ts) /\ is_settled p' = true).
  { clear w ts Inv Hti Hp. intros w ts m Inv Hg Hv Hm.
    destruct (inv_free _ _ _ _ _ _ _ _ _ Inv eq_refl) as [_ Hf].
    pose proof (Hf m Hm) as Hl.
    assert (Hne : None <> Some i) by discriminate.
    pose proof (inv_step_acquire order None w ts i r m Inv Hr Hnin Hne Hv Hg Hm Hl)
      as Inv'.
    destruct (Hholder _ _ _ _ Inv') as (q & w' & p' & _ & _ & Hrtc & Hp').
    rewrite list_insert_insert_eq in Hrtc.
    exists w', p'. split; [|exact Hp'].
    eapply rtc_l; [|exact Hrtc]. exists i.
    rewrite (turn_guarded ts i m _ w Hg), Hl.
    rewrite advance_holding by apply lockless_section_of.
    destruct (parked_section_of L u r (mutation_at i r Hr)) as [Hps Hss].
    rewrite advance_parked by exact Hps. simpl.
    destruct (section_of L r); try discriminate Hss. reflexivity. }
  pose proof (inv_rest _ _ _ _ _ _ _ _ _ Inv i r Hr Hnin) as Hrest.
  simpl in Hrest. exists i, p.
  destruct Hrest as [Hfresh | (Hv & m & Hg & Hm)].
  - assert (p = call L r) as -> by congruence.
    destruct (valid r) eqn:Hv.
    + assert (Hne : None <> Some i) by discriminate.
      pose proof (inv_step_fresh order None w ts i r Inv Hr Hnin Hne Hti Hv)
        as Inv'.
      destruct (Hwait _ _ (mutex_for u w) Inv') as (w' & p' & Hrtc & Hp').
      * apply list_lookup_insert_eq. now apply lookup_lt_Some in Hti.
      * reflexivity.
      * apply locks_registered.
      * rewrite list_insert_insert_eq in Hrtc.
        exists w', p'. repeat split; auto.
        eapply rtc_l; [|exact Hrtc]. exists i.
        apply (turn_fresh ts i r w Hti (mutation_at i r Hr) Hv).
    + destruct (call_invalid L u r (mutation_at i r Hr) Hv) as [e He].
      rewrite He in Hp. discriminate.
  - destruct (Hwait w ts m Inv Hg Hv Hm) as (w' & p' & Hrtc & Hp').
    exists w', p'. repeat split; auto.
Qed.

(** No deadlock, no starvation by the lock alone: from every reachable
    state the pool can run until every call is settled. *)
Lemma can_complete w ts :
  rtc (step C) (w0, call L <$> reqs) (w, ts) ->
  exists w' ts',
    rtc (step C) (w, ts) (w', ts') /\ Forall (fun p => is_settled p = true) ts'.
Proof.
  remember (unsettled ts) as n eqn:Hn. revert w ts Hn.
  induction n as [n IH] using lt_wf_ind. intros w ts Hn Hreach.
  destruct (decide (unsettled ts = 0%nat)) as [H0|Hpos].
  - exists w, ts. split; [apply rtc_refl | now apply unsettled_0].
  - destruct (unsettled_pos ts Hpos) as (i & p & Hti & Hp).
    destruct (inv_reach w ts Hreach) as (order & hold & Inv).
    destruct (inv_finish_one order hold w ts i p Inv Hti Hp)
      as (j & q & w1 & p' & Hq & Hqs & Hrtc & Hp').
    pose proof (unsettled_insert ts j q p' Hq Hqs Hp') as Hlt.
    destruct (IH (unsettled (<[j := p']> ts)) ltac:(lia) w1 (<[j := p']> ts)
                eq_refl) as (w' & ts' & Hrtc' & Hall).
    + eapply rtc_trans; eauto.
    + exists w', ts'. split; [|exact Hall]. eapply rtc_trans; eauto.
Qed.

(** Mutual exclusion: at most one call awaits a table. *)
Lemma mutual_exclusion w ts i j p q :
  rtc (step C) (w0, call L <$> reqs) (w, ts) ->
  ts !! i = Some p -> ts !! j = Some q ->
  in_critical_section p = true -> in_critical_section q = true -> i = j.
Proof.
  intros Hreach Hi Hj Hp Hq.
  destruct (inv_reach w ts Hreach) as (order & hold & Inv).
  pose proof (inv_inside order hold w ts i p Inv Hi Hp) as H1.
  pose proof (inv_inside order hold w ts j q Inv Hj Hq) as H2.
  congruence.
Qed.

End Pool.

(** ** The balance stays in range in every pool *)

Section Range.
Context (L u : number).
Hypothesis HL : L <> NaN.

Lemma range_safe_bind {A B} (p : prog A) (f : A -> prog B) :
  range_safe L u p -> (forall a, range_safe L u (f a)) ->
  range_safe L u (bind p f).
Proof.
  intros Hp Hf. induction p as [a|e|X o k IH]; simpl; auto.
  destruct Hp as [Ho Hk]. split; [exact Ho|]. intros r Hr. apply IH, Hk, Hr.
Qed.

Lemma range_safe_finally {A} (p : prog A) (f : prog unit) :
  range_safe L u p -> range_safe L u f -> range_safe L u (finally p f).
Proof.
  intros Hp Hf. induction p as [a|e|X o k IH]; simpl.
  - apply range_safe_bind; [exact Hf | intros; exact I].
  - apply range_safe_bind; [exact Hf | intros; exact I].
  - destruct Hp as [Ho Hk]. split; [exact Ho|]. intros r Hr. apply IH, Hk, Hr.
Qed.

Lemma range_safe_perform {X} (o : op X) :
  writes_in_range L u o -> range_safe L u (perform o).
Proof. intros Ho. split; [exact Ho|]. intros [?|?] _; exact I. Qed.

Lemma in_range_charged B a :
  in_range L B = true -> invalid a = false -> gtb (add B a) L = false ->
  in_range L (add B a) = true.
Proof.
  unfold in_range. intros [H0 HBL]%andb_true_iff Ha Hgt.
  apply invalid_false in Ha as (z & Hz & ->).
  apply andb_true_iff. split; [now apply add_nonneg|].
  apply gtb_leb; [|exact HL|exact Hgt].
  intros HN%add_Int_NaN. now apply nonneg_not_NaN in H0.
Qed.

Lemma in_range_used B a :
  in_range L B = true -> invalid a = false -> ltb (sub B a) (Int 0) = false ->
  in_range L (sub B a) = true.
Proof.
  unfold in_range. intros [H0 HBL]%andb_true_iff Ha Hlt.
  apply invalid_false in Ha as (z & Hz & ->).
  assert (HN : sub B (Int z) <> NaN).
  { intros HN%sub_Int_NaN. now apply nonneg_not_NaN in H0. }
  apply andb_true_iff. split.
  - apply ltb_false_leb; [exact HN | apply Int_not_NaN | exact Hlt].
  - now apply sub_le.
Qed.

Lemma range_safe_charge_section i a :
  invalid a = false -> range_safe L u (charge_section L i a).
Proof.
  intros Ha. unfold charge_section. unfold_monad. simpl. split; [exact I|].
  intros [up|e] Hup; simpl; [|exact I].
  destruct (gtb (add (point up) a) L) eqn:Hgt; simpl; [exact I|].
  split; [intros Hi; now apply in_range_charged; auto|].
  intros [?|?] _; simpl; [|exact I]. split; [exact I|].
  intros [?|?] _; simpl; [|exact I]. split; [exact I|].
  intros [?|?] _; exact I.
Qed.

Lemma range_safe_use_section i a :
  invalid a = false -> range_safe L u (use_section i a).
Proof.
  intros Ha. unfold use_section. unfold_monad. simpl. split; [exact I|].
  intros [up|e] Hup; simpl; [|exact I].
  destruct (ltb (sub (point up) a) (Int 0)) eqn:Hlt; simpl; [exact I|].
  split; [intros Hi; now apply in_range_used; auto|].
  intros [?|?] _; simpl; [|exact I]. split; [exact I|].
  intros [?|?] _; simpl; [|exact I]. split; [exact I|].
  intros [?|?] _; exact I.
Qed.

Lemma range_safe_getMutexForUser i : range_safe L u (getMutexForUser i).
Proof.
  unfold getMutexForUser. unfold_monad. simpl. split; [exact I|].
  intros [[|]|e] _; simpl; try exact I.
  - split; [exact I|]. intros [?|?] _; exact I.
  - split; [exact I|]. intros [?|?] _; simpl; [|exact I].
    split; [exact I|]. intros [?|?] _; simpl; [|exact I].
    split; [exact I|]. intros [?|?] _; exact I.
Qed.

Lemma range_safe_runExclusive {A} m (callback : prog A) :
  range_safe L u callback -> range_safe L u (runExclusive m callback).
Proof.
  intros Hc. destruct m as [m|]; simpl; [|exact I].
  split; [exact I|]. intros [?|?] _; simpl; [|exact I].
  apply range_safe_finally; [exact Hc|]. now apply range_safe_perform.
Qed.

Lemma range_safe_tail i v : range_safe L u (tail i v).
Proof.
  unfold tail. unfold_monad. simpl. split; [exact I|]. intros [?|?] _; exact I.
Qed.

(** Every call of the service is range-safe, for every user. *)
Lemma range_safe_call r : range_safe L u (call L r).
Proof.
  destruct r as [i|i|i a|i a]; simpl; unfold_monad;
    (apply range_safe_bind; [|intros; exact I]).
  - unfold getPoint. destruct (invalid i); simpl; [exact I|].
    split; [exact I|]. intros [?|?] _; exact I.
  - unfold getHistories. destruct (invalid i); simpl; [exact I|].
    split; [exact I|]. intros [?|?] _; exact I.
  - destruct (invalid i) eqn:Hi; [unfold chargePoint; rewrite Hi; exact I|].
    destruct (invalid a) eqn:Ha; [unfold chargePoint; rewrite Hi, Ha; exact I|].
    unfold chargePoint. rewrite Hi, Ha. unfold_monad.
    apply range_safe_bind; [apply range_safe_getMutexForUser|]. intros m.
    apply range_safe_bind;
      [apply range_safe_runExclusive, range_safe_charge_section, Ha|].
    intros v. apply range_safe_tail.
  - destruct (invalid i) eqn:Hi; [unfold usePoint; rewrite Hi; exact I|].
    destruct (invalid a) eqn:Ha; [unfold usePoint; rewrite Hi, Ha; exact I|].
    unfold usePoint. rewrite Hi, Ha. unfold_monad.
    apply range_safe_bind; [apply range_safe_getMutexForUser|]. intros m.
    apply range_safe_bind;
      [apply range_safe_runExclusive, range_safe_use_section, Ha|].
    intros v. apply range_safe_tail.
Qed.

Lemma handle_range {X} (o : op X) (w : World Tables) :
  writes_in_range L u o -> in_range L (balance u (db w)) = true ->
  reads_in_range L u o (fst (handle tables o w))
  /\ in_range L (balance u (db (snd (handle tables o w)))) = true.
Proof.
  intros Ho Hb. destruct o; simpl in *; auto.
  - split; [|exact Hb]. intros ->. now rewrite point_selected.
  - split; [exact I|]. unfold balance. simpl.
    destruct (decide (i = u)) as [->|Hne].
    + rewrite lookup_insert_eq. simpl. now apply Ho.
    + rewrite lookup_insert_ne by exact Hne. exact Hb.
Qed.

Lemma advance_range {A} (p : prog A) (w : World Tables) :
  range_safe L u p ->
  range_safe L u (fst (advance tables p w))
  /\ db (snd (advance tables p w)) = db w.
Proof.
  revert w. induction p as [a|e|X o k IH]; intros w Hp; simpl; auto.
  destruct Hp as [Ho Hk]. destruct (is_async o) eqn:Ha; simpl.
  - split; [split; assumption | reflexivity].
  - destruct o; try discriminate Ha; simpl;
      match goal with
      | |- context [advance tables (k ?r) ?w'] =>
          destruct (IH r w' (Hk r I)) as [H1 H2]; split;
          [exact H1 | exact H2]
      end.
Qed.

(** Every turn of any pool of calls keeps the balance of [u] in range. *)
Lemma range_step i (w : World Tables) (ts : list (prog response)) c' :
  in_range L (balance u (db w)) = true ->
  Forall (range_safe L u) ts ->
  turn tables i (w, ts) = Some c' ->
  in_range L (balance u (db (fst c'))) = true
  /\ Forall (range_safe L u) (snd c').
Proof.
  intros Hb Hts Ht. unfold turn in Ht.
  destruct (ts !! i) as [[?|?|X o k]|] eqn:Hi; try discriminate.
  destruct (enabled o w); [|discriminate].
  pose proof (Forall_lookup_1 _ _ _ _ Hts Hi) as [Ho Hk].
  destruct (handle_range o w Ho Hb) as [Hr Hb1].
  destruct (handle tables o w) as [r w1]. simpl in *.
  destruct (advance_range (k r) w1 (Hk r Hr)) as [Hp Hdb].
  destruct (advance tables (k r) w1) as [p w2]. simpl in *.
  injection Ht as <-. simpl. split; [now rewrite Hdb|].
  now apply Forall_insert.
Qed.

Lemma range_reach (reqs : list request) (w0 w : World Tables) ts :
  in_range L (balance u (db w0)) = true ->
  rtc (step tables) (w0, call L <$> reqs) (w, ts) ->
  in_range L (balance u (db w)) = true.
Proof.
  intros Hb H.
  apply (rtc_ind_r
           (fun c => in_range L (balance u (db (fst c))) = true
                     /\ Forall (range_safe L u) (snd c))
           (w0, call L <$> reqs)) in H; [exact (proj1 H)| |].
  - split; [exact Hb|]. apply Forall_fmap, Forall_forall.
    intros r _. apply range_safe_call.
  - intros [w1 ts1] c2 _ [i Hi] [Hb1 Hts1]. eapply range_step; eauto.
Qed.

End Range.

(** ** The scenario of five charges *)

Lemma schedule_rtc {S A} (C : Collaborators S) sched
    (c c' : World S * list (prog A)) :
  schedule C sched c = Some c' -> rtc (step C) c c'.
Proof.
  revert c. induction sched as [|i sched IH]; intros c; simpl.
  - intros [= <-]. apply rtc_refl.
  - destruct (turn C i c) as [c1|] eqn:E; [|discriminate].
    intros H. eapply rtc_l; [exists i; exact E | now apply IH].
Qed.

Lemma turn_length {S A} (C : Collaborators S) i (w w' : World S)
    (ts ts' : list (prog A)) :
  turn C i (w, ts) = Some (w', ts') -> length ts' = length ts.
Proof.
  unfold turn. destruct (ts !! i) as [[?|?|X o k]|]; try discriminate.
  destruct (enabled o w); [|discriminate].
  destruct (handle C o w) as [r w1]. destruct (advance C (k r) w1) as [p w2].
  intros [= _ <-]. apply length_insert.
Qed.

Lemma reach_length {S A} (C : Collaborators S) (c c' : World S * list (prog A)) :
  rtc (step C) c c' -> length (snd c') = length (snd c).
Proof.
  induction 1 as [|[w ts] [w1 ts1] c3 [i Hi] _ IH]; [reflexivity|].
  rewrite IH. simpl. eapply turn_length; eauto.
Qed.

Lemma lookups_seq {A} `{Inhabited A} (l : list A) :
  (fun i => l !!! i) <$> seq 0 (length l) = l.
Proof.
  apply list_eq. intros j. rewrite list_lookup_fmap.
  destruct (decide (j < length l)%nat) as [Hlt|Hge].
  - rewrite lookup_seq_lt by exact Hlt. simpl.
    destruct (lookup_lt_is_Some_2 l j Hlt) as [x Hx].
    now rewrite Hx, (list_lookup_total_correct _ _ _ Hx).
  - rewrite lookup_seq_ge, lookup_ge_None_2 by lia. reflexivity.
Qed.

(** The outcomes of the serial order are those of the calls. *)
Lemma outcomes_permutation (ts : list (prog response)) order outs :
  order ≡ₚ seq 0 (length ts) ->
  Forall2 (fun i o => exists p, ts !! i = Some p /\ settled_call p = Some o)
    order outs ->
  outs ≡ₚ outcome_of <$> ts.
Proof.
  intros Hperm HF.
  assert (Houts : outs = (fun i => outcome_of (ts !!! i)) <$> order).
  { clear Hperm.
    induction HF as [|i o order outs (p & Hp & Ho) _ IH]; [reflexivity|].
    simpl. f_equal.
    - rewrite (list_lookup_total_correct _ _ _ Hp).
      destruct p; simpl in *; congruence.
    - apply IH. }
  rewrite Houts, Hperm.
  rewrite <- (lookups_seq ts) at 2. now rewrite <- list_fmap_compose.
Qed.

Lemma pick_replicate n r order :
  Forall (fun i => (i < n)%nat) order ->
  pick (replicate n r) order = replicate (length order) r.
Proof.
  unfold pick. induction 1 as [|i order Hi _ IH]; simpl; [reflexivity|].
  f_equal; [now apply lookup_total_replicate_2 | exact IH].
Qed.

Lemma in_seq_lt order n :
  order ≡ₚ seq 0 n -> Forall (fun i => (i < n)%nat) order.
Proof.
  intros H. apply Forall_forall. intros i Hi. rewrite H in Hi.
  apply elem_of_seq in Hi. lia.
Qed.

(** One charge of a user whose balance is the integer [b]. *)
Lemma charge_call_Int l z a b (w : World Tables) :
  0 < z -> 0 < a -> Z.abs (b + a) <= 2 ^ 53 ->
  idle w -> balance (Int z) (db w) = Int b ->
  exists o w',
    run tables (call (Int l) (ChargePoint (Int z) (Int a))) w = (o, w')
    /\ idle w'
    /\ ((b + a <= l /\ is_fulfilled o = true
         /\ is_rejected_with (LimitExceeded (Int l)) o = false
         /\ balance (Int z) (db w') = Int (b + a))
        \/ (l < b + a /\ is_fulfilled o = false
            /\ is_rejected_with (LimitExceeded (Int l)) o = true
            /\ balance (Int z) (db w') = Int b)).
Proof.
  intros Hz Ha Hs Hi Hb.
  pose proof (run_call_idle tables (Int l) (ChargePoint (Int z) (Int a)) w Hi)
    as [Hi' _].
  simpl call in *. unfold_monad. rewrite run_bind in *.
  rewrite run_chargePoint_tables in * by auto using invalid_pos.
  pose proof (idle_free (Int z) w Hi) as Hf. apply free_iff in Hf.
  rewrite Hf in *. rewrite Hb, (add_Int _ _ Hs) in *. unfold gtb in *.
  rewrite ltb_Int in *.
  destruct (bool_decide (l < b + a)) eqn:E; simpl in *.
  - apply bool_decide_eq_true in E. eexists _, _. split; [reflexivity|].
    split; [exact Hi'|]. right. simpl. rewrite db_registered.
    repeat split; auto. now apply bool_decide_eq_true.
  - apply bool_decide_eq_false in E. eexists _, _. split; [reflexivity|].
    split; [exact Hi'|]. left. simpl. rewrite balance_committed.
    repeat split; auto. lia.
Qed.

(** Five charges of 500 under a limit of 1000, one after the other, from a
    balance of 0: two are fulfilled, three are rejected by the limit, and
    the balance is 1000. *)
Lemma five_charges_seq z (w : World Tables) :
  0 < z -> idle w -> balance (Int z) (db w) = Int 0 ->
  let res :=
    run_seq tables (Int 1000) (replicate 5 (ChargePoint (Int z) (Int 500))) w in
  length (filter (fun o => is_fulfilled o = true) (fst res)) = 2%nat
  /\ length (filter (fun o => is_rejected_with (LimitExceeded (Int 1000)) o = true)
               (fst res)) = 3%nat
  /\ balance (Int z) (db (snd res)) = Int 1000.
Proof.
  intros Hz Hi Hb. cbn [replicate run_seq].
  destruct (charge_call_Int 1000 z 500 0 w) as (o1 & w1 & -> & Hi1 & H1);
    auto; [lia | lia |].
  destruct H1 as [(_ & Hf1 & Hr1 & Hb1)|(? & _)]; [|lia].
  destruct (charge_call_Int 1000 z 500 (0 + 500) w1)
    as (o2 & w2 & -> & Hi2 & H2); auto; [lia | lia |].
  destruct H2 as [(_ & Hf2 & Hr2 & Hb2)|(? & _)]; [|lia].
  destruct (charge_call_Int 1000 z 500 (0 + 500 + 500) w2)
    as (o3 & w3 & -> & Hi3 & H3); auto; [lia | lia |].
  destruct H3 as [(? & _)|(_ & Hf3 & Hr3 & Hb3)]; [lia|].
  destruct (charge_call_Int 1000 z 500 (0 + 500 + 500) w3)
    as (o4 & w4 & -> & Hi4 & H4); auto; [lia | lia |].
  destruct H4 as [(? & _)|(_ & Hf4 & Hr4 & Hb4)]; [lia|].
  destruct (charge_call_Int 1000 z 500 (0 + 500 + 500) w4)
    as (o5 & w5 & -> & Hi5 & H5); auto; [lia | lia |].
  destruct H5 as [(? & _)|(_ & Hf5 & Hr5 & Hb5)]; [lia|].
  simpl. rewrite !filter_cons, filter_nil.
  rewrite Hf1, Hf2, Hf3, Hf4, Hf5, Hr1, Hr2, Hr3, Hr4, Hr5. simpl.
  repeat split. exact Hb5.
Qed.

(** ** The claims on concurrent calls *)

(** C8: in every state reached by a pool of concurrent [chargePoint] and
    [usePoint] calls on one user, from a state in which no lock is held and
    whatever the interleaving of their turns: at most one call is in its
    critical section (awaits a table); the user's balance is [>= 0] and
    [<= chargeLimit] if it was to start with (the limit being a number);
    the pool can run on until every call is settled; and once every call
    is settled, the calls are settled, and the tables are left, as by the
    same requests made one after the other in some order.  In particular,
    under a limit of 1000, five concurrent charges of 500 of a user at
    balance 0 end with exactly two fulfilled, three rejected by the limit,
    and a balance of 1000. *)
Theorem per_user_serializability L u (reqs : list request)
    (w0 w : World Tables) (ts : list (prog response)) :
  Forall (mutation_of u) reqs -> quiet w0 ->
  rtc (step tables) (w0, call L <$> reqs) (w, ts) ->
  (forall i j p q,
      ts !! i = Some p -> ts !! j = Some q ->
      in_critical_section p = true -> in_critical_section q = true -> i = j)
  /\ (L <> NaN -> in_range L (balance u (db w0)) = true ->
      in_range L (balance u (db w)) = true)
  /\ (exists w' ts',
        rtc (step tables) (w, ts) (w', ts')
        /\ Forall (fun p => is_settled p = true) ts')
  /\ (Forall (fun p => is_settled p = true) ts ->
      exists order,
        order ≡ₚ seq 0 (length reqs)
        /\ db (snd (run_seq tables L (pick reqs order) w0)) = db w
        /\ Forall2
             (fun i o => exists p, ts !! i = Some p /\ settled_call p = Some o)
             order (fst (run_seq tables L (pick reqs order) w0)))
  /\ (L = Int 1000 -> positive_integer u ->
      reqs = replicate 5 (ChargePoint u (Int 500)) ->
      balance u (db w0) = Int 0 ->
      Forall (fun p => is_settled p = true) ts ->
      length (filter (fun o => is_fulfilled o = true) (outcome_of <$> ts)) = 2%nat
      /\ length (filter
                   (fun o => is_rejected_with (LimitExceeded (Int 1000)) o = true)
                   (outcome_of <$> ts)) = 3%nat
      /\ balance u (db w) = Int 1000).
Proof.
  intros Hreqs Hquiet Hreach.
  split; [|split; [|split; [|split]]].
  - intros i j p q. now apply (mutual_exclusion tables L u reqs w0 Hreqs Hquiet w ts).
  - intros HL Hrange. now apply (range_reach L u HL reqs w0 w ts).
  - now apply (can_complete tables L u reqs w0 Hreqs Hquiet).
  - now apply (serializable tables L u reqs w0 Hreqs Hquiet).
  - intros -> (z & Hz & ->) -> Hb Hall.
    destruct (serializable tables _ _ _ w0 Hreqs Hquiet w ts Hreach Hall)
      as (order & Hperm & Hdb & HF).
    rewrite length_replicate in Hperm.
    rewrite pick_replicate in * by now apply in_seq_lt.
    rewrite (Permutation_length Hperm), length_seq in *.
    pose proof (five_charges_seq z w0 Hz (proj2 Hquiet) Hb) as (H2 & H3 & H1000).
    simpl in H2, H3, H1000.
    assert (Hlen : length ts = 5%nat).
    { apply reach_length in Hreach. exact Hreach. }
    rewrite <- Hlen in Hperm.
    pose proof (outcomes_permutation ts order _ Hperm HF) as Houts.
    rewrite <- Houts. split; [exact H2|]. split; [exact H3|].
    unfold balance in *. now rewrite <- Hdb.
Qed.

(** ** The lock registry *)

Section Registry.
Context {S : Type} (C : Collaborators S) (L : number).

Lemma registry_free_bind {A B} (p : prog A) (f : A -> prog B) :
  registry_free p -> (forall a, registry_free (f a)) -> registry_free (bind p f).
Proof.
  intros Hp Hf. induction p as [a|e|X o k IH]; simpl; auto.
  destruct Hp as [Ho Hk]. split; [exact Ho|]. intros r. apply IH, Hk.
Qed.

Lemma registry_free_finally {A} (p : prog A) (f : prog unit) :
  registry_free p -> registry_free f -> registry_free (finally p f).
Proof.
  intros Hp Hf. induction p as [a|e|X o k IH]; simpl.
  - apply registry_free_bind; [exact Hf | intros; exact I].
  - apply registry_free_bind; [exact Hf | intros; exact I].
  - destruct Hp as [Ho Hk]. split; [exact Ho|]. intros r. apply IH, Hk.
Qed.

Lemma lockless_registry_free {A} (p : prog A) : lockless p -> registry_free p.
Proof.
  induction p as [a|e|X o k IH]; simpl; auto.
  intros [Ho Hk]. split; [|intros r; apply IH, Hk].
  destruct o; simpl in *; congruence.
Qed.

Lemma registry_free_guarded m (callback : prog number) u :
  lockless callback -> registry_free (guarded m callback u).
Proof.
  intros Hc. unfold guarded, runExclusive. unfold_monad.
  apply registry_free_bind; [|intros; exact I].
  apply registry_free_bind.
  - simpl. split; [reflexivity|]. intros [?|?]; simpl; [|exact I].
    apply registry_free_finally; [now apply lockless_registry_free|].
    simpl. split; [reflexivity|]. intros [?|?]; exact I.
  - intros v. simpl. split; [reflexivity|]. intros [?|?]; exact I.
Qed.

(** A call just made is a valid [chargePoint] or [usePoint], or it does
    not use the registry at all. *)
Lemma past_registry_call r : past_registry L (call L r).
Proof.
  destruct (valid r) eqn:Hv.
  - destruct r as [u|u|u a|u a].
    + left. simpl. unfold getPoint. destruct (invalid u); simpl; [exact I|].
      split; [reflexivity|]. intros [?|?]; exact I.
    + left. simpl. unfold getHistories. destruct (invalid u); simpl; [exact I|].
      split; [reflexivity|]. intros [?|?]; exact I.
    + right. exists u, (ChargePoint u a). repeat split; auto. exists a. now left.
    + right. exists u, (UsePoint u a). repeat split; auto. exists a. now right.
  - left. destruct r as [u|u|u a|u a]; simpl in Hv.
    + apply negb_false_iff in Hv. simpl. unfold getPoint. rewrite Hv. exact I.
    + apply negb_false_iff in Hv. simpl. unfold getHistories. rewrite Hv. exact I.
    + destruct (call_invalid L u (ChargePoint u a)) as [e ->]; auto.
      * exists a. now left.
      * exact I.
    + destruct (call_invalid L u (UsePoint u a)) as [e ->]; auto.
      * exists a. now right.
      * exact I.
Qed.

Lemma registry_free_handle {X} (o : op X) (w : World S) :
  registry_op o = false ->
  locks (snd (handle C o w)) = locks w
  /\ length (mutexes (snd (handle C o w))) = length (mutexes w).
Proof.
  destruct o; simpl; try discriminate; intros _;
    try (split; reflexivity);
    try (split; [reflexivity | apply length_insert]);
    unfold on_db;
    match goal with |- context [let '(_, _) := ?e in _] => destruct e end;
    split; reflexivity.
Qed.

Lemma registry_free_advance {A} (p : prog A) (w : World S) :
  registry_free p ->
  registry_free (fst (advance C p w))
  /\ locks (snd (advance C p w)) = locks w
  /\ length (mutexes (snd (advance C p w))) = length (mutexes w).
Proof.
  revert w. induction p as [a|e|X o k IH]; intros w Hp; simpl; auto.
  destruct Hp as [Ho Hk]. destruct (is_async o); simpl.
  - split; [split; assumption | split; reflexivity].
  - destruct (registry_free_handle o w Ho) as [Hl Hm].
    destruct (handle C o w) as [r w1]. simpl in *.
    destruct (IH r w1 (Hk r)) as (H1 & H2 & H3).
    split; [exact H1|]. split; congruence.
Qed.

Lemma registered_grows u (w : World S) :
  locks w ⊆ locks (registered u w)
  /\ (length (mutexes (registered u w)) + size (locks w)
      = length (mutexes w) + size (locks (registered u w)))%nat.
Proof.
  unfold registered. destruct (locks w !! u) eqn:E; simpl.
  - split; reflexivity.
  - split; [now apply insert_subseteq|].
    rewrite length_app, map_size_insert_None by exact E. simpl. lia.
Qed.

(** A turn never removes or replaces an entry of the registry, and it
    creates as many Mutex objects as it adds entries. *)
Lemma registry_step i (w : World S) (ts : list (prog response)) c' :
  Forall (past_registry L) ts ->
  turn C i (w, ts) = Some c' ->
  Forall (past_registry L) (snd c')
  /\ locks w ⊆ locks (fst c')
  /\ (length (mutexes (fst c')) + size (locks w)
      = length (mutexes w) + size (locks (fst c')))%nat.
Proof.
  intros Hts Ht.
  destruct (ts !! i) as [p|] eqn:Hi;
    [|unfold turn in Ht; rewrite Hi in Ht; discriminate].
  destruct (Forall_lookup_1 _ _ _ _ Hts Hi) as [Hp | (u & r & Hr & Hv & ->)].
  - unfold turn in Ht. rewrite Hi in Ht.
    destruct p as [?|?|X o k]; try discriminate.
    destruct (enabled o w); [|discriminate].
    destruct Hp as [Ho Hk].
    destruct (registry_free_handle o w Ho) as [Hl Hm].
    destruct (handle C o w) as [r w1]. simpl in *.
    destruct (registry_free_advance (k r) w1 (Hk r)) as (H1 & H2 & H3).
    destruct (advance C (k r) w1) as [p w2]. simpl in *.
    injection Ht as <-. simpl. split; [|split].
    + apply Forall_insert; [exact Hts | now left].
    + now rewrite H2, Hl.
    + rewrite H2, H3, Hl, Hm. reflexivity.
  - rewrite (turn_fresh C L u ts i r w Hi Hr Hv) in Ht. injection Ht as <-.
    simpl. split; [|apply registered_grows].
    apply Forall_insert; [exact Hts|]. left.
    apply registry_free_guarded, lockless_section_of.
Qed.

Lemma registry_rtc (c c' : World S * list (prog response)) :
  rtc (step C) c c' ->
  Forall (past_registry L) (snd c) ->
  Forall (past_registry L) (snd c')
  /\ locks (fst c) ⊆ locks (fst c')
  /\ (length (mutexes (fst c')) + size (locks (fst c))
      = length (mutexes (fst c)) + size (locks (fst c')))%nat.
Proof.
  induction 1 as [c|[w ts] c2 c3 [i Hi] _ IH]; intros Hts.
  - split; [exact Hts|]. split; reflexivity.
  - destruct (registry_step i w ts c2 Hts Hi) as (Hts2 & Hsub & Hcount).
    destruct (IH Hts2) as (Hts3 & Hsub3 & Hcount3). simpl in *.
    split; [exact Hts3|]. split; [now transitivity (locks (fst c2))|]. lia.
Qed.

Lemma pool_past_registry (reqs : list request) :
  Forall (past_registry L) (call L <$> reqs).
Proof. apply Forall_fmap, Forall_forall. intros r _. apply past_registry_call. Qed.

(** C7: in every state reached by a pool of concurrent calls, whatever the
    interleaving of their turns: no entry of the lock registry has been
    removed or replaced; as many Mutex objects have been created as
    entries have been added, so at most one object per user id exists;
    [getMutexForUser] on an id without entry creates exactly one object
    and exactly one entry, for that id; and once an id has an entry, in
    every later state [getMutexForUser] returns that same object and
    changes nothing.  A turn runs [getMutexForUser] without suspension, so
    two first accesses for one new id cannot both find the entry absent. *)
Theorem lock_registry_unique (reqs : list request) (w0 w : World S)
    (ts : list (prog response)) :
  rtc (step C) (w0, call L <$> reqs) (w, ts) ->
  locks w0 ⊆ locks w
  /\ (length (mutexes w) + size (locks w0)
      = length (mutexes w0) + size (locks w))%nat
  /\ (forall u, locks w !! u = None ->
        let res := run C (getMutexForUser u) w in
        fst res = Fulfilled (Some (length (mutexes w)))
        /\ locks (snd res) = <[u := length (mutexes w)]> (locks w)
        /\ mutexes (snd res) = mutexes w ++ [false])
  /\ (forall u m, locks w !! u = Some m ->
        forall w' ts', rtc (step C) (w, ts) (w', ts') ->
        locks w' !! u = Some m
        /\ run C (getMutexForUser u) w' = (Fulfilled (Some m), w')).
Proof.
  intros Hreach.
  destruct (registry_rtc _ _ Hreach (pool_past_registry reqs))
    as (Hts & Hsub & Hcount). simpl in Hts, Hsub, Hcount.
  split; [exact Hsub|]. split; [exact Hcount|]. split.
  - intros u Hu res. subst res. rewrite run_getMutexForUser.
    unfold mutex_for, registered.
    destruct (locks w !! u); [discriminate|]. simpl. repeat split.
  - intros u m Hm w' ts' Hreach'.
    destruct (registry_rtc _ _ Hreach' Hts) as (_ & Hsub' & _).
    simpl in Hsub'.
    assert (Hm' : locks w' !! u = Some m)
      by (eapply lookup_weaken; eauto).
    split; [exact Hm'|]. rewrite run_getMutexForUser.
    now destruct (registered_id u m w' Hm') as [-> ->].
Qed.

End Registry.

(** Facts about the result of a schedule are read through an observation
    of it that is computed as a whole: the calls still pending are
    programs, and are not normalised. *)
Ltac not_blocked E :=
  apply (f_equal (fun o => match o with Some _ => true | None => false end)) in E;
  vm_compute in E; discriminate E.

Ltac observe f v E H :=
  match type of E with
  | ?s = Some _ =>
      assert (H : match s with Some c => f c | None => v end = v)
        by (vm_compute; reflexivity);
      rewrite E in H; cbv beta iota in H
  end.

Lemma all_settled {A} (ts : list (prog A)) :
  forallb is_settled ts = true -> Forall (fun p => is_settled p = true) ts.
Proof.
  induction ts as [|p ts IH]; simpl; [constructor|].
  intros [Hp Hts]%andb_true_iff. constructor; auto.
Qed.

(** Two first calls for one new user id, both through their first turn. *)
Lemma lock_registry_unique_witness :
  match
    schedule tables [0; 1]%nat
      (initial,
       call (Int 1000) <$>
         [ChargePoint (Int 1) (Int 50); ChargePoint (Int 1) (Int 100)])
  with
  | Some (w, ts) =>
      locks initial ⊆ locks w
      /\ (length (mutexes w) + size (locks initial)
          = length (mutexes initial) + size (locks w))%nat
      /\ length (mutexes w) = 1%nat
  | None => False
  end.
Proof.
  destruct (schedule tables [0; 1]%nat _) as [[w ts]|] eqn:E.
  - destruct (lock_registry_unique tables (Int 1000) _ initial w ts
                (schedule_rtc _ _ _ _ E)) as (H1 & H2 & _).
    split; [exact H1|]. split; [exact H2|].
    observe (fun '((w, _) : World Tables * list (prog response)) =>
               length (mutexes w)) 1%nat E Hl.
    exact Hl.
  - not_blocked E.
Defined.

(** Five concurrent charges of 500 under a limit of 1000, their turns
    interleaved: call 2 enters its critical section first, then call 0. *)
Lemma per_user_serializability_witness :
  match
    schedule tables
      [2; 2; 0; 2; 1; 2; 3; 2; 4; 0; 0; 0; 0; 4; 4; 1; 1; 3; 3]%nat
      (initial, call (Int 1000) <$> replicate 5 (ChargePoint (Int 1) (Int 500)))
  with
  | Some (w, ts) =>
      Forall (fun p => is_settled p = true) ts
      /\ length (filter (fun o => is_fulfilled o = true) (outcome_of <$> ts)) = 2%nat
      /\ length (filter
                   (fun o => is_rejected_with (LimitExceeded (Int 1000)) o = true)
                   (outcome_of <$> ts)) = 3%nat
      /\ balance (Int 1) (db w) = Int 1000
  | None => False
  end.
Proof.
  destruct (schedule tables _ _) as [[w ts]|] eqn:E.
  - assert (Hall : Forall (fun p => is_settled p = true) ts).
    { observe (fun '((_, ts) : World Tables * list (prog response)) =>
                 forallb is_settled ts) true E Hs.
      now apply all_settled. }
    split; [exact Hall|].
    destruct (per_user_serializability (Int 1000) (Int 1)
                (replicate 5 (ChargePoint (Int 1) (Int 500))) initial w ts)
      as (_ & _ & _ & _ & H).
    + repeat constructor; exists (Int 500); now left.
    + split; [intros k m Hk; discriminate Hk | exact idle_initial].
    + exact (schedule_rtc _ _ _ _ E).
    + apply H; auto. exists 1. split; [lia | reflexivity].
  - not_blocked E.
Defined.

(** The variant without locks is not serializable: five concurrent
    charges of 500 that all read the balance before any of them writes are
    all fulfilled, and the balance is 500. *)
Lemma unguarded_lost_update :
  match
    schedule tables [0; 1; 2; 3; 4; 0; 0; 1; 1; 2; 2; 3; 3; 4; 4]%nat
      (initial,
       call_unguarded (Int 1000) <$> replicate 5 (ChargePoint (Int 1) (Int 500)))
  with
  | Some (w, ts) =>
      Forall (fun p => is_fulfilled (outcome_of p) = true) ts
      /\ length ts = 5%nat
      /\ balance (Int 1) (db w) = Int 500
  | None => False
  end.
Proof.
  destruct (schedule tables _ _) as [[w ts]|] eqn:E.
  - vm_compute in E. injection E as <- <-. split; [repeat constructor|].
    split; [reflexivity|]. apply (bool_decide_unpack _). vm_compute. exact I.
  - not_blocked E.
Qed.

(** ** The integration tests of the repository, on the model

    [point.service.integration.spec.ts], with [CHARGE_LIMIT] at 1000. *)

(** A user charged 100 who charges 200 has 300. *)
Lemma integration_charge_twice :
  balance (Int 1)
    (db (snd (run_seq tables (Int 1000)
                [ChargePoint (Int 1) (Int 100); ChargePoint (Int 1) (Int 200)]
                initial)))
  = Int 300.
Proof. apply (bool_decide_unpack _). vm_compute. exact I. Qed.

(** A user charged 100 who charges more than the limit allows is rejected
    and still has 100. *)
Lemma integration_charge_over_limit :
  let res :=
    run_seq tables (Int 1000)
      [ChargePoint (Int 1) (Int 100); ChargePoint (Int 1) (Int (1000 - 99))]
      initial in
  fst res !! 1%nat = Some (Rejected (LimitExceeded (Int 1000)))
  /\ balance (Int 1) (db (snd res)) = Int 100.
Proof.
  split; [reflexivity|]. apply (bool_decide_unpack _). vm_compute. exact I.
Qed.

(** A user charged 100 who uses 50 has 50; a user charged 150 who uses 151
    is rejected and still has 150. *)
Lemma integration_use :
  balance (Int 1)
    (db (snd (run_seq tables (Int 1000)
                [ChargePoint (Int 1) (Int 100); UsePoint (Int 1) (Int 50)]
                initial)))
  = Int 50
  /\ (let res :=
        run_seq tables (Int 1000)
          [ChargePoint (Int 1) (Int 150); UsePoint (Int 1) (Int 151)] initial in
      fst res !! 1%nat = Some (Rejected InsufficientPoint)
      /\ balance (Int 1) (db (snd res)) = Int 150).
Proof.
  split; [|split]; try reflexivity;
    apply (bool_decide_unpack _); vm_compute; exact I.
Qed.

(** A user with 1000 who uses 500 five times at once: two uses are
    fulfilled, three are rejected, and 0 is left. *)
Lemma integration_concurrent_use :
  match
    schedule tables
      [0; 1; 2; 3; 4; 3; 3; 3; 3; 1; 1; 1; 1; 0; 0; 2; 2; 4; 4]%nat
      (snd (run tables (chargePoint (Int 1000) (Int 1) (Int 1000)) initial),
       call (Int 1000) <$> replicate 5 (UsePoint (Int 1) (Int 500)))
  with
  | Some (w, ts) =>
      length (filter (fun o => is_fulfilled o = true) (outcome_of <$> ts)) = 2%nat
      /\ length (filter
                   (fun o => is_rejected_with InsufficientPoint o = true)
                   (outcome_of <$> ts)) = 3%nat
      /\ balance (Int 1) (db w) = Int 0
  | None => False
  end.
Proof.
  destruct (schedule tables _ _) as [[w ts]|] eqn:E.
  - vm_compute in E. injection E as <- <-.
    split; [reflexivity|]. split; [reflexivity|].
    apply (bool_decide_unpack _). vm_compute. exact I.
  - not_blocked E.
Qed.

(** * Further properties of the service *)

(** ** The guard on arguments *)

(** X1: the guard [!Number.isInteger(n) || n <= 0] lets through exactly the
    positive integers: it stops [NaN], both infinities, zero, the negative
    numbers and every number with a fractional part, and nothing else. *)
Theorem guard_accepts_exactly_positive_integers (n : number) :
  (invalid n = false <-> positive_integer n)
  /\ invalid NaN = true /\ invalid PosInf = true /\ invalid NegInf = true
  /\ (forall z, z <= 0 -> invalid (Int z) = true)
  /\ (forall q : Qc, Qden (this q) <> 1%positive -> invalid (Fin q) = true).
Proof.
  split; [apply invalid_false|]. repeat split.
  - intros z Hz. rewrite invalid_Int. now apply bool_decide_eq_true.
  - intros q Hq. unfold invalid. simpl.
    now rewrite (bool_decide_eq_false_2 _ Hq).
Qed.

(** ** Reads *)

Lemma run_getPoint_tables u (w : World Tables) :
  invalid u = false ->
  run tables (getPoint u) w =
  (Fulfilled (default (mkUserPoint u (Int 0) (Int (now w))) (userTable (db w) !! u)),
   w).
Proof.
  intros Hu. unfold getPoint. rewrite Hu. simpl. unfold on_db. simpl.
  now rewrite set_db_db.
Qed.

Lemma run_getHistories_tables u (w : World Tables) :
  invalid u = false ->
  run tables (getHistories u) w = (Fulfilled (histories_of u (db w)), w).
Proof.
  intros Hu. unfold getHistories. rewrite Hu. simpl. unfold on_db. simpl.
  now rewrite set_db_db.
Qed.

(** X2: [getPoint] and [getHistories] take no lock and touch no lock:
    whatever the collaborators and the state, even while the user's lock is
    held by a charge in progress, the call settles at once and leaves the
    registry and every Mutex as they were; on the tables it changes
    nothing at all. *)
Theorem reads_never_wait {S} (C : Collaborators S) L (r : request)
    (w : World S) (wt : World Tables) :
  is_read r = true ->
  fst (run C (call L r) w) <> Pending
  /\ locks (snd (run C (call L r) w)) = locks w
  /\ mutexes (snd (run C (call L r) w)) = mutexes w
  /\ snd (run tables (call L r) wt) = wt.
Proof.
  intros Hr. destruct r as [u|u|u a|u a]; try discriminate Hr; simpl;
    unfold_monad; rewrite !run_bind.
  - unfold getPoint. destruct (invalid u); simpl.
    + repeat split; discriminate.
    + unfold on_db. simpl.
      destruct (userDb_selectById C (now w) u (db w)) as [[?|?] ?]; simpl;
        rewrite set_db_db; repeat split; discriminate.
  - unfold getHistories. destruct (invalid u); simpl.
    + repeat split; discriminate.
    + unfold on_db. simpl.
      destruct (historyDb_selectAllByUserId C (now w) u (db w)) as [[?|?] ?];
        simpl; rewrite set_db_db; repeat split; discriminate.
Qed.

Lemma reads_never_wait_witness :
  let held := set_mutex 0%nat true (registered (Int 1) initial) in
  locked 0%nat held = true
  /\ fst (run tables (call (Int 1000) (GetPoint (Int 1))) held) <> Pending
  /\ snd (run tables (call (Int 1000) (GetPoint (Int 1))) held) = held.
Proof.
  intros held. split; [reflexivity|].
  destruct (reads_never_wait tables (Int 1000) (GetPoint (Int 1)) held held)
    as (H1 & _ & _ & H4); [reflexivity|].
  split; [exact H1 | exact H4].
Defined.

(** ** What one call does to the tables *)

(** A call changes the tables only by the commit of a fulfilled charge or
    use. *)
Lemma call_cases L r (w : World Tables) :
  (db (snd (run tables (call L r) w)) = db w
   /\ (is_read r = false -> forall x, fst (run tables (call L r) w) <> Fulfilled x))
  \/ (exists u a v ty,
        ((r = ChargePoint u a /\ ty = CHARGE
          /\ v = add (balance u (db w)) a /\ gtb v L = false)
         \/ (r = UsePoint u a /\ ty = USE
             /\ v = sub (balance u (db w)) a /\ ltb v (Int 0) = false))
        /\ invalid u = false /\ invalid a = false
        /\ run tables (call L r) w =
           (Fulfilled (Point (mkUserPoint u v (Int (now w)))),
            set_db (committed u a v ty (now w) (db w)) (registered u w))).
Proof.
  destruct r as [u|u|u a|u a]; simpl; unfold_monad; rewrite run_bind.
  - left. destruct (invalid u) eqn:Hu.
    + unfold getPoint. rewrite Hu. simpl. split; [reflexivity | discriminate].
    + rewrite run_getPoint_tables by exact Hu. split; [reflexivity | discriminate].
  - left. destruct (invalid u) eqn:Hu.
    + unfold getHistories. rewrite Hu. simpl. split; [reflexivity | discriminate].
    + rewrite run_getHistories_tables by exact Hu.
      split; [reflexivity | discriminate].
  - destruct (invalid u) eqn:Hu;
      [left; unfold chargePoint; rewrite Hu; simpl; split;
       [reflexivity | intros _ x; discriminate]|].
    destruct (invalid a) eqn:Ha;
      [left; unfold chargePoint; rewrite Hu, Ha; simpl; split;
       [reflexivity | intros _ x; discriminate]|].
    rewrite run_chargePoint_tables by assumption.
    destruct (locked _ _);
      [left; simpl; rewrite db_registered; split;
       [reflexivity | intros _ x; discriminate]|].
    destruct (gtb _ _) eqn:Hgt;
      [left; simpl; rewrite db_registered; split;
       [reflexivity | intros _ x; discriminate]|].
    right. exists u, a, (add (balance u (db w)) a), CHARGE.
    split; [left; auto|]. split; [exact Hu|]. split; [exact Ha|]. reflexivity.
  - destruct (invalid u) eqn:Hu;
      [left; unfold usePoint; rewrite Hu; simpl; split;
       [reflexivity | intros _ x; discriminate]|].
    destruct (invalid a) eqn:Ha;
      [left; unfold usePoint; rewrite Hu, Ha; simpl; split;
       [reflexivity | intros _ x; discriminate]|].
    rewrite run_usePoint_tables by assumption.
    destruct (locked _ _);
      [left; simpl; rewrite db_registered; split;
       [reflexivity | intros _ x; discriminate]|].
    destruct (ltb _ _) eqn:Hlt;
      [left; simpl; rewrite db_registered; split;
       [reflexivity | intros _ x; discriminate]|].
    right. exists u, a, (sub (balance u (db w)) a), USE.
    split; [right; auto|]. split; [exact Hu|]. split; [exact Ha|]. reflexivity.
Qed.

Lemma case_user L r u a v ty (w : World Tables) :
  (r = ChargePoint u a /\ ty = CHARGE
   /\ v = add (balance u (db w)) a /\ gtb v L = false)
  \/ (r = UsePoint u a /\ ty = USE
      /\ v = sub (balance u (db w)) a /\ ltb v (Int 0) = false) ->
  user_of r = u /\ is_read r = false.
Proof. intros [(-> & _)|(-> & _)]; split; reflexivity. Qed.

Lemma locked_registered {S} u m (w : World S) :
  locked m (registered u w) = locked m w.
Proof.
  unfold registered. destruct (locks w !! u); [reflexivity|].
  unfold locked. simpl. apply bool_decide_ext.
  destruct (decide (m < length (mutexes w))%nat).
  - now rewrite lookup_app_l.
  - rewrite lookup_app_r by lia. rewrite (lookup_ge_None_2 (mutexes w)) by lia.
    destruct (m - length (mutexes w))%nat as [|[|]]; simpl; split; congruence.
Qed.

(** A read settles at once and touches no lock, whatever the tables. *)
Lemma read_settles {S} (C : Collaborators S) L (r : request) (w : World S) :
  is_read r = true ->
  fst (run C (call L r) w) <> Pending
  /\ locks (snd (run C (call L r) w)) = locks w
  /\ mutexes (snd (run C (call L r) w)) = mutexes w.
Proof.
  intros Hr. destruct r as [u|u|u a|u a]; try discriminate Hr; simpl;
    unfold_monad; rewrite !run_bind.
  - unfold getPoint. destruct (invalid u); simpl.
    + repeat split; discriminate.
    + unfold on_db. simpl.
      destruct (userDb_selectById C (now w) u (db w)) as [[?|?] ?]; simpl;
        repeat split; discriminate.
  - unfold getHistories. destruct (invalid u); simpl.
    + repeat split; discriminate.
    + unfold on_db. simpl.
      destruct (historyDb_selectAllByUserId C (now w) u (db w)) as [[?|?] ?];
        simpl; repeat split; discriminate.
Qed.

(** X3: a call made while the user's lock is free settles (it is fulfilled
    or rejected, never left waiting) and leaves every Mutex as it found it,
    whatever the collaborators do: [runExclusive] releases the lock also
    when a table rejects or the callback throws. *)
Theorem calls_leave_locks_as_found {S} (C : Collaborators S) L (r : request)
    (w : World S) :
  free (user_of r) w ->
  fst (run C (call L r) w) <> Pending
  /\ forall m, locked m (snd (run C (call L r) w)) = locked m w.
Proof.
  intros Hf. destruct r as [u|u|u a|u a].
  - destruct (read_settles C L (GetPoint u) w eq_refl) as (H1 & _ & H3).
    split; [exact H1|]. intros m. unfold locked. now rewrite H3.
  - destruct (read_settles C L (GetHistories u) w eq_refl) as (H1 & _ & H3).
    split; [exact H1|]. intros m. unfold locked. now rewrite H3.
  - simpl in *. unfold_monad. rewrite run_bind.
    destruct (invalid u) eqn:Hu;
      [unfold chargePoint; rewrite Hu; simpl; split; [discriminate | reflexivity]|].
    destruct (invalid a) eqn:Ha;
      [unfold chargePoint; rewrite Hu, Ha; simpl;
       split; [discriminate | reflexivity]|].
    rewrite run_chargePoint by assumption.
    pose proof (exec_not_pending C (charge_section L u a) (db w) (now w)
                  (lockless_charge_section L u a)) as Hnp.
    destruct (exec C (charge_section L u a) (db w) (now w)) as [[v|e|] d];
      simpl in *; try congruence;
      (split; [discriminate | intros m; apply (locked_registered u m w)]).
  - simpl in *. unfold_monad. rewrite run_bind.
    destruct (invalid u) eqn:Hu;
      [unfold usePoint; rewrite Hu; simpl; split; [discriminate | reflexivity]|].
    destruct (invalid a) eqn:Ha;
      [unfold usePoint; rewrite Hu, Ha; simpl;
       split; [discriminate | reflexivity]|].
    rewrite run_usePoint by assumption.
    pose proof (exec_not_pending C (use_section u a) (db w) (now w)
                  (lockless_use_section u a)) as Hnp.
    destruct (exec C (use_section u a) (db w) (now w)) as [[v|e|] d];
      simpl in *; try congruence;
      (split; [discriminate | intros m; apply (locked_registered u m w)]).
Qed.

Lemma calls_leave_locks_as_found_witness :
  let ins := fun (_ : Z) (_ _ : number) (_ : TransactionType) (_ : number)
               (t : Tables) =>
               (@rejected PointHistory (new_Error [Text "insert failed"]), t) in
  let res :=
    run (with_history_insert ins)
      (call (Int 1000) (ChargePoint (Int 1) (Int 500))) initial in
  fst res <> Pending /\ forall m, locked m (snd res) = locked m initial.
Proof.
  intros ins res.
  apply (calls_leave_locks_as_found (with_history_insert ins) (Int 1000)
           (ChargePoint (Int 1) (Int 500)) initial).
  apply free_initial.
Defined.

(** A call writes nothing of another user. *)
Lemma call_frame L r u' (w : World Tables) :
  u' <> user_of r ->
  userTable (db (snd (run tables (call L r) w))) !! u' = userTable (db w) !! u'
  /\ histories_of u' (db (snd (run tables (call L r) w))) = histories_of u' (db w).
Proof.
  intros Hne.
  destruct (call_cases L r w) as [[-> _]|(u & a & v & ty & Hc & _ & _ & ->)].
  - split; reflexivity.
  - destruct (case_user L r u a v ty w Hc) as [Hu _]. rewrite Hu in Hne.
    simpl. split.
    + now apply lookup_insert_ne.
    + unfold histories_of. simpl. rewrite filter_app, filter_cons, filter_nil.
      simpl. rewrite decide_False by congruence. apply app_nil_r.
Qed.

(** X4: a call for one user leaves every other user as it was: the other
    user's stored record and history records are unchanged, whatever the
    call and whether or not a lock is held. *)
Theorem other_users_untouched L (r : request) (u' : number) (w : World Tables) :
  u' <> user_of r ->
  userTable (db (snd (run tables (call L r) w))) !! u' = userTable (db w) !! u'
  /\ histories_of u' (db (snd (run tables (call L r) w))) = histories_of u' (db w).
Proof.
  intros Hne. now apply call_frame.
Qed.

Lemma other_users_untouched_witness :
  let w' := snd (run tables (call (Int 1000) (ChargePoint (Int 1) (Int 500))) initial) in
  userTable (db w') !! Int 2 = userTable (db initial) !! Int 2
  /\ histories_of (Int 2) (db w') = histories_of (Int 2) (db initial).
Proof.
  intros w'.
  apply (other_users_untouched (Int 1000) (ChargePoint (Int 1) (Int 500))
           (Int 2) initial).
  simpl. intros [= H].
Defined.

(** X5: the history is append-only and grows with the fulfilled charges
    and uses only: a call either leaves the history table as it was, and
    then it is not a fulfilled [chargePoint] or [usePoint]; or it appends
    exactly one record, of its user, amount and kind, and then it is a
    fulfilled [chargePoint] or [usePoint]. *)
Theorem history_grows_by_fulfilled_mutations L (r : request) (w : World Tables) :
  let res := run tables (call L r) w in
  (historyTable (db (snd res)) = historyTable (db w)
   /\ (is_read r = false -> forall x, fst res <> Fulfilled x))
  \/ (exists h p,
        historyTable (db (snd res)) = historyTable (db w) ++ [h]
        /\ userId h = user_of r
        /\ (r = ChargePoint (userId h) (amount h) /\ type h = CHARGE
            \/ r = UsePoint (userId h) (amount h) /\ type h = USE)
        /\ fst res = Fulfilled (Point p)).
Proof.
  intros res. subst res.
  destruct (call_cases L r w) as [[Hdb Hno]|(u & a & v & ty & Hc & _ & _ & Hrun)].
  - left. rewrite Hdb. split; [reflexivity | exact Hno].
  - right. rewrite Hrun. simpl. eexists _, _. split; [reflexivity|]. simpl.
    destruct Hc as [(-> & -> & _)|(-> & -> & _)]; simpl; auto.
Qed.

(** X6: read your writes.  After a fulfilled [chargePoint] or [usePoint],
    [getPoint] of that user returns a record with the id and the balance
    of the record the call returned, and [getHistories] of that user
    returns the user's earlier records followed by one new record.  The
    time stamps are not compared: the table stamps the record when it is
    written, the service stamps its answer afterwards. *)
Theorem reads_see_the_commit L (r : request) (p : UserPoint) (w : World Tables) :
  is_read r = false ->
  fst (run tables (call L r) w) = Fulfilled (Point p) ->
  let w' := snd (run tables (call L r) w) in
  (exists p',
      run tables (getPoint (user_of r)) w' = (Fulfilled p', w')
      /\ id p' = id p /\ point p' = point p)
  /\ exists h,
       run tables (getHistories (user_of r)) w'
       = (Fulfilled (histories_of (user_of r) (db w) ++ [h]), w')
       /\ userId h = user_of r.
Proof.
  intros Hr Hp w'. subst w'.
  destruct (call_cases L r w) as [[_ Hno]|(u & a & v & ty & Hc & Hu & _ & Hrun)].
  - now destruct (Hno Hr (Point p)).
  - destruct (case_user L r u a v ty w Hc) as [-> _].
    rewrite Hrun in *. simpl in Hp. injection Hp as <-. simpl. split.
    + eexists. split.
      * rewrite run_getPoint_tables by exact Hu. simpl.
        now rewrite lookup_insert_eq.
      * split; reflexivity.
    + eexists. split.
      * rewrite run_getHistories_tables by exact Hu. unfold histories_of.
        simpl. rewrite filter_app, filter_cons, filter_nil. simpl.
        rewrite decide_True by reflexivity. reflexivity.
      * reflexivity.
Qed.

Lemma reads_see_the_commit_witness :
  let w' := snd (run tables (call (Int 1000) (ChargePoint (Int 1) (Int 500))) initial) in
  exists p',
    run tables (getPoint (Int 1)) w' = (Fulfilled p', w')
    /\ id p' = Int 1 /\ point p' = add (Int 0) (Int 500).
Proof.
  intros w'.
  destruct (reads_see_the_commit (Int 1000) (ChargePoint (Int 1) (Int 500))
              (mkUserPoint (Int 1) (add (Int 0) (Int 500)) (Int 0)) initial)
    as [H _].
  - reflexivity.
  - vm_compute. reflexivity.
  - exact H.
Defined.

(** X7: round trip.  From an integer balance [b >= 0], a charge of [a]
    that the limit allows, with [b + a] at most [2^53], followed by a use
    of [a] are both fulfilled, with [b + a] and then [b]; the balance is
    [b] again, and the history has gained exactly a [CHARGE] and a [USE]
    record of [a].  (Beyond [2^53] the sum is rounded and the use need not
    give [b] back.) *)
Theorem charge_then_use_restores L (u a b : Z) (w : World Tables) :
  0 < u -> 0 < a -> 0 <= b -> b + a <= 2 ^ 53 -> free (Int u) w ->
  balance (Int u) (db w) = Int b -> leb (Int (b + a)) L = true ->
  let res :=
    run_seq tables L [ChargePoint (Int u) (Int a); UsePoint (Int u) (Int a)] w in
  (exists p1 p2,
      fst res = [Fulfilled (Point p1); Fulfilled (Point p2)]
      /\ point p1 = Int (b + a) /\ point p2 = Int b)
  /\ balance (Int u) (db (snd res)) = Int b
  /\ exists h1 h2,
       historyTable (db (snd res)) = historyTable (db w) ++ [h1; h2]
       /\ type h1 = CHARGE /\ amount h1 = Int a
       /\ type h2 = USE /\ amount h2 = Int a.
Proof.
  intros Hu Ha Hb Hs Hf HB Hle res. subst res. cbn [run_seq call]. unfold_monad.
  rewrite run_bind, run_chargePoint_tables by auto using invalid_pos.
  rewrite (proj1 (free_iff (Int u) w) Hf).
  rewrite HB, add_Int, (leb_gtb _ _ Hle) by lia. cbn [run].
  rewrite run_bind, run_usePoint_tables by auto using invalid_pos.
  rewrite (proj1 (free_iff (Int u) _)
             (free_after (Int u) (committed (Int u) (Int a) (Int (b + a)) CHARGE
                                    (now w) (db w)) w Hf)).
  cbn [db set_db]. rewrite balance_committed, sub_Int by lia.
  replace (b + a - a) with b by lia.
  rewrite ltb_Int, (bool_decide_eq_false_2 (b < 0)) by lia.
  cbn [run fst snd db set_db]. split; [|split].
  - eexists _, _. split; [reflexivity|]. split; reflexivity.
  - apply balance_committed.
  - eexists _, _. split; [simpl; rewrite <- app_assoc; reflexivity|].
    repeat split; reflexivity.
Qed.

Lemma charge_then_use_restores_witness :
  balance (Int 1)
    (db (snd (run_seq tables (Int 1000)
                [ChargePoint (Int 1) (Int 500); UsePoint (Int 1) (Int 500)]
                initial)))
  = Int 0.
Proof.
  destruct (charge_then_use_restores (Int 1000) 1 500 0 initial) as (_ & H & _);
    try lia; try reflexivity.
  - apply free_initial.
  - exact H.
Defined.

(** ** The balance and the history agree *)

Lemma replay_app u h r :
  replay u (h ++ [r]) =
  if decide (userId r = u) then
    match type r with
    | CHARGE => add (replay u h) (amount r)
    | USE => sub (replay u h) (amount r)
    end
  else replay u h.
Proof. unfold replay. now rewrite fold_left_app. Qed.

Lemma call_consistent L r u (w : World Tables) :
  consistent u (db w) -> consistent u (db (snd (run tables (call L r) w))).
Proof.
  intros Hc.
  destruct (call_cases L r w) as [[-> _]|(i & a & v & ty & Hcase & _ & _ & ->)];
    [exact Hc|].
  unfold consistent in *. cbn [snd db set_db].
  replace (historyTable (committed i a v ty (now w) (db w)))
    with (historyTable (db w) ++
            [mkPointHistory (Int (Z.of_nat (length (historyTable (db w))) + 1))
               i a ty (Int (now w))]) by reflexivity.
  rewrite replay_app. cbn [userId type amount].
  destruct (decide (i = u)) as [->|Hne].
  - rewrite balance_committed, <- Hc.
    now destruct Hcase as [(_ & -> & -> & _)|(_ & -> & -> & _)].
  - now rewrite balance_committed_ne.
Qed.

Lemma run_seq_consistent L rs u (w : World Tables) :
  consistent u (db w) -> consistent u (db (snd (run_seq tables L rs w))).
Proof.
  revert w. induction rs as [|r rs IH]; intros w Hc; simpl; [exact Hc|].
  pose proof (call_consistent L r u w Hc) as H1.
  destruct (run tables (call L r) w) as [o w1]. simpl in H1.
  specialize (IH w1 H1). now destruct (run_seq tables L rs w1).
Qed.

(** X8: the ledger is auditable.  If a user's balance is what replaying
    the history gives (every [CHARGE] of the user added, every [USE]
    subtracted, in the order of the history and with the binary64
    addition and subtraction of the service, so that the replay rounds
    where the service rounded), it still is after any sequence of calls
    made one after the other, for any users and arguments; it is so in
    the empty tables. *)
Theorem calls_keep_ledger_consistent L (rs : list request) (u : number)
    (w : World Tables) :
  consistent u (db w) ->
  consistent u (db (snd (run_seq tables L rs w)))
  /\ consistent u (db initial).
Proof. intros Hc. split; [now apply run_seq_consistent | reflexivity]. Qed.

(** Charges of [2^53] and then of 1 under a limit of [2^53]: the second
    sum rounds to [2^53], in the service and in the replay alike. *)
Lemma calls_keep_ledger_consistent_witness :
  consistent (Int 1)
    (db (snd (run_seq tables (Int (2 ^ 53))
                [ChargePoint (Int 1) (Int (2 ^ 53)); ChargePoint (Int 1) (Int 1)]
                initial)))
  /\ consistent (Int 1) (db initial).
Proof.
  exact (calls_keep_ledger_consistent (Int (2 ^ 53))
           [ChargePoint (Int 1) (Int (2 ^ 53)); ChargePoint (Int 1) (Int 1)]
           (Int 1) initial eq_refl).
Defined.

(** X9: concurrent calls keep the ledger auditable.  When every call of a
    pool of concurrent [chargePoint] and [usePoint] calls on one user is
    settled, whatever the interleaving, every user's balance is what
    replaying the history gives (with the binary64 addition and
    subtraction of the service), if it was at the start. *)
Theorem settled_pool_is_consistent L u (reqs : list request)
    (w0 w : World Tables) (ts : list (prog response)) (u' : number) :
  Forall (mutation_of u) reqs -> quiet w0 -> consistent u' (db w0) ->
  rtc (step tables) (w0, call L <$> reqs) (w, ts) ->
  Forall (fun p => is_settled p = true) ts ->
  consistent u' (db w).
Proof.
  intros Hreqs Hquiet Hc Hreach Hall.
  destruct (serializable tables L u reqs w0 Hreqs Hquiet w ts Hreach Hall)
    as (order & _ & <- & _).
  now apply run_seq_consistent.
Qed.

Lemma quiet_initial : quiet initial.
Proof. split; [intros k m Hk; discriminate Hk | exact idle_initial]. Qed.

Lemma settled_pool_is_consistent_witness :
  match
    schedule tables
      [0; 1; 1; 1; 1; 1; 0; 0; 0; 0]%nat
      (initial,
       call (Int 1000) <$> [ChargePoint (Int 1) (Int 300); ChargePoint (Int 1) (Int 400)])
  with
  | Some (w, ts) => consistent (Int 1) (db w)
  | None => False
  end.
Proof.
  destruct (schedule tables _ _) as [[w ts]|] eqn:E.
  - apply (settled_pool_is_consistent (Int 1000) (Int 1)
             [ChargePoint (Int 1) (Int 300); ChargePoint (Int 1) (Int 400)]
             initial w ts (Int 1)).
    + repeat constructor; eexists; left; reflexivity.
    + exact quiet_initial.
    + reflexivity.
    + exact (schedule_rtc _ _ _ _ E).
    + vm_compute in E. injection E as _ <-. repeat constructor.
  - not_blocked E.
Defined.

(** ** The range of the balance, in every pool *)

Lemma range_rtc L u (c c' : World Tables * list (prog response)) :
  rtc (step tables) c c' ->
  in_range L (balance u (db (fst c))) = true -> Forall (range_safe L u) (snd c) ->
  in_range L (balance u (db (fst c'))) = true /\ Forall (range_safe L u) (snd c').
Proof.
  induction 1 as [c|[w ts] c2 c3 [i Hi] _ IH]; intros Hb Hts.
  - now split.
  - destruct (range_step L u i w ts c2 Hb Hts Hi) as [Hb2 Hts2].
    now apply IH.
Qed.

Lemma range_safe_call_unguarded L u r :
  L <> NaN -> range_safe L u (call_unguarded L r).
Proof.
  intros HL. destruct r as [i|i|i a|i a]; simpl; unfold_monad;
    (apply range_safe_bind; [|intros; exact I]).
  - unfold Unguarded.getPoint. destruct (invalid i); simpl; [exact I|].
    split; [exact I|]. intros [?|?] _; exact I.
  - unfold Unguarded.getHistories. destruct (invalid i); simpl; [exact I|].
    split; [exact I|]. intros [?|?] _; exact I.
  - destruct (invalid i) eqn:Hi;
      [unfold Unguarded.chargePoint; rewrite Hi; exact I|].
    destruct (invalid a) eqn:Ha;
      [unfold Unguarded.chargePoint; rewrite Hi, Ha; exact I|].
    unfold Unguarded.chargePoint. rewrite Hi, Ha. unfold_monad. simpl.
    split; [exact I|]. intros [up|e] Hup; simpl; [|exact I].
    destruct (gtb (add (point up) a) L) eqn:Hgt; simpl; [exact I|].
    split; [intros Hiu; now apply in_range_charged; auto|].
    intros [?|?] _; simpl; [|exact I]. split; [exact I|].
    intros [?|?] _; simpl; [|exact I]. split; [exact I|].
    intros [?|?] _; simpl; [|exact I]. split; [exact I|].
    intros [?|?] _; exact I.
  - destruct (invalid i) eqn:Hi;
      [unfold Unguarded.usePoint; rewrite Hi; exact I|].
    destruct (invalid a) eqn:Ha;
      [unfold Unguarded.usePoint; rewrite Hi, Ha; exact I|].
    unfold Unguarded.usePoint. rewrite Hi, Ha. unfold_monad. simpl.
    split; [exact I|]. intros [up|e] Hup; simpl; [|exact I].
    destruct (ltb (sub (point up) a) (Int 0)) eqn:Hlt; simpl; [exact I|].
    split; [intros Hiu; now apply in_range_used; auto|].
    intros [?|?] _; simpl; [|exact I]. split; [exact I|].
    intros [?|?] _; simpl; [|exact I]. split; [exact I|].
    intros [?|?] _; simpl; [|exact I]. split; [exact I|].
    intros [?|?] _; exact I.
Qed.

(** X10: in every pool of concurrent calls of the service, of any methods,
    users and arguments, started in any state and interleaved in any way,
    a balance that is [>= 0] and [<= chargeLimit] stays so at every
    moment, the limit being a number: every balance written is computed
    from a balance read and checked before it is written. *)
Theorem every_pool_keeps_the_range L (u : number) (reqs : list request)
    (w0 w : World Tables) (ts : list (prog response)) :
  L <> NaN -> in_range L (balance u (db w0)) = true ->
  rtc (step tables) (w0, call L <$> reqs) (w, ts) ->
  in_range L (balance u (db w)) = true.
Proof.
  intros HL Hb Hreach.
  apply (range_rtc L u _ _ Hreach Hb).
  apply Forall_fmap, Forall_forall. intros r _. now apply range_safe_call.
Qed.

Lemma every_pool_keeps_the_range_witness :
  match
    schedule tables [0; 1; 1; 2; 1; 0; 3; 1]%nat
      (initial,
       call (Int 1000) <$>
         [ChargePoint (Int 1) (Int 600); ChargePoint (Int 2) (Int 700);
          GetPoint (Int 2); UsePoint (Int 1) (Int 5)])
  with
  | Some (w, ts) => in_range (Int 1000) (balance (Int 2) (db w)) = true
  | None => False
  end.
Proof.
  destruct (schedule tables _ _) as [[w ts]|] eqn:E.
  - apply (every_pool_keeps_the_range (Int 1000) (Int 2)
             [ChargePoint (Int 1) (Int 600); ChargePoint (Int 2) (Int 700);
              GetPoint (Int 2); UsePoint (Int 1) (Int 5)] initial w ts).
    + discriminate.
    + reflexivity.
    + exact (schedule_rtc _ _ _ _ E).
  - not_blocked E.
Defined.

(** X11: the variant without locks loses updates but never leaves the
    range: in every pool of concurrent calls of that variant, interleaved
    in any way, a balance that is [>= 0] and [<= chargeLimit] stays so at
    every moment, the limit being a number. *)
Theorem unguarded_pool_keeps_the_range L (u : number) (reqs : list request)
    (w0 w : World Tables) (ts : list (prog response)) :
  L <> NaN -> in_range L (balance u (db w0)) = true ->
  rtc (step tables) (w0, call_unguarded L <$> reqs) (w, ts) ->
  in_range L (balance u (db w)) = true.
Proof.
  intros HL Hb Hreach.
  apply (range_rtc L u _ _ Hreach Hb).
  apply Forall_fmap, Forall_forall. intros r _.
  now apply range_safe_call_unguarded.
Qed.

Lemma unguarded_pool_keeps_the_range_witness :
  match
    schedule tables [0; 1; 0; 1; 0; 1]%nat
      (initial,
       call_unguarded (Int 1000) <$>
         [ChargePoint (Int 1) (Int 600); ChargePoint (Int 1) (Int 700)])
  with
  | Some (w, ts) => in_range (Int 1000) (balance (Int 1) (db w)) = true
  | None => False
  end.
Proof.
  destruct (schedule tables _ _) as [[w ts]|] eqn:E.
  - apply (unguarded_pool_keeps_the_range (Int 1000) (Int 1)
             [ChargePoint (Int 1) (Int 600); ChargePoint (Int 1) (Int 700)]
             initial w ts).
    + discriminate.
    + reflexivity.
    + exact (schedule_rtc _ _ _ _ E).
  - not_blocked E.
Defined.

(** ** One Mutex object per user *)

Lemma registered_sound {S} u (w : World S) :
  registry_injective w -> registry_bounded w ->
  registry_injective (registered u w) /\ registry_bounded (registered u w).
Proof.
  intros Hinj Hb. unfold registered.
  destruct (locks w !! u) eqn:E; [now split|]. split.
  - intros u1 u2 m. simpl.
    destruct (decide (u1 = u)) as [->|H1], (decide (u2 = u)) as [->|H2];
      rewrite ?lookup_insert_eq, ?lookup_insert_ne by congruence; auto.
    + intros [= <-] H%Hb. lia.
    + intros H%Hb [= <-]. lia.
    + apply Hinj.
  - intros k m. simpl. rewrite length_app. simpl.
    destruct (decide (k = u)) as [->|H1];
      rewrite ?lookup_insert_eq, ?lookup_insert_ne by congruence.
    + intros [= <-]. lia.
    + intros H%Hb. lia.
Qed.

Lemma registry_sound_step {S} (C : Collaborators S) L i (w : World S)
    (ts : list (prog response)) c' :
  Forall (past_registry L) ts ->
  turn C i (w, ts) = Some c' ->
  registry_injective w -> registry_bounded w ->
  Forall (past_registry L) (snd c')
  /\ registry_injective (fst c') /\ registry_bounded (fst c').
Proof.
  intros Hts Ht Hinj Hb.
  destruct (ts !! i) as [p|] eqn:Hi;
    [|unfold turn in Ht; rewrite Hi in Ht; discriminate].
  destruct (Forall_lookup_1 _ _ _ _ Hts Hi) as [Hp | (u & r & Hr & Hv & ->)].
  - unfold turn in Ht. rewrite Hi in Ht.
    destruct p as [?|?|X o k]; try discriminate.
    destruct (enabled o w); [|discriminate].
    destruct Hp as [Ho Hk].
    destruct (registry_free_handle C o w Ho) as [Hl Hm].
    destruct (handle C o w) as [r w1]. simpl in *.
    destruct (registry_free_advance C (k r) w1 (Hk r)) as (H1 & H2 & H3).
    destruct (advance C (k r) w1) as [p w2]. simpl in *.
    injection Ht as <-. simpl. split; [|split].
    + apply Forall_insert; [exact Hts | now left].
    + unfold registry_injective. rewrite H2, Hl. exact Hinj.
    + unfold registry_bounded. rewrite H2, H3, Hl, Hm. exact Hb.
  - rewrite (turn_fresh C L u ts i r w Hi Hr Hv) in Ht. injection Ht as <-.
    simpl. split; [|now apply registered_sound].
    apply Forall_insert; [exact Hts|]. left.
    apply registry_free_guarded, lockless_section_of.
Qed.

Lemma registry_sound_rtc {S} (C : Collaborators S) L
    (c c' : World S * list (prog response)) :
  rtc (step C) c c' ->
  Forall (past_registry L) (snd c) ->
  registry_injective (fst c) -> registry_bounded (fst c) ->
  registry_injective (fst c') /\ registry_bounded (fst c').
Proof.
  induction 1 as [c|[w ts] c2 c3 [i Hi] _ IH]; intros Hts Hinj Hb.
  - now split.
  - destruct (registry_sound_step C L i w ts c2 Hts Hi Hinj Hb)
      as (Hts2 & Hinj2 & Hb2).
    now apply IH.
Qed.

(** X12: two different user ids never share a Mutex object.  When the
    registry maps different ids to different objects that exist (as the
    empty registry of a new service does), it still does in every state
    reached by a pool of concurrent calls, whatever the interleaving:
    [getMutexForUser] gives a new id an object created for it alone. *)
Theorem users_never_share_a_mutex {S} (C : Collaborators S) L
    (reqs : list request) (w0 w : World S) (ts : list (prog response)) :
  registry_injective w0 -> registry_bounded w0 ->
  rtc (step C) (w0, call L <$> reqs) (w, ts) ->
  registry_injective w /\ registry_bounded w.
Proof.
  intros Hinj Hb Hreach.
  exact (registry_sound_rtc C L _ _ Hreach (pool_past_registry L reqs) Hinj Hb).
Qed.

Lemma registry_sound_initial : registry_injective initial /\ registry_bounded initial.
Proof. split; [intros u1 u2 m H | intros k m H]; discriminate H. Qed.

Lemma users_never_share_a_mutex_witness :
  match
    schedule tables [0; 1; 2; 2; 1]%nat
      (initial,
       call (Int 1000) <$>
         [ChargePoint (Int 1) (Int 600); ChargePoint (Int 2) (Int 700);
          UsePoint (Int 3) (Int 5)])
  with
  | Some (w, ts) =>
      (registry_injective w /\ registry_bounded w)
      /\ locks w !! Int 1 = Some 0%nat /\ locks w !! Int 2 = Some 1%nat
      /\ locks w !! Int 3 = Some 2%nat
  | None => False
  end.
Proof.
  destruct (schedule tables _ _) as [[w ts]|] eqn:E.
  - split.
    + apply (users_never_share_a_mutex tables (Int 1000)
               [ChargePoint (Int 1) (Int 600); ChargePoint (Int 2) (Int 700);
                UsePoint (Int 3) (Int 5)] initial w ts).
      * apply registry_sound_initial.
      * apply registry_sound_initial.
      * exact (schedule_rtc _ _ _ _ E).
    + observe (fun '((w, _) : World Tables * list (prog response)) =>
                 (locks w !! Int 1, locks w !! Int 2, locks w !! Int 3))
        (Some 0%nat, Some 1%nat, Some 2%nat) E Hl.
      injection Hl as H1 H2 H3. auto.
  - not_blocked E.
Defined.

(** ** Calls on different users do not wait for each other *)

Lemma locked_set_mutex_ne {S} m m' b (w : World S) :
  m <> m' -> locked m' (set_mutex m b w) = locked m' w.
Proof.
  intros Hne. unfold locked, set_mutex. simpl.
  now rewrite list_lookup_insert_ne.
Qed.

Lemma locked_set_mutex {S} m (w : World S) :
  (m < length (mutexes w))%nat -> locked m (set_mutex m true w) = true.
Proof.
  intros Hlt. unfold locked, set_mutex. simpl.
  apply bool_decide_eq_true. now apply list_lookup_insert_eq.
Qed.

Lemma holding_section_of m L u r :
  mutation_of u r ->
  parked (holding m (section_of L r) u) = true
  /\ in_critical_section (holding m (section_of L r) u) = true.
Proof. intros [a [-> | ->]]; split; reflexivity. Qed.

(** X13: the lock is per user, not global.  Two valid calls of
    [chargePoint] or [usePoint] on different users, made together on a
    service where no lock is held, can both be inside their critical
    sections at the same moment, each holding its own user's Mutex: after
    two turns of the first call and two of the second, both await their
    [selectById], none waits for the other. *)
Theorem different_users_run_in_parallel {S} (C : Collaborators S) L
    (r1 r2 : request) (u1 u2 : number) (w0 : World S) :
  mutation_of u1 r1 -> mutation_of u2 r2 ->
  valid r1 = true -> valid r2 = true -> u1 <> u2 ->
  quiet w0 -> registry_injective w0 ->
  exists w p q m1 m2,
    schedule C [0; 0; 1; 1]%nat (w0, [call L r1; call L r2]) = Some (w, [p; q])
    /\ in_critical_section p = true /\ in_critical_section q = true
    /\ locks w !! u1 = Some m1 /\ locks w !! u2 = Some m2 /\ m1 <> m2
    /\ locked m1 w = true /\ locked m2 w = true.
Proof.
  intros Hr1 Hr2 Hv1 Hv2 Hne [Hwf Hidle] Hinj.
  set (m1 := mutex_for u1 w0). set (w1 := registered u1 w0).
  set (w2 := set_mutex m1 true w1).
  set (m2 := mutex_for u2 w2). set (w3 := registered u2 w2).
  set (w4 := set_mutex m2 true w3).
  destruct (registered_sound u1 w0 Hinj Hwf) as [Hinj1 Hb1]. fold w1 in Hinj1, Hb1.
  assert (Hl1 : locks w1 !! u1 = Some m1) by apply locks_registered.
  assert (Hm1 : (m1 < length (mutexes w1))%nat) by (eapply Hb1; eauto).
  assert (Hidle1 : idle w1) by now apply registered_idle.
  assert (Hinj2 : registry_injective w2) by exact Hinj1.
  assert (Hb2 : registry_bounded w2).
  { intros k m Hk. unfold w2, set_mutex. simpl. rewrite length_insert.
    eapply Hb1; eauto. }
  destruct (registered_sound u2 w2 Hinj2 Hb2) as [Hinj3 Hb3].
  fold w3 in Hinj3, Hb3.
  assert (Hl2 : locks w3 !! u2 = Some m2) by apply locks_registered.
  assert (Hm2 : (m2 < length (mutexes w3))%nat) by (eapply Hb3; eauto).
  assert (Hl13 : locks w3 !! u1 = Some m1).
  { pose proof (registered_grows u2 w2) as [Hsub _].
    eapply lookup_weaken; [|exact Hsub]. exact Hl1. }
  assert (Hm12 : m1 <> m2).
  { intros Heq. apply Hne. apply (Hinj3 u1 u2 m1); [exact Hl13|].
    now rewrite Heq. }
  assert (Hfree2 : locked m2 w3 = false).
  { unfold w3. rewrite locked_registered. unfold w2.
    rewrite locked_set_mutex_ne by exact Hm12. apply Hidle1. }
  destruct (holding_section_of m1 L u1 r1 Hr1) as [Hp1 Hc1].
  destruct (holding_section_of m2 L u2 r2 Hr2) as [Hp2 Hc2].
  exists w4, (holding m1 (section_of L r1) u1),
    (holding m2 (section_of L r2) u2), m1, m2.
  split; [|repeat split; auto].
  - set (g1 := guarded m1 (section_of L r1) u1).
    set (h1 := holding m1 (section_of L r1) u1) in *.
    set (g2 := guarded m2 (section_of L r2) u2).
    set (h2 := holding m2 (section_of L r2) u2) in *.
    cbn [schedule].
    rewrite (turn_fresh C L u1 [call L r1; call L r2] 0%nat r1 w0 eq_refl Hr1 Hv1).
    fold m1 w1 g1. cbn [insert list_insert].
    rewrite (turn_guarded C u1 [g1; call L r2] 0%nat m1 (section_of L r1) w1 eq_refl).
    fold h1. rewrite (Hidle1 m1), (advance_parked C h1 _ Hp1). cbn [fst snd].
    fold w2. cbn [insert list_insert].
    rewrite (turn_fresh C L u2 [h1; call L r2] 1%nat r2 w2 eq_refl Hr2 Hv2).
    fold m2 w3 g2. cbn [insert list_insert].
    rewrite (turn_guarded C u2 [h1; g2] 1%nat m2 (section_of L r2) w3 eq_refl).
    fold h2. rewrite Hfree2, (advance_parked C h2 _ Hp2). reflexivity.
  - unfold w4. rewrite locked_set_mutex_ne by congruence.
    unfold w3. rewrite locked_registered. now apply locked_set_mutex.
  - now apply locked_set_mutex.
Qed.

Lemma different_users_run_in_parallel_witness :
  exists w p q m1 m2,
    schedule tables [0; 0; 1; 1]%nat
      (initial, [call (Int 1000) (ChargePoint (Int 1) (Int 600));
                 call (Int 1000) (UsePoint (Int 2) (Int 5))]) = Some (w, [p; q])
    /\ in_critical_section p = true /\ in_critical_section q = true
    /\ locks w !! Int 1 = Some m1 /\ locks w !! Int 2 = Some m2 /\ m1 <> m2
    /\ locked m1 w = true /\ locked m2 w = true.
Proof.
  apply (different_users_run_in_parallel tables (Int 1000)
           (ChargePoint (Int 1) (Int 600)) (UsePoint (Int 2) (Int 5))
           (Int 1) (Int 2) initial).
  - exists (Int 600). now left.
  - exists (Int 5). now right.
  - reflexivity.
  - reflexivity.
  - discriminate.
  - apply quiet_initial.
  - apply registry_sound_initial.
Defined.

(** ** The service over any tables *)

Lemma exec_charge_section_any {S} (C : Collaborators S) L u a d n :
  exec C (charge_section L u a) d n =
  match userDb_selectById C n u d with
  | (rejected e, d1) => (Rejected e, d1)
  | (fulfilled up, d1) =>
      if gtb (add (point up) a) L then (Rejected (LimitExceeded L), d1)
      else
        match userDb_insertOrUpdate C n u (add (point up) a) d1 with
        | (rejected e, d2) => (Rejected e, d2)
        | (fulfilled _, d2) =>
            match historyDb_insert C n u a CHARGE (Int n) d2 with
            | (rejected e, d3) => (Rejected e, d3)
            | (fulfilled _, d3) => (Fulfilled (add (point up) a), d3)
            end
        end
  end.
Proof.
  unfold exec, charge_section. unfold_monad. simpl. unfold on_db. simpl.
  destruct (userDb_selectById C n u d) as [[up|e] d1]; simpl; [|reflexivity].
  destruct (gtb (add (point up) a) L); simpl; [reflexivity|].
  unfold on_db. simpl.
  destruct (userDb_insertOrUpdate C n u _ d1) as [[r2|e] d2]; simpl;
    [|reflexivity].
  unfold on_db. simpl.
  destruct (historyDb_insert C n u a CHARGE (Int n) d2) as [[r3|e] d3];
    reflexivity.
Qed.

Lemma exec_use_section_any {S} (C : Collaborators S) u a d n :
  exec C (use_section u a) d n =
  match userDb_selectById C n u d with
  | (rejected e, d1) => (Rejected e, d1)
  | (fulfilled up, d1) =>
      if ltb (sub (point up) a) (Int 0) then (Rejected InsufficientPoint, d1)
      else
        match userDb_insertOrUpdate C n u (sub (point up) a) d1 with
        | (rejected e, d2) => (Rejected e, d2)
        | (fulfilled _, d2) =>
            match historyDb_insert C n u a USE (Int n) d2 with
            | (rejected e, d3) => (Rejected e, d3)
            | (fulfilled _, d3) => (Fulfilled (sub (point up) a), d3)
            end
        end
  end.
Proof.
  unfold exec, use_section. unfold_monad. simpl. unfold on_db. simpl.
  destruct (userDb_selectById C n u d) as [[up|e] d1]; simpl; [|reflexivity].
  destruct (ltb (sub (point up) a) (Int 0)); simpl; [reflexivity|].
  unfold on_db. simpl.
  destruct (userDb_insertOrUpdate C n u _ d1) as [[r2|e] d2]; simpl;
    [|reflexivity].
  unfold on_db. simpl.
  destruct (historyDb_insert C n u a USE (Int n) d2) as [[r3|e] d3];
    reflexivity.
Qed.

(** X14: the service catches no error of its tables.  With valid arguments
    and the user's lock free, whatever the tables are: if [selectById]
    rejects, [chargePoint] and [usePoint] are rejected with that same
    error and the tables are as that read left them; if the balance
    computed from the record read passes the check and [insertOrUpdate]
    rejects, the call is rejected with that same error, and the tables are
    as the failed write left them: no history record is inserted. *)
Theorem table_errors_reach_the_caller {S} (C : Collaborators S) L
    (r : request) (u a : number) (e : Error) (w : World S) :
  r = ChargePoint u a \/ r = UsePoint u a ->
  invalid u = false -> invalid a = false -> free u w ->
  (forall d1,
      userDb_selectById C (now w) u (db w) = (rejected e, d1) ->
      run C (call L r) w = (Rejected e, set_db d1 (registered u w)))
  /\ (forall up d1 v d2,
        userDb_selectById C (now w) u (db w) = (fulfilled up, d1) ->
        (r = ChargePoint u a /\ v = add (point up) a /\ gtb v L = false)
        \/ (r = UsePoint u a /\ v = sub (point up) a
            /\ ltb v (Int 0) = false) ->
        userDb_insertOrUpdate C (now w) u v d1 = (rejected e, d2) ->
        run C (call L r) w = (Rejected e, set_db d2 (registered u w))).
Proof.
  intros Hr Hu Ha Hf.
  assert (Hm : mutation_of u r) by (exists a; exact Hr).
  assert (Hv : valid r = true)
    by (destruct Hr as [-> | ->]; simpl; now rewrite Hu, Ha).
  rewrite (run_call C L u r w Hm Hv Hf). split.
  - intros d1 Hsel. destruct Hr as [-> | ->]; simpl section_of.
    + rewrite exec_charge_section_any, Hsel. reflexivity.
    + rewrite exec_use_section_any, Hsel. reflexivity.
  - intros up d1 v d2 Hsel [(-> & -> & Hok) | (-> & -> & Hok)] Hup;
      simpl section_of.
    + rewrite exec_charge_section_any, Hsel, Hok, Hup. reflexivity.
    + rewrite exec_use_section_any, Hsel, Hok, Hup. reflexivity.
Qed.

(** X15: a fulfilled [chargePoint] or [usePoint] has done everything.
    Whatever the tables are, when the call is fulfilled with [p]: both
    arguments passed the guard and the lock was not held; [selectById],
    [insertOrUpdate] and the history [insert] were all fulfilled, in that
    order, each on the state the previous one left; the balance written
    passed the check ([<= chargeLimit] for a charge, [>= 0] for a use);
    and [p] carries the user id and that balance as the service computed
    it from the record read, not what [insertOrUpdate] returned. *)
Theorem fulfilled_call_did_everything {S} (C : Collaborators S) L
    (r : request) (p : UserPoint) (w : World S) :
  is_read r = false ->
  fst (run C (call L r) w) = Fulfilled (Point p) ->
  exists u a ty up d1 v r2 d2 r3 d3,
    ((r = ChargePoint u a /\ ty = CHARGE
      /\ v = add (point up) a /\ gtb v L = false)
     \/ (r = UsePoint u a /\ ty = USE
         /\ v = sub (point up) a /\ ltb v (Int 0) = false))
    /\ invalid u = false /\ invalid a = false /\ free u w
    /\ userDb_selectById C (now w) u (db w) = (fulfilled up, d1)
    /\ userDb_insertOrUpdate C (now w) u v d1 = (fulfilled r2, d2)
    /\ historyDb_insert C (now w) u a ty (Int (now w)) d2 = (fulfilled r3, d3)
    /\ p = mkUserPoint u v (Int (now w))
    /\ db (snd (run C (call L r) w)) = d3.
Proof.
  intros Hrd Hrun.
  assert (Hm : exists u a, r = ChargePoint u a \/ r = UsePoint u a).
  { destruct r as [u|u|u a|u a]; try discriminate Hrd;
      exists u, a; [now left | now right]. }
  destruct Hm as (u & a & Hr).
  destruct (invalid u) eqn:Hu.
  { destruct Hr as [-> | ->]; simpl in Hrun;
      [unfold chargePoint in Hrun | unfold usePoint in Hrun];
      rewrite Hu in Hrun; discriminate Hrun. }
  destruct (invalid a) eqn:Ha.
  { destruct Hr as [-> | ->]; simpl in Hrun;
      [unfold chargePoint in Hrun | unfold usePoint in Hrun];
      rewrite Hu, Ha in Hrun; discriminate Hrun. }
  destruct (free_dec u w) as [Hf | Hnf].
  2:{ destruct Hr as [-> | ->]; simpl in Hrun; unfold_monad;
        rewrite run_bind in Hrun;
        [rewrite run_chargePoint_blocked in Hrun by assumption
        |rewrite run_usePoint_blocked in Hrun by assumption];
        discriminate Hrun. }
  assert (Hmu : mutation_of u r) by (exists a; exact Hr).
  assert (Hv : valid r = true)
    by (destruct Hr as [-> | ->]; simpl; now rewrite Hu, Ha).
  rewrite (run_call C L u r w Hmu Hv Hf) in Hrun |- *. simpl in Hrun |- *.
  destruct Hr as [-> | ->]; simpl section_of in *.
  - rewrite exec_charge_section_any in Hrun |- *.
    destruct (userDb_selectById C (now w) u (db w)) as [[up|e1] d1] eqn:Hsel;
      [|discriminate Hrun].
    destruct (gtb (add (point up) a) L) eqn:Hgt; [discriminate Hrun|].
    destruct (userDb_insertOrUpdate C (now w) u _ d1) as [[r2|e2] d2] eqn:Hup;
      [|discriminate Hrun].
    destruct (historyDb_insert C (now w) u a CHARGE _ d2) as [[r3|e3] d3] eqn:Hins;
      [|discriminate Hrun].
    simpl in Hrun. injection Hrun as <-.
    exists u, a, CHARGE, up, d1, (add (point up) a), r2, d2, r3, d3.
    split; [left; auto|]. repeat split; auto.
  - rewrite exec_use_section_any in Hrun |- *.
    destruct (userDb_selectById C (now w) u (db w)) as [[up|e1] d1] eqn:Hsel;
      [|discriminate Hrun].
    destruct (ltb (sub (point up) a) (Int 0)) eqn:Hlt; [discriminate Hrun|].
    destruct (userDb_insertOrUpdate C (now w) u _ d1) as [[r2|e2] d2] eqn:Hup;
      [|discriminate Hrun].
    destruct (historyDb_insert C (now w) u a USE _ d2) as [[r3|e3] d3] eqn:Hins;
      [|discriminate Hrun].
    simpl in Hrun. injection Hrun as <-.
    exists u, a, USE, up, d1, (sub (point up) a), r2, d2, r3, d3.
    split; [right; auto|]. repeat split; auto.
Qed.

Lemma table_errors_reach_the_caller_witness :
  let down := new_Error [Text "table unavailable"] in
  let C :=
    mkCollaborators Tables
      (fun _ _ t => (rejected down, t))
      table_insertOrUpdate table_selectAllByUserId table_insert in
  run C (call (Int 1000) (ChargePoint (Int 1) (Int 5))) initial
  = (Rejected down, set_db (db initial) (registered (Int 1) initial)).
Proof.
  intros down C.
  apply (proj1 (table_errors_reach_the_caller C (Int 1000)
                  (ChargePoint (Int 1) (Int 5)) (Int 1) (Int 5) down initial
                  (or_introl eq_refl) eq_refl eq_refl (free_initial _))).
  reflexivity.
Defined.

Lemma fulfilled_call_did_everything_witness :
  exists u a ty up d1 v r2 d2 r3 d3,
    ((UsePoint (Int 1) (Int 5) = ChargePoint u a /\ ty = CHARGE
      /\ v = add (point up) a /\ gtb v (Int 1000) = false)
     \/ (UsePoint (Int 1) (Int 5) = UsePoint u a /\ ty = USE
         /\ v = sub (point up) a /\ ltb v (Int 0) = false))
    /\ invalid u = false /\ invalid a = false
    /\ free u (set_db (mkTables {[Int 1 := mkUserPoint (Int 1) (Int 8) (Int 0)]} []) initial)
    /\ table_selectById 0 u (mkTables {[Int 1 := mkUserPoint (Int 1) (Int 8) (Int 0)]} [])
       = (fulfilled up, d1)
    /\ table_insertOrUpdate 0 u v d1 = (fulfilled r2, d2)
    /\ table_insert 0 u a ty (Int 0) d2 = (fulfilled r3, d3)
    /\ mkUserPoint (Int 1) (sub (Int 8) (Int 5)) (Int 0) = mkUserPoint u v (Int 0)
    /\ db (snd (run tables (call (Int 1000) (UsePoint (Int 1) (Int 5)))
                  (set_db (mkTables {[Int 1 := mkUserPoint (Int 1) (Int 8) (Int 0)]} []) initial)))
       = d3.
Proof.
  apply (fulfilled_call_did_everything tables (Int 1000)
           (UsePoint (Int 1) (Int 5))
           (mkUserPoint (Int 1) (sub (Int 8) (Int 5)) (Int 0))
           (set_db (mkTables {[Int 1 := mkUserPoint (Int 1) (Int 8) (Int 0)]} []) initial)).
  - reflexivity.
  - vm_compute. reflexivity.
Defined.

(** ** One history record per fulfilled call *)

Lemma run_seq_history_count L rs (w : World Tables) :
  Forall (fun r => is_read r = false) rs ->
  length (historyTable (db (snd (run_seq tables L rs w)))) =
  (length (historyTable (db w))
   + length (filter (fun o => is_fulfilled o = true)
               (fst (run_seq tables L rs w))))%nat.
Proof.
  intros Hrs. revert w. induction Hrs as [|r rs Hr _ IH]; intros w; simpl.
  - lia.
  - specialize (IH (snd (run tables (call L r) w))).
    destruct (call_cases L r w)
      as [[Hdb Hno]|(u & a & v & ty & Hc & _ & _ & Hrun)].
    + specialize (Hno Hr).
      destruct (run tables (call L r) w) as [o w1]. simpl in *.
      destruct (run_seq tables L rs w1) as [os w2]. simpl in *.
      rewrite IH, Hdb, filter_cons.
      destruct o as [x| |]; simpl; [now destruct (Hno x) | reflexivity..].
    + rewrite Hrun in *. simpl in IH.
      destruct (run_seq tables L rs _) as [os w2]. simpl in *.
      rewrite IH, length_app. simpl. lia.
Qed.

Lemma pick_mutations u (reqs : list request) order :
  Forall (mutation_of u) reqs -> order ≡ₚ seq 0 (length reqs) ->
  Forall (fun r => is_read r = false) (pick reqs order).
Proof.
  intros Hreqs Hperm. unfold pick. apply Forall_fmap, Forall_forall.
  intros i Hi. rewrite Hperm in Hi. apply elem_of_seq in Hi.
  destruct (lookup_lt_is_Some_2 reqs i) as [r Hr]; [lia|]. simpl.
  rewrite (list_lookup_total_correct _ _ _ Hr).
  destruct (Forall_lookup_1 _ _ _ _ Hreqs Hr) as [a [-> | ->]]; reflexivity.
Qed.

(** X16: the history holds one record per successful call, also under
    concurrency.  When every call of a pool of concurrent [chargePoint]
    and [usePoint] calls on one user is settled, whatever the
    interleaving, the history table has grown by exactly as many records
    as calls were fulfilled: a rejected call leaves no record and no
    fulfilled call loses its record. *)
Theorem one_record_per_fulfilled_call L u (reqs : list request)
    (w0 w : World Tables) (ts : list (prog response)) :
  Forall (mutation_of u) reqs -> quiet w0 ->
  rtc (step tables) (w0, call L <$> reqs) (w, ts) ->
  Forall (fun p => is_settled p = true) ts ->
  length (historyTable (db w)) =
  (length (historyTable (db w0))
   + length (filter (fun o => is_fulfilled o = true) (outcome_of <$> ts)))%nat.
Proof.
  intros Hreqs Hquiet Hreach Hall.
  destruct (serializable tables L u reqs w0 Hreqs Hquiet w ts Hreach Hall)
    as (order & Hperm & <- & HF).
  rewrite (run_seq_history_count L _ w0 (pick_mutations u reqs order Hreqs Hperm)).
  f_equal.
  assert (Hlen : length ts = length reqs).
  { pose proof (reach_length tables _ _ Hreach) as Hl. simpl in Hl.
    now rewrite Hl, length_fmap. }
  rewrite <- Hlen in Hperm.
  now rewrite (outcomes_permutation ts order _ Hperm HF).
Qed.

Lemma one_record_per_fulfilled_call_witness :
  match
    schedule tables
      [0; 1; 1; 1; 1; 1; 0; 0; 0; 0; 2; 2; 2]%nat
      (initial,
       call (Int 1000) <$>
         [ChargePoint (Int 1) (Int 600); ChargePoint (Int 1) (Int 300);
          ChargePoint (Int 1) (Int 200)])
  with
  | Some (w, ts) =>
      length (historyTable (db w)) =
      (length (historyTable (db initial))
       + length (filter (fun o => is_fulfilled o = true) (outcome_of <$> ts)))%nat
  | None => False
  end.
Proof.
  destruct (schedule tables _ _) as [[w ts]|] eqn:E.
  - apply (one_record_per_fulfilled_call (Int 1000) (Int 1)
             [ChargePoint (Int 1) (Int 600); ChargePoint (Int 1) (Int 300);
              ChargePoint (Int 1) (Int 200)]
             initial w ts).
    + repeat constructor; eexists; left; reflexivity.
    + exact quiet_initial.
    + exact (schedule_rtc _ _ _ _ E).
    + vm_compute in E. injection E as _ <-. repeat constructor.
  - not_blocked E.
Defined.

(** ** The variant without locks *)

(** X17: without the locks an update can be lost.  In the variant of the
    service without locks, two concurrent charges of one user that each
    fit under the limit on their own can both read the balance before
    either writes: both are then fulfilled, each returning the balance it
    read plus its own amount, the history records both charges, and the
    balance left is the second write, not the sum of the two charges.
    The balance read and the two sums are integers of magnitude at most
    2^53, where the binary64 sums of the service are the integer sums
    (above that bound a rounded single charge can coincide with the
    integer sum of both). *)
Theorem unguarded_loses_an_update L (u a1 a2 b : Z) (w0 : World Tables) :
  0 < u -> 0 < a1 -> 0 < a2 ->
  balance (Int u) (db w0) = Int b ->
  Z.abs (b + a1) <= 2 ^ 53 -> Z.abs (b + a2) <= 2 ^ 53 ->
  leb (Int (b + a1)) L = true -> leb (Int (b + a2)) L = true ->
  exists w h1 h2 ms1 ms2,
    schedule tables [0; 1; 0; 0; 1; 1]%nat
      (w0, call_unguarded L <$>
             [ChargePoint (Int u) (Int a1); ChargePoint (Int u) (Int a2)])
    = Some (w, [Ret (Point (mkUserPoint (Int u) (Int (b + a1)) ms1));
                Ret (Point (mkUserPoint (Int u) (Int (b + a2)) ms2))])
    /\ balance (Int u) (db w) = Int (b + a2)
    /\ balance (Int u) (db w) <> Int (b + a1 + a2)
    /\ historyTable (db w) = historyTable (db w0) ++ [h1; h2]
    /\ (userId h1, amount h1, type h1) = (Int u, Int a1, CHARGE)
    /\ (userId h2, amount h2, type h2) = (Int u, Int a2, CHARGE).
Proof.
  intros Hu Ha1 Ha2 Hb Hs1 Hs2 H1 H2.
  apply leb_gtb in H1, H2.
  pose proof (invalid_pos u Hu) as Hiu.
  pose proof (invalid_pos a1 Ha1) as Hia1.
  pose proof (invalid_pos a2 Ha2) as Hia2.
  cbn [fmap list_fmap call_unguarded].
  unfold Unguarded.chargePoint. rewrite Hiu, Hia1, Hia2. unfold_monad.
  cbn [schedule]. simpl.
  rewrite !point_selected, Hb, !(add_Int b a1 Hs1), H1. simpl.
  rewrite !point_selected, Hb, !(add_Int b a2 Hs2), H2. simpl.
  eexists _, _, _, _, _. split; [reflexivity|]. simpl.
  assert (Hbal : forall t h up,
             balance (Int u)
               (mkTables (<[Int u := mkUserPoint (Int u) (Int (b + a2)) up]> t) h)
             = Int (b + a2)).
  { intros t h up. unfold balance. simpl. now rewrite lookup_insert_eq. }
  rewrite Hbal. split; [reflexivity|]. split; [intros [= Heq]; lia|].
  split; [rewrite <- app_assoc; reflexivity|]. split; reflexivity.
Qed.

Lemma unguarded_loses_an_update_witness :
  exists w h1 h2 ms1 ms2,
    schedule tables [0; 1; 0; 0; 1; 1]%nat
      (initial, call_unguarded (Int 1000) <$>
             [ChargePoint (Int 1) (Int 500); ChargePoint (Int 1) (Int 300)])
    = Some (w, [Ret (Point (mkUserPoint (Int 1) (Int (0 + 500)) ms1));
                Ret (Point (mkUserPoint (Int 1) (Int (0 + 300)) ms2))])
    /\ balance (Int 1) (db w) = Int (0 + 300)
    /\ balance (Int 1) (db w) <> Int (0 + 500 + 300)
    /\ historyTable (db w) = historyTable (db initial) ++ [h1; h2]
    /\ (userId h1, amount h1, type h1) = (Int 1, Int 500, CHARGE)
    /\ (userId h2, amount h2, type h2) = (Int 1, Int 300, CHARGE).
Proof.
  apply (unguarded_loses_an_update (Int 1000) 1 500 300 0 initial);
    try lia; try reflexivity; vm_compute; discriminate.
Defined.


(** ** Calls on different users, one after the other *)

(** What a call returns and what it leaves as its user's record depend on
    the clock, on that user's record and on that user's history only. *)
Lemma call_local L r (w w' : World Tables) :
  idle w -> idle w' -> now w = now w' ->
  userTable (db w) !! user_of r = userTable (db w') !! user_of r ->
  histories_of (user_of r) (db w) = histories_of (user_of r) (db w') ->
  fst (run tables (call L r) w) = fst (run tables (call L r) w')
  /\ userTable (db (snd (run tables (call L r) w))) !! user_of r
     = userTable (db (snd (run tables (call L r) w'))) !! user_of r.
Proof.
  intros Hi Hi' Hn Ht Hh.
  assert (Hb : balance (user_of r) (db w) = balance (user_of r) (db w'))
    by (unfold balance; now rewrite Ht).
  destruct r as [u|u|u a|u a]; simpl in *; unfold_monad; rewrite !run_bind.
  - destruct (invalid u) eqn:Hu.
    + unfold getPoint. rewrite Hu. simpl. now split.
    + rewrite !run_getPoint_tables by exact Hu. simpl. split; congruence.
  - destruct (invalid u) eqn:Hu.
    + unfold getHistories. rewrite Hu. simpl. now split.
    + rewrite !run_getHistories_tables by exact Hu. simpl. split; congruence.
  - destruct (invalid u) eqn:Hu;
      [unfold chargePoint; rewrite Hu; simpl; now split|].
    destruct (invalid a) eqn:Ha;
      [unfold chargePoint; rewrite Hu, Ha; simpl; now split|].
    rewrite !run_chargePoint_tables by assumption.
    rewrite (free_registered u w (idle_free u w Hi)),
      (free_registered u w' (idle_free u w' Hi')), Hb, Hn.
    destruct (gtb _ _); simpl; rewrite ?db_registered, ?lookup_insert_eq;
      now split.
  - destruct (invalid u) eqn:Hu;
      [unfold usePoint; rewrite Hu; simpl; now split|].
    destruct (invalid a) eqn:Ha;
      [unfold usePoint; rewrite Hu, Ha; simpl; now split|].
    rewrite !run_usePoint_tables by assumption.
    rewrite (free_registered u w (idle_free u w Hi)),
      (free_registered u w' (idle_free u w' Hi')), Hb, Hn.
    destruct (ltb _ _); simpl; rewrite ?db_registered, ?lookup_insert_eq;
      now split.
Qed.

(** X18: calls on different users do not influence each other.  From a
    state in which no lock is held, a call settles with the same value or
    the same error whether or not a call on another user has run before
    it, and the two calls leave the same balances in either order. *)
Theorem calls_on_different_users_commute L (r1 r2 : request)
    (w : World Tables) :
  idle w -> user_of r1 <> user_of r2 ->
  let w1 := snd (run tables (call L r1) w) in
  let w2 := snd (run tables (call L r2) w) in
  fst (run tables (call L r2) w1) = fst (run tables (call L r2) w)
  /\ fst (run tables (call L r1) w2) = fst (run tables (call L r1) w)
  /\ userTable (db (snd (run tables (call L r2) w1)))
     = userTable (db (snd (run tables (call L r1) w2))).
Proof.
  intros Hi Hne w1 w2.
  destruct (run_call_idle tables L r1 w Hi) as [Hi1 Hn1]. fold w1 in Hi1, Hn1.
  destruct (run_call_idle tables L r2 w Hi) as [Hi2 Hn2]. fold w2 in Hi2, Hn2.
  destruct (call_frame L r1 (user_of r2) w (not_eq_sym Hne)) as [Ht1 Hh1].
  fold w1 in Ht1, Hh1.
  destruct (call_frame L r2 (user_of r1) w Hne) as [Ht2 Hh2].
  fold w2 in Ht2, Hh2.
  destruct (call_local L r2 w1 w Hi1 Hi Hn1 Ht1 Hh1) as [Ho2 Hl2].
  destruct (call_local L r1 w2 w Hi2 Hi Hn2 Ht2 Hh2) as [Ho1 Hl1].
  split; [exact Ho2|]. split; [exact Ho1|].
  apply map_eq. intros k.
  destruct (decide (k = user_of r1)) as [->|Hk1].
  - rewrite Hl1. now destruct (call_frame L r2 (user_of r1) w1 Hne) as [-> _].
  - destruct (decide (k = user_of r2)) as [->|Hk2].
    + rewrite Hl2.
      now destruct (call_frame L r1 (user_of r2) w2 (not_eq_sym Hne)) as [-> _].
    + destruct (call_frame L r2 k w1 Hk2) as [-> _].
      destruct (call_frame L r1 k w2 Hk1) as [-> _].
      destruct (call_frame L r1 k w Hk1) as [Hx _]. fold w1 in Hx.
      destruct (call_frame L r2 k w Hk2) as [Hy _]. fold w2 in Hy.
      congruence.
Qed.

Lemma calls_on_different_users_commute_witness :
  let r1 := ChargePoint (Int 1) (Int 500) in
  let r2 := UsePoint (Int 2) (Int 30) in
  let w :=
    set_db (mkTables {[Int 2 := mkUserPoint (Int 2) (Int 100) (Int 0)]} [])
      initial in
  let w1 := snd (run tables (call (Int 1000) r1) w) in
  let w2 := snd (run tables (call (Int 1000) r2) w) in
  fst (run tables (call (Int 1000) r2) w1) = fst (run tables (call (Int 1000) r2) w)
  /\ fst (run tables (call (Int 1000) r1) w2) = fst (run tables (call (Int 1000) r1) w)
  /\ userTable (db (snd (run tables (call (Int 1000) r2) w1)))
     = userTable (db (snd (run tables (call (Int 1000) r1) w2))).
Proof.
  intros r1 r2 w.
  apply (calls_on_different_users_commute (Int 1000) r1 r2 w).
  - exact idle_initial.
  - simpl. intros [= H].
Defined.

(** ** A limit that is not a number *)

Lemma gtb_NaN x : gtb x NaN = false.
Proof. unfold gtb, ltb. now destruct x. Qed.

(** X19: the check [updatedPoint > this.chargeLimit] rejects nothing when
    the limit is [NaN] (what [Number] gives for a [CHARGE_LIMIT] that is
    not numeric): every comparison with [NaN] is false, so every
    [chargePoint] with valid arguments and the user's lock free is
    fulfilled and written, whatever the balance and the amount. *)
Theorem limit_NaN_rejects_nothing (u a : number) (w : World Tables) :
  invalid u = false -> invalid a = false -> free u w ->
  run tables (chargePoint NaN u a) w =
  (Fulfilled (mkUserPoint u (add (balance u (db w)) a) (Int (now w))),
   set_db (committed u a (add (balance u (db w)) a) CHARGE (now w) (db w))
     (registered u w)).
Proof.
  intros Hu Ha Hf. rewrite run_chargePoint_tables by assumption.
  now rewrite (free_registered u w Hf), gtb_NaN.
Qed.

Lemma limit_NaN_rejects_nothing_witness :
  let w :=
    set_db (mkTables {[Int 1 := mkUserPoint (Int 1) (Int 99999) (Int 0)]} [])
      initial in
  run tables (chargePoint NaN (Int 1) (Int 100000)) w =
  (Fulfilled
     (mkUserPoint (Int 1) (add (balance (Int 1) (db w)) (Int 100000)) (Int (now w))),
   set_db
     (committed (Int 1) (Int 100000) (add (balance (Int 1) (db w)) (Int 100000))
        CHARGE (now w) (db w))
     (registered (Int 1) w)).
Proof.
  intros w.
  apply (limit_NaN_rejects_nothing (Int 1) (Int 100000) w).
  - reflexivity.
  - reflexivity.
  - intros m H. discriminate H.
Defined.

(** ** Pools of calls of any methods and users *)

Lemma mutation_of_user r : is_read r = false -> mutation_of (user_of r) r.
Proof.
  destruct r as [u|u|u a|u a]; try discriminate; intros _; exists a;
    [left | right]; reflexivity.
Qed.

Lemma locked_set_mutex_false {S} m (w : World S) :
  locked m (set_mutex m false w) = false.
Proof.
  unfold locked, set_mutex. simpl. apply bool_decide_eq_false.
  destruct (decide (m < length (mutexes w))%nat).
  - rewrite list_lookup_insert_eq by assumption. discriminate.
  - rewrite list_insert_ge by lia.
    rewrite (lookup_ge_None_2 (mutexes w)) by lia. discriminate.
Qed.

Lemma locked_mutexes {S} m (w w' : World S) :
  mutexes w' = mutexes w -> locked m w' = locked m w.
Proof. intros H. unfold locked. now rewrite H. Qed.

Lemma at_stage_mono {S} L (w w' : World S) r s p :
  locks w ⊆ locks w' -> at_stage L w r s p -> at_stage L w' r s p.
Proof.
  intros Hsub. destruct s; simpl; auto.
  - intros (H1 & H2 & H3 & H4). repeat split; auto.
    eapply lookup_weaken; eauto.
  - intros (H1 & H2 & H3 & H4). repeat split; auto.
    eapply lookup_weaken; eauto.
Qed.

Lemma agree_ext {S} (w w' : World S) ss :
  (forall m, locked m w' = locked m w) -> locks_agree w ss -> locks_agree w' ss.
Proof.
  intros He (H1 & H2 & H3). split; [|split].
  - intros m Hm. rewrite He in Hm. auto.
  - intros i m Hi. rewrite He. eauto.
  - exact H3.
Qed.

Lemma agree_other {S} (w : World S) ss i s s' :
  locks_agree w ss -> ss !! i = Some s ->
  (forall m, s <> Holding m) -> (forall m, s' <> Holding m) ->
  locks_agree w (<[i := s']> ss).
Proof.
  intros (H1 & H2 & H3) Hi Hs Hs'.
  assert (Hold : forall j m, <[i := s']> ss !! j = Some (Holding m) ->
                             j <> i /\ ss !! j = Some (Holding m)).
  { intros j m Hj. destruct (decide (j = i)) as [->|Hne].
    - rewrite list_lookup_insert_eq in Hj by (now apply lookup_lt_Some in Hi).
      injection Hj as ->. now destruct (Hs' m).
    - rewrite list_lookup_insert_ne in Hj by congruence. now split. }
  split; [|split].
  - intros m Hm. destruct (H1 m Hm) as [j Hj]. exists j.
    rewrite list_lookup_insert_ne; [exact Hj|].
    intros ->. rewrite Hi in Hj. injection Hj as ->. now destruct (Hs m).
  - intros j m Hj. destruct (Hold j m Hj) as [_ Hj']. eauto.
  - intros j1 j2 m Hj1 Hj2.
    destruct (Hold j1 m Hj1) as [_ Hj1'], (Hold j2 m Hj2) as [_ Hj2']. eauto.
Qed.

Lemma agree_acquire {S} (w : World S) ss i s m :
  locks_agree w ss -> ss !! i = Some s -> (forall m', s <> Holding m') ->
  locked m w = false -> (m < length (mutexes w))%nat ->
  locks_agree (set_mutex m true w) (<[i := Holding m]> ss).
Proof.
  intros (H1 & H2 & H3) Hi Hs Hm Hlt.
  assert (Hil : (i < length ss)%nat) by now apply lookup_lt_Some in Hi.
  assert (Hold : forall j m', <[i := Holding m]> ss !! j = Some (Holding m') ->
                   (j = i /\ m' = m)
                   \/ (j <> i /\ m' <> m /\ ss !! j = Some (Holding m'))).
  { intros j m' Hj. destruct (decide (j = i)) as [->|Hne].
    - rewrite list_lookup_insert_eq in Hj by exact Hil.
      injection Hj as <-. now left.
    - rewrite list_lookup_insert_ne in Hj by congruence. right.
      split; [exact Hne|]. split; [|exact Hj].
      intros ->. rewrite (H2 j m Hj) in Hm. discriminate. }
  split; [|split].
  - intros m' Hm'. destruct (decide (m' = m)) as [->|Hne].
    + exists i. now apply list_lookup_insert_eq.
    + rewrite locked_set_mutex_ne in Hm' by congruence.
      destruct (H1 m' Hm') as [j Hj]. exists j.
      rewrite list_lookup_insert_ne; [exact Hj|].
      intros ->. rewrite Hi in Hj. injection Hj as ->. now destruct (Hs m').
  - intros j m' Hj. destruct (Hold j m' Hj) as [[-> ->]|(_ & Hne & Hj')].
    + now apply locked_set_mutex.
    + rewrite locked_set_mutex_ne by congruence. eauto.
  - intros j1 j2 m' Hj1 Hj2.
    destruct (Hold j1 m' Hj1) as [[E1 Em1]|(_ & Hne1 & Hj1')];
      destruct (Hold j2 m' Hj2) as [[E2 Em2]|(_ & Hne2 & Hj2')];
      try congruence. eauto.
Qed.

Lemma agree_release {S} (w : World S) ss i m :
  locks_agree w ss -> ss !! i = Some (Holding m) ->
  locks_agree (set_mutex m false w) (<[i := Done]> ss).
Proof.
  intros (H1 & H2 & H3) Hi.
  assert (Hil : (i < length ss)%nat) by now apply lookup_lt_Some in Hi.
  assert (Hold : forall j m', <[i := Done]> ss !! j = Some (Holding m') ->
                   j <> i /\ m' <> m /\ ss !! j = Some (Holding m')).
  { intros j m' Hj. destruct (decide (j = i)) as [->|Hne].
    - rewrite list_lookup_insert_eq in Hj by exact Hil. discriminate.
    - rewrite list_lookup_insert_ne in Hj by congruence.
      split; [exact Hne|]. split; [|exact Hj].
      intros ->. apply Hne. eauto. }
  split; [|split].
  - intros m' Hm'. destruct (decide (m' = m)) as [->|Hne].
    + rewrite locked_set_mutex_false in Hm'. discriminate.
    + rewrite locked_set_mutex_ne in Hm' by congruence.
      destruct (H1 m' Hm') as [j Hj]. exists j.
      rewrite list_lookup_insert_ne; [exact Hj|].
      intros ->. rewrite Hi in Hj. congruence.
  - intros j m' Hj. destruct (Hold j m' Hj) as (_ & Hne & Hj').
    rewrite locked_set_mutex_ne by congruence. eauto.
  - intros j1 j2 m' Hj1 Hj2.
    destruct (Hold j1 m' Hj1) as (_ & _ & Hj1'),
        (Hold j2 m' Hj2) as (_ & _ & Hj2'). eauto.
Qed.

(** The invariant after the turn of call [i]. *)
Lemma pool_update {S} L reqs (w w' : World S) ts ss i r s' p' :
  pool_inv L reqs w ts ss -> reqs !! i = Some r ->
  locks w ⊆ locks w' -> registry_bounded w' ->
  at_stage L w' r s' p' -> locks_agree w' (<[i := s']> ss) ->
  pool_inv L reqs w' (<[i := p']> ts) (<[i := s']> ss).
Proof.
  intros [Hlen Hss Hb Hat Hag] Hr Hsub Hb' Hs' Hag'.
  assert (Hil : (i < length reqs)%nat) by now apply lookup_lt_Some in Hr.
  split.
  - now rewrite length_insert.
  - now rewrite length_insert.
  - exact Hb'.
  - intros j rj s p Hrj Hsj Hpj. destruct (decide (j = i)) as [->|Hne].
    + rewrite list_lookup_insert_eq in Hsj by lia.
      rewrite list_lookup_insert_eq in Hpj by lia.
      injection Hsj as <-. injection Hpj as <-.
      assert (rj = r) as -> by congruence. exact Hs'.
    + rewrite list_lookup_insert_ne in Hsj by congruence.
      rewrite list_lookup_insert_ne in Hpj by congruence.
      eapply at_stage_mono; eauto.
  - exact Hag'.
Qed.

Lemma pool_init {S} L reqs (w0 : World S) :
  quiet w0 ->
  pool_inv L reqs w0 (call L <$> reqs) (replicate (length reqs) Fresh).
Proof.
  intros [Hwf Hidle]. split.
  - apply length_fmap.
  - apply length_replicate.
  - exact Hwf.
  - intros i r s p Hr Hs Hp. apply lookup_replicate in Hs as [-> _].
    rewrite list_lookup_fmap, Hr in Hp. injection Hp as <-. reflexivity.
  - split; [|split].
    + intros m Hm. rewrite Hidle in Hm. discriminate.
    + intros i m [Hi _]%lookup_replicate. discriminate.
    + intros i j m [Hi _]%lookup_replicate. discriminate.
Qed.

(** The one turn of a read. *)
Lemma read_turn {S} (C : Collaborators S) L r i (w : World S)
    (ts : list (prog response)) :
  is_read r = true -> ts !! i = Some (call L r) ->
  is_settled (call L r) = false ->
  exists w' p',
    turn C i (w, ts) = Some (w', <[i := p']> ts) /\ is_settled p' = true
    /\ locks w' = locks w /\ mutexes w' = mutexes w.
Proof.
  intros Hr Hi Hs. unfold turn. rewrite Hi. clear Hi.
  destruct r as [u|u|u a|u a]; try discriminate Hr; simpl in *.
  - unfold getPoint in *. destruct (invalid u); [discriminate Hs|].
    simpl. unfold on_db.
    destruct (userDb_selectById C (now w) u (db w)) as [[x|e] d]; simpl;
      eexists _, _; repeat split; reflexivity.
  - unfold getHistories in *. destruct (invalid u); [discriminate Hs|].
    simpl. unfold on_db.
    destruct (historyDb_selectAllByUserId C (now w) u (db w)) as [[x|e] d];
      simpl; eexists _, _; repeat split; reflexivity.
Qed.

Lemma registered_bounded {S} u (w : World S) :
  registry_bounded w -> registry_bounded (registered u w).
Proof. exact (registered_wf u w). Qed.

Lemma pool_step {S} (C : Collaborators S) L reqs (w : World S) ts ss i c' :
  pool_inv L reqs w ts ss -> turn C i (w, ts) = Some c' ->
  exists ss', pool_inv L reqs (fst c') (snd c') ss'.
Proof.
  intros Inv Ht.
  destruct (ts !! i) as [p|] eqn:Hi;
    [|unfold turn in Ht; rewrite Hi in Ht; discriminate].
  assert (Hil : (i < length reqs)%nat).
  { rewrite <- (pool_len _ _ _ _ _ Inv). now apply lookup_lt_Some in Hi. }
  destruct (lookup_lt_is_Some_2 reqs i Hil) as [r Hr].
  destruct (lookup_lt_is_Some_2 ss i) as [s Hs];
    [now rewrite (pool_stages _ _ _ _ _ Inv)|].
  pose proof (pool_at _ _ _ _ _ Inv i r s p Hr Hs Hi) as Hat.
  pose proof (pool_agree _ _ _ _ _ Inv) as Hag.
  pose proof (pool_bounded _ _ _ _ _ Inv) as Hb.
  destruct s as [|m|m|]; simpl in Hat.
  - (* the first turn *)
    subst p. destruct (is_read r) eqn:Hrd.
    + destruct (is_settled (call L r)) eqn:Hst;
        [rewrite (turn_settled C i w ts _ Hi Hst) in Ht; discriminate|].
      destruct (read_turn C L r i w ts Hrd Hi Hst)
        as (w' & p' & Ht' & Hp' & Hl & Hm).
      rewrite Ht' in Ht. injection Ht as <-. simpl.
      exists (<[i := Done]> ss).
      apply (pool_update L reqs w w' ts ss i r Done p' Inv Hr).
      * now rewrite Hl.
      * unfold registry_bounded. rewrite Hl, Hm. exact Hb.
      * exact Hp'.
      * apply (agree_ext w); [intros m; now apply locked_mutexes|].
        eapply agree_other; eauto; discriminate.
    + pose proof (mutation_of_user r Hrd) as Hmu.
      destruct (valid r) eqn:Hv.
      * rewrite (turn_fresh C L (user_of r) ts i r w Hi Hmu Hv) in Ht.
        injection Ht as <-. simpl.
        exists (<[i := Waiting (mutex_for (user_of r) w)]> ss).
        apply (pool_update L reqs w _ ts ss i r _ _ Inv Hr).
        -- apply registered_grows.
        -- now apply registered_bounded.
        -- simpl. repeat split; auto. apply locks_registered.
        -- apply (agree_ext w); [intros m; apply locked_registered|].
           eapply agree_other; eauto; discriminate.
      * destruct (call_invalid L (user_of r) r Hmu Hv) as [e He].
        rewrite He in Hi.
        rewrite (turn_settled C i w ts _ Hi eq_refl) in Ht. discriminate.
  - (* the lock is acquired *)
    destruct Hat as (Hrd & Hv & Hm & ->).
    pose proof (mutation_of_user r Hrd) as Hmu.
    rewrite (turn_guarded C (user_of r) ts i m _ w Hi) in Ht.
    destruct (locked m w) eqn:Hl; [discriminate|].
    destruct (holding_section_of m L (user_of r) r Hmu) as [Hpk _].
    rewrite (advance_parked C _ _ Hpk) in Ht. injection Ht as <-. simpl.
    exists (<[i := Holding m]> ss).
    apply (pool_update L reqs w _ ts ss i r _ _ Inv Hr).
    + reflexivity.
    + intros k m' Hk. simpl. rewrite length_insert. eapply Hb; eauto.
    + simpl. repeat split; auto. exists (section_of L r).
      destruct (parked_section_of L (user_of r) r Hmu) as [Hps Hss].
      repeat split; auto. apply lockless_section_of.
    + apply (agree_acquire w ss i (Waiting m) m Hag Hs);
        [discriminate | exact Hl | eapply Hb; eauto].
  - (* a turn inside the critical section *)
    destruct Hat as (Hrd & Hv & Hm & b & -> & Hlb & Hpb & Hsb).
    destruct b as [?|?|X o k]; try discriminate Hsb.
    destruct Hlb as [Ho Hk]. simpl in Hpb.
    destruct (lockless_handle C o w Ho) as [Hen _].
    destruct (lockless_frame C o w Ho) as (Hl1 & Hm1 & _).
    rewrite (turn_async C i o (fun x => holding m (k x) (user_of r)) w ts Hi Hen)
      in Ht.
    injection Ht as <-. simpl.
    set (x := fst (handle C o w)) in *. set (w1 := snd (handle C o w)) in *.
    rewrite (advance_holding C m (k x) (user_of r) w1 (Hk x)).
    destruct (advance_lockless C (k x) w1 (Hk x)) as (_ & Hlb' & Hpb' & _).
    destruct (fst (advance C (k x) w1)) as [v|e|X' o' k'] eqn:Hadv; simpl.
    + exists (<[i := Done]> ss).
      apply (pool_update L reqs w _ ts ss i r _ _ Inv Hr).
      * simpl. now rewrite Hl1.
      * intros j m' Hj. simpl in *. rewrite length_insert, Hm1.
        apply (Hb j). now rewrite <- Hl1.
      * reflexivity.
      * apply (agree_ext (set_mutex m false w)).
        -- intros m'. unfold locked, set_mutex. simpl. now rewrite Hm1.
        -- eapply agree_release; eauto.
    + exists (<[i := Done]> ss).
      apply (pool_update L reqs w _ ts ss i r _ _ Inv Hr).
      * simpl. now rewrite Hl1.
      * intros j m' Hj. simpl in *. rewrite length_insert, Hm1.
        apply (Hb j). now rewrite <- Hl1.
      * reflexivity.
      * apply (agree_ext (set_mutex m false w)).
        -- intros m'. unfold locked, set_mutex. simpl. now rewrite Hm1.
        -- eapply agree_release; eauto.
    + exists (<[i := Holding m]> ss).
      apply (pool_update L reqs w _ ts ss i r _ _ Inv Hr).
      * now rewrite Hl1.
      * unfold registry_bounded. rewrite Hl1, Hm1. exact Hb.
      * simpl. repeat split; auto; [now rewrite Hl1|].
        exists (Vis o' k'). repeat split; auto; apply Hlb'.
      * rewrite (list_insert_id _ _ _ Hs).
        apply (agree_ext w); [intros m'; now apply locked_mutexes|exact Hag].
  - rewrite (turn_settled C i w ts p Hi Hat) in Ht. discriminate.
Qed.

Lemma pool_reach {S} (C : Collaborators S) L reqs (w0 w : World S) ts :
  quiet w0 ->
  rtc (step C) (w0, call L <$> reqs) (w, ts) ->
  exists ss, pool_inv L reqs w ts ss.
Proof.
  intros Hq H.
  apply (rtc_ind_r
           (fun c => exists ss, pool_inv L reqs (fst c) (snd c) ss)
           (w0, call L <$> reqs)) in H; [exact H| |].
  - eexists. now apply pool_init.
  - intros [w1 ts1] c2 _ [i Hi] (ss & Inv). simpl in Inv.
    eapply pool_step; eauto.
Qed.

Lemma inside_is_holding {S} L (w : World S) r s p :
  at_stage L w r s p -> is_read r = false -> in_critical_section p = true ->
  exists m, s = Holding m /\ locks w !! user_of r = Some m.
Proof.
  intros Hat Hrd Hin. destruct s as [|m|m|]; simpl in Hat.
  - subst p.
    rewrite (in_critical_section_call L (user_of r) r (mutation_of_user r Hrd))
      in Hin.
    discriminate.
  - destruct Hat as (_ & _ & _ & ->). discriminate Hin.
  - destruct Hat as (_ & _ & Hm & _). eauto.
  - destruct p; discriminate.
Qed.

(** X20: mutual exclusion per user, in every pool.  In every state reached
    by a pool of concurrent calls of any methods, users and arguments,
    started with no lock held, whatever the interleaving and whatever the
    tables do: two [chargePoint] or [usePoint] calls of one user are never
    inside their critical sections (awaiting a table) at the same
    moment. *)
Theorem one_call_per_user_inside {S} (C : Collaborators S) L
    (reqs : list request) (w0 w : World S) (ts : list (prog response))
    (i j : nat) (ri rj : request) (p q : prog response) :
  quiet w0 ->
  rtc (step C) (w0, call L <$> reqs) (w, ts) ->
  reqs !! i = Some ri -> reqs !! j = Some rj ->
  is_read ri = false -> is_read rj = false -> user_of ri = user_of rj ->
  ts !! i = Some p -> ts !! j = Some q ->
  in_critical_section p = true -> in_critical_section q = true ->
  i = j.
Proof.
  intros Hq Hreach Hri Hrj Hdi Hdj Hu Hp Hq' Hip Hiq.
  destruct (pool_reach C L reqs w0 w ts Hq Hreach) as [ss Inv].
  destruct (lookup_lt_is_Some_2 ss i) as [si Hsi].
  { rewrite (pool_stages _ _ _ _ _ Inv). now apply lookup_lt_Some in Hri. }
  destruct (lookup_lt_is_Some_2 ss j) as [sj Hsj].
  { rewrite (pool_stages _ _ _ _ _ Inv). now apply lookup_lt_Some in Hrj. }
  destruct (inside_is_holding L w ri si p
              (pool_at _ _ _ _ _ Inv i ri si p Hri Hsi Hp) Hdi Hip)
    as (mi & -> & Hmi).
  destruct (inside_is_holding L w rj sj q
              (pool_at _ _ _ _ _ Inv j rj sj q Hrj Hsj Hq') Hdj Hiq)
    as (mj & -> & Hmj).
  assert (mi = mj) as -> by congruence.
  destruct (pool_agree _ _ _ _ _ Inv) as (_ & _ & Hex). eauto.
Qed.

Lemma one_call_per_user_inside_witness :
  match
    schedule tables [0; 1; 2; 1; 1]%nat
      (initial,
       call (Int 1000) <$>
         [ChargePoint (Int 1) (Int 600); ChargePoint (Int 2) (Int 700);
          UsePoint (Int 2) (Int 5); GetPoint (Int 2)])
  with
  | Some (w, ts) =>
      exists p q,
        ts !! 1%nat = Some p /\ in_critical_section p = true
        /\ ts !! 2%nat = Some q /\ in_critical_section q = false
        /\ 1%nat = 1%nat
  | None => False
  end.
Proof.
  destruct (schedule tables _ _) as [[w ts]|] eqn:E.
  - pose proof (schedule_rtc _ _ _ _ E) as Hreach.
    assert (Hts : exists p q,
               ts !! 1%nat = Some p /\ in_critical_section p = true
               /\ ts !! 2%nat = Some q /\ in_critical_section q = false).
    { observe (fun '((_, ts) : World Tables * list (prog response)) =>
                 (in_critical_section <$> ts !! 1%nat,
                  in_critical_section <$> ts !! 2%nat))
        (Some true, Some false) E Hs.
      injection Hs as H1 H2.
      apply fmap_Some in H1 as (p & Hp & Hip).
      apply fmap_Some in H2 as (q & Hq & Hiq).
      exists p, q. auto. }
    destruct Hts as (p & q & Hp & Hin & Hq & Hout).
    exists p, q. split; [exact Hp|]. split; [exact Hin|].
    split; [exact Hq|]. split; [exact Hout|].
    exact (one_call_per_user_inside tables (Int 1000)
             [ChargePoint (Int 1) (Int 600); ChargePoint (Int 2) (Int 700);
              UsePoint (Int 2) (Int 5); GetPoint (Int 2)]
             initial w ts 1 1 (ChargePoint (Int 2) (Int 700))
             (ChargePoint (Int 2) (Int 700)) p p
             quiet_initial Hreach eq_refl eq_refl eq_refl eq_refl eq_refl
             Hp Hp Hin Hin).
  - not_blocked E.
Defined.

(** *** Any pool can run to completion *)

Lemma unsettled_insert_same {A} (ts : list (prog A)) i p p' :
  ts !! i = Some p -> is_settled p = false -> is_settled p' = false ->
  unsettled (<[i := p']> ts) = unsettled ts.
Proof.
  unfold unsettled. revert i. induction ts as [|q ts IH]; intros i Hi Hp Hp'.
  - discriminate.
  - destruct i as [|i]; simpl in *.
    + injection Hi as ->. rewrite !filter_cons.
      now rewrite !decide_True by assumption.
    + specialize (IH i Hi Hp Hp'). rewrite !filter_cons.
      destruct (decide (is_settled q = false)); simpl; lia.
Qed.

Lemma holder_runs {S} (C : Collaborators S) L reqs (w : World S) ts ss h m :
  pool_inv L reqs w ts ss -> ss !! h = Some (Holding m) ->
  exists w' ts',
    rtc (step C) (w, ts) (w', ts') /\ (unsettled ts' < unsettled ts)%nat.
Proof.
  intros Inv Hs.
  assert (Hhl : (h < length reqs)%nat).
  { rewrite <- (pool_stages _ _ _ _ _ Inv). now apply lookup_lt_Some in Hs. }
  destruct (lookup_lt_is_Some_2 reqs h Hhl) as [r Hr].
  destruct (lookup_lt_is_Some_2 ts h) as [p Hp];
    [now rewrite (pool_len _ _ _ _ _ Inv)|].
  destruct (pool_at _ _ _ _ _ Inv h r _ p Hr Hs Hp)
    as (_ & _ & _ & b & -> & Hlb & Hpb & Hsb).
  assert (Hlt : (h < length ts)%nat) by now apply lookup_lt_Some in Hp.
  destruct (holder_finishes C (user_of r) m b Hlb w ts h Hlt)
    as (w' & p' & Hrtc & Hp').
  assert (Hadv : advance C (holding m b (user_of r)) w
                 = (holding m b (user_of r), w)).
  { apply advance_parked. now destruct b. }
  rewrite Hadv in Hrtc. simpl in Hrtc.
  rewrite (list_insert_id _ _ _ Hp) in Hrtc.
  exists w', (<[h := p']> ts). split; [exact Hrtc|].
  eapply unsettled_insert; eauto. now destruct b.
Qed.

Lemma waiter_runs {S} (C : Collaborators S) L reqs (w : World S) ts ss i m
    (callback : prog number) u :
  pool_inv L reqs w ts ss ->
  ts !! i = Some (guarded m callback u) -> lockless callback ->
  exists w' ts',
    rtc (step C) (w, ts) (w', ts') /\ (unsettled ts' < unsettled ts)%nat.
Proof.
  intros Inv Hi Hlb. destruct (locked m w) eqn:Hl.
  - destruct (pool_agree _ _ _ _ _ Inv) as (H1 & _).
    destruct (H1 m Hl) as [h Hh]. eapply holder_runs; eauto.
  - assert (Hlt : (i < length ts)%nat) by now apply lookup_lt_Some in Hi.
    destruct (holder_finishes C u m callback Hlb (set_mutex m true w) ts i Hlt)
      as (w' & p' & Hrtc & Hp').
    exists w', (<[i := p']> ts). split.
    + eapply rtc_l; [|exact Hrtc]. exists i.
      now rewrite (turn_guarded C u ts i m callback w Hi), Hl.
    + eapply unsettled_insert; eauto.
Qed.

Lemma finish_one {S} (C : Collaborators S) L reqs (w : World S) ts ss i p :
  pool_inv L reqs w ts ss -> ts !! i = Some p -> is_settled p = false ->
  exists w' ts',
    rtc (step C) (w, ts) (w', ts') /\ (unsettled ts' < unsettled ts)%nat.
Proof.
  intros Inv Hi Hp.
  assert (Hil : (i < length reqs)%nat).
  { rewrite <- (pool_len _ _ _ _ _ Inv). now apply lookup_lt_Some in Hi. }
  destruct (lookup_lt_is_Some_2 reqs i Hil) as [r Hr].
  destruct (lookup_lt_is_Some_2 ss i) as [s Hs];
    [now rewrite (pool_stages _ _ _ _ _ Inv)|].
  pose proof (pool_at _ _ _ _ _ Inv i r s p Hr Hs Hi) as Hat.
  destruct s as [|m|m|]; simpl in Hat.
  - subst p. destruct (is_read r) eqn:Hrd.
    + destruct (read_turn C L r i w ts Hrd Hi Hp) as (w' & p' & Ht & Hp' & _).
      exists w', (<[i := p']> ts). split.
      * apply rtc_once. now exists i.
      * eapply unsettled_insert; eauto.
    + pose proof (mutation_of_user r Hrd) as Hmu.
      destruct (valid r) eqn:Hv.
      * pose proof (turn_fresh C L (user_of r) ts i r w Hi Hmu Hv) as Ht.
        destruct (pool_step C L reqs w ts ss i _ Inv Ht) as [ss1 Inv1].
        simpl in Inv1.
        destruct (waiter_runs C L reqs _ _ ss1 i (mutex_for (user_of r) w)
                    (section_of L r) (user_of r) Inv1)
          as (w' & ts' & Hrtc & Hlt).
        -- apply list_lookup_insert_eq. now apply lookup_lt_Some in Hi.
        -- apply lockless_section_of.
        -- exists w', ts'. split.
           ++ eapply rtc_l; [|exact Hrtc]. now exists i.
           ++ rewrite (unsettled_insert_same ts i (call L r)
                         (guarded (mutex_for (user_of r) w) (section_of L r)
                            (user_of r)) Hi Hp eq_refl) in Hlt.
              exact Hlt.
      * destruct (call_invalid L (user_of r) r Hmu Hv) as [e He].
        rewrite He in Hp. discriminate.
  - destruct Hat as (_ & _ & _ & ->).
    eapply waiter_runs; eauto. apply lockless_section_of.
  - eapply holder_runs; eauto.
  - congruence.
Qed.

(** X21: no deadlock, in every pool.  From every state reached by a pool
    of concurrent calls of any methods, users and arguments, started with
    no lock held, whatever the tables do, the pool can run on until every
    call is settled: a call that waits for a lock waits for a call that
    can finish and release it. *)
Theorem every_pool_can_complete {S} (C : Collaborators S) L
    (reqs : list request) (w0 w : World S) (ts : list (prog response)) :
  quiet w0 ->
  rtc (step C) (w0, call L <$> reqs) (w, ts) ->
  exists w' ts',
    rtc (step C) (w, ts) (w', ts')
    /\ Forall (fun p => is_settled p = true) ts'.
Proof.
  intros Hq. remember (unsettled ts) as n eqn:Hn. revert w ts Hn.
  induction n as [n IH] using lt_wf_ind. intros w ts Hn Hreach.
  destruct (decide (unsettled ts = 0%nat)) as [H0|Hpos].
  - exists w, ts. split; [apply rtc_refl | now apply unsettled_0].
  - destruct (unsettled_pos ts Hpos) as (i & p & Hti & Hp).
    destruct (pool_reach C L reqs w0 w ts Hq Hreach) as [ss Inv].
    destruct (finish_one C L reqs w ts ss i p Inv Hti Hp)
      as (w1 & ts1 & Hrtc & Hlt).
    destruct (IH (unsettled ts1) ltac:(lia) w1 ts1 eq_refl)
      as (w' & ts' & Hrtc' & Hall).
    + eapply rtc_trans; eauto.
    + exists w', ts'. split; [|exact Hall]. eapply rtc_trans; eauto.
Qed.

Lemma every_pool_can_complete_witness :
  match
    schedule tables [0; 1; 2; 2; 2]%nat
      (initial,
       call (Int 1000) <$>
         [ChargePoint (Int 1) (Int 600); ChargePoint (Int 2) (Int 700);
          UsePoint (Int 2) (Int 5); GetHistories (Int 2)])
  with
  | Some (w, ts) =>
      exists w' ts',
        rtc (step tables) (w, ts) (w', ts')
        /\ Forall (fun p => is_settled p = true) ts'
  | None => False
  end.
Proof.
  destruct (schedule tables _ _) as [[w ts]|] eqn:E.
  - apply (every_pool_can_complete tables (Int 1000)
             [ChargePoint (Int 1) (Int 600); ChargePoint (Int 2) (Int 700);
              UsePoint (Int 2) (Int 5); GetHistories (Int 2)] initial w ts).
    + exact quiet_initial.
    + exact (schedule_rtc _ _ _ _ E).
  - not_blocked E.
Defined.

(** X22: no lock is leaked.  When every call of a pool of concurrent calls
    of any methods, users and arguments, started with no lock held, is
    settled, no Mutex is locked, whatever the interleaving and whatever
    the tables do, also when calls were rejected inside their critical
    sections. *)
Theorem settled_pool_holds_no_lock {S} (C : Collaborators S) L
    (reqs : list request) (w0 w : World S) (ts : list (prog response)) :
  quiet w0 ->
  rtc (step C) (w0, call L <$> reqs) (w, ts) ->
  Forall (fun p => is_settled p = true) ts ->
  idle w.
Proof.
  intros Hq Hreach Hall m.
  destruct (pool_reach C L reqs w0 w ts Hq Hreach) as [ss Inv].
  destruct (locked m w) eqn:Hl; [exfalso|reflexivity].
  destruct (pool_agree _ _ _ _ _ Inv) as (H1 & _).
  destruct (H1 m Hl) as [h Hh].
  assert (Hhl : (h < length reqs)%nat).
  { rewrite <- (pool_stages _ _ _ _ _ Inv). now apply lookup_lt_Some in Hh. }
  destruct (lookup_lt_is_Some_2 reqs h Hhl) as [r Hr].
  destruct (lookup_lt_is_Some_2 ts h) as [p Hp];
    [now rewrite (pool_len _ _ _ _ _ Inv)|].
  destruct (pool_at _ _ _ _ _ Inv h r _ p Hr Hh Hp)
    as (_ & _ & _ & b & -> & _ & _ & Hsb).
  pose proof (Forall_lookup_1 _ _ _ _ Hall Hp) as Hs. simpl in Hs.
  destruct b; discriminate.
Qed.

Lemma settled_pool_holds_no_lock_witness :
  let ins := fun (_ : Z) (_ _ : number) (_ : TransactionType) (_ : number)
               (t : Tables) =>
               (@rejected PointHistory (new_Error [Text "insert failed"]), t) in
  match
    schedule (with_history_insert ins) [0; 1; 1; 1; 1; 1; 0; 0; 0; 0]%nat
      (initial,
       call (Int 1000) <$>
         [ChargePoint (Int 1) (Int 300); ChargePoint (Int 1) (Int 400)])
  with
  | Some (w, ts) => idle w
  | None => False
  end.
Proof.
  intros ins.
  destruct (schedule (with_history_insert ins) _ _) as [[w ts]|] eqn:E.
  - apply (settled_pool_holds_no_lock (with_history_insert ins) (Int 1000)
             [ChargePoint (Int 1) (Int 300); ChargePoint (Int 1) (Int 400)]
             initial w ts).
    + exact quiet_initial.
    + exact (schedule_rtc _ _ _ _ E).
    + vm_compute in E. injection E as _ <-. repeat constructor.
  - not_blocked E.
Defined.
